(** * The digest pipeline of [src/app/api/bluesky/feed/route.ts]

    A shallow embedding of the digest route (the [@vercel/kv] variant):
    post normalisation, the paginated timeline collector, the external
    feed fetcher, de-duplication by [uri], the engagement ranking, the
    mapping of the model's answer back to posts, and the daily cache.

    Conventions of the embedding.
    - JavaScript numbers that hold counts and times are integers ([Z], [nat]).
      The engagement score is computed in double arithmetic: [roundDouble]
      rounds after every operation, and the score is the rational ([Q]) the
      doubles arrive at.  The theorems on the score take counts that are safe
      integers ([safeCounts]); up to [2^49] no operation rounds and the score
      is the exact sum ([exactCounts]).
    - Strings are [string]s.  The code compares texts with ASCII literals,
      cuts them at ASCII characters and concatenates them, which does not
      depend on how the other characters are held.  Only the excerpt of a
      quoted post counts the characters of a text: its theorem takes the text
      in ASCII ([asciiText]), where a character of the [string], a UTF-16
      code unit of the JavaScript string and a byte are the same.
    - A call that may throw returns an [option] ([None] is the exception).
    - The [while (true)] loops take a fuel argument; the theorems at the end
      show that the fuel built into [GET] is always enough.
    - The built-ins [new Date(string)] and [RegExp.test] are the fields of the
      class [JsBuiltins]. *)

From Stdlib Require Import ZArith QArith Lqa String Ascii List Lia Sorted
  Permutation.
From stdpp Require Import base option list gmap strings pretty.

Local Open Scope string_scope.
Local Open Scope Z_scope.

(** ** Dates *)

Module JsDate.

Definition msPerDay : Z := 86400000.

(** The civil date of a day number counted from 1970-01-01 (proleptic
    Gregorian calendar, as ECMAScript time values use). *)
Definition civil_from_days (days : Z) : Z * Z * Z :=
  let z := days + 719468 in
  let era := z / 146097 in
  let doe := z - era * 146097 in
  let yoe := (doe - doe / 1460 + doe / 36524 - doe / 146096) / 365 in
  let doy := doe - (365 * yoe + yoe / 4 - yoe / 100) in
  let mp := (5 * doy + 2) / 153 in
  let d := doy - (153 * mp + 2) / 5 + 1 in
  let m := if mp <? 10 then mp + 3 else mp - 9 in
  let y := yoe + era * 400 + (if m <=? 2 then 1 else 0) in
  (y, m, d).

Definition days_from_civil (y m d : Z) : Z :=
  let y' := if m <=? 2 then y - 1 else y in
  let era := y' / 400 in
  let yoe := y' - era * 400 in
  let doy := (153 * (if 2 <? m then m - 3 else m + 9) + 2) / 5 + d - 1 in
  let doe := yoe * 365 + yoe / 4 - yoe / 100 + doy in
  era * 146097 + doe - 719468.

Definition digit_char (n : Z) : ascii :=
  ascii_of_nat (48 + Z.to_nat (n mod 10)).

(** [n] in decimal, padded with zeros to [width] characters. *)
Fixpoint pad (width : nat) (n : Z) : string :=
  match width with
  | O => ""
  | S w => pad w (n / 10) ++ String (digit_char n) ""
  end.

Definition year_string (y : Z) : string :=
  if (0 <=? y) && (y <=? 9999) then pad 4 y
  else if y <? 0 then "-" ++ pad 6 (- y) else "+" ++ pad 6 y.

(** The part of [toISOString()] before the ["T"]. *)
Definition isoDatePart (t : Z) : string :=
  let '(y, m, d) := civil_from_days (t / msPerDay) in
  year_string y ++ "-" ++ pad 2 m ++ "-" ++ pad 2 d.

Definition isoTimePart (t : Z) : string :=
  let ms := t mod msPerDay in
  pad 2 (ms / 3600000) ++ ":" ++ pad 2 (ms / 60000 mod 60) ++ ":"
    ++ pad 2 (ms / 1000 mod 60) ++ "." ++ pad 3 (ms mod 1000).

(** [new Date(t).toISOString()] *)
Definition toISOString (t : Z) : string :=
  isoDatePart t ++ "T" ++ isoTimePart t ++ "Z".

(** [new Date(t).toISOString().split("T")[0]]: the date part holds no ["T"]. *)
Definition today (t : Z) : string := isoDatePart t.

Definition digit_of (c : ascii) : option Z :=
  let n := Z.of_nat (nat_of_ascii c) in
  if (48 <=? n) && (n <=? 57) then Some (n - 48) else None.

Fixpoint number_of (acc : Z) (cs : list ascii) : option Z :=
  match cs with
  | [] => Some acc
  | c :: cs' =>
      match digit_of c with
      | Some d => number_of (10 * acc + d) cs'
      | None => None
      end
  end.

Definition is_char (c : ascii) (s : string) : bool :=
  String.eqb (String c "") s.

(** A parser for the one form that [toISOString] prints,
    [YYYY-MM-DDTHH:MM:SS.sssZ]; every other string is an invalid date. *)
Definition parse_utc (s : string) : option Z :=
  match list_ascii_of_string s with
  | [y1; y2; y3; y4; c1; m1; m2; c2; d1; d2; c3;
     h1; h2; c4; i1; i2; c5; s1; s2; c6; f1; f2; f3; c7] =>
      if is_char c1 "-" && is_char c2 "-" && is_char c3 "T" && is_char c4 ":"
         && is_char c5 ":" && is_char c6 "." && is_char c7 "Z"
      then
        match number_of 0 [y1; y2; y3; y4], number_of 0 [m1; m2],
              number_of 0 [d1; d2], number_of 0 [h1; h2], number_of 0 [i1; i2],
              number_of 0 [s1; s2], number_of 0 [f1; f2; f3] with
        | Some y, Some m, Some d, Some h, Some i, Some sec, Some f =>
            if (1 <=? m) && (m <=? 12) && (1 <=? d) && (d <=? 31)
               && (h <=? 23) && (i <=? 59) && (sec <=? 59)
            then Some (days_from_civil y m d * msPerDay
                       + h * 3600000 + i * 60000 + sec * 1000 + f)
            else None
        | _, _, _, _, _, _, _ => None
        end
      else None
  | _ => None
  end.

End JsDate.

(** The JavaScript built-ins the route relies on.  [Date_parse s] is the time
    value of [new Date(s)], [None] standing for an Invalid Date (whose time
    value [NaN] makes every comparison false); the empty string is an Invalid
    Date.  [keyword_test] is [AI_KEYWORDS_REGEX.test]. *)
Class JsBuiltins := {
  Date_parse : string -> option Z;
  Date_parse_empty : Date_parse "" = None;
  keyword_test : string -> bool
}.

(** ** Data model *)

Record Author := {
  handle : string;
  displayName : option string;
  avatar : option string
}.

Record QuotedPost := {
  quoted_handle : option string;
  quoted_text : string
}.

Record Post := {
  uri : string;
  author : Author;
  text : string;
  createdAt : string;
  likeCount : Z;
  repostCount : Z;
  replyCount : Z;
  quotedPost : option QuotedPost
}.

(** The upstream feed item, as far as [extractPost] reads it.  [embed.record]
    is read both as a record view ([embed_record]) and as the wrapper of one
    ([embed_record_record]). *)
Record ViewRecord := {
  vr_type : option string;
  vr_author_handle : option string;
  vr_value_text : option string
}.

Record Embed := {
  embed_type : option string;
  embed_record : option ViewRecord;
  embed_record_record : option ViewRecord
}.

Record FeedItem := {
  item_uri : string;
  item_author : Author;
  item_embed : option Embed;
  item_text : option string;
  item_createdAt : option string;
  item_likeCount : option Z;
  item_repostCount : option Z;
  item_replyCount : option Z
}.

(** [x || ""] on an optional string. *)
Definition or_empty (x : option string) : string :=
  match x with
  | Some s => s
  | None => ""
  end.

(** A string in a condition: the empty string is falsy. *)
Definition truthy (s : string) : bool := negb (String.eqb s "").

Definition quoteOf (record : option ViewRecord) : option QuotedPost :=
  match record with
  | Some r =>
      if decide (vr_type r = Some "app.bsky.embed.record#viewRecord")
      then Some {| quoted_handle := vr_author_handle r;
                   quoted_text := or_empty (vr_value_text r) |}
      else None
  | None => None
  end.

Definition extractPost (item : FeedItem) : Post :=
  let embed := item_embed item in
  let quotedPost0 :=
    match embed with
    | Some e =>
        if decide (embed_type e = Some "app.bsky.embed.record#view")
        then quoteOf (embed_record e) else None
    | None => None
    end in
  let quotedPost1 :=
    match embed with
    | Some e =>
        if decide (embed_type e = Some "app.bsky.embed.recordWithMedia#view")
        then match quoteOf (embed_record_record e) with
             | Some q => Some q
             | None => quotedPost0
             end
        else quotedPost0
    | None => quotedPost0
    end in
  {| uri := item_uri item;
     author := item_author item;
     text := or_empty (item_text item);
     createdAt := or_empty (item_createdAt item);
     likeCount := default 0 (item_likeCount item);
     repostCount := default 0 (item_repostCount item);
     replyCount := default 0 (item_replyCount item);
     quotedPost := quotedPost1 |}.

(** ** Engagement ranking *)

(** A JavaScript number is an IEEE 754 double: an operation gives its exact
    result rounded to 53 significant bits, and of two doubles equally near it
    gives the one with the even significand.  [roundDouble m] is that rounding
    of an integer [m]: at most 53 bits are exact, and [e] bits beyond them
    are rounded off to a multiple of [2 ^ e]. *)
Definition roundDouble (m : Z) : Z :=
  let e := Z.log2 (Z.abs m) - 52 in
  if e <=? 0 then m
  else
    let ulp := 2 ^ e in
    let q := m / ulp in
    let r := m mod ulp in
    if 2 * r <? ulp then q * ulp
    else if ulp <? 2 * r then (q + 1) * ulp
    else if Z.even q then q * ulp else (q + 1) * ulp.

(** [likeCount + repostCount * 2 + replyCount * 1.5], from left to right with
    the two products first.  Every number on the way is a multiple of 1/2 and
    is held as twice its value, an integer with the same significand, so
    rounding the integer rounds the number; the result is halved at the end.
    Counts that are safe integers stay far from overflow. *)
Definition calculateEngagementScore (post : Post) : Q :=
  let likes := 2 * likeCount post in
  let reposts := roundDouble (2 * (repostCount post * 2)) in
  let replies := roundDouble (replyCount post * 3) in
  (roundDouble (roundDouble (likes + reposts) + replies) # 2)%Q.

(** The comparator handed to [sort]: [(a, b) => score(b) - score(a)].  The
    difference of two doubles is rounded as well, which leaves its sign and
    keeps it from zero unless the two are equal; [sort] looks at nothing
    else. *)
Definition byEngagement (a b : Post) : Q :=
  (calculateEngagementScore b - calculateEngagementScore a)%Q.

(** [Array.prototype.sort] is stable and puts [a] before [b] when the
    comparator is negative; with a consistent comparator its result is the one
    of the stable insertion sort below. *)
Section Sort.
Context {A : Type} (cmp : A -> A -> Q).

Fixpoint sort_insert (x : A) (l : list A) : list A :=
  match l with
  | [] => [x]
  | y :: l' =>
      if Qle_bool (cmp x y) 0 then x :: y :: l' else y :: sort_insert x l'
  end.

Definition sort (l : list A) : list A := foldr sort_insert [] l.
End Sort.

(** [[...posts].sort(byEngagement).slice(0, 150)] *)
Definition rankPosts (posts : list Post) : list Post :=
  take 150 (sort byEngagement posts).

(** ** Pagination *)

(** One answer of [getTimeline] or [getFeed]: [data.feed] and [data.cursor]. *)
Record Page := {
  feed : list FeedItem;
  cursor : option string
}.

(** The authenticated agent.  Each call takes the [limit] and [cursor] of the
    request and may throw. *)
Record Agent := {
  getTimeline : nat -> option string -> option Page;
  getFeed : string -> nat -> option string -> option Page;
  getProfile : string -> option string
}.

(** The two variables a pagination loop updates. *)
Record Scan := {
  allPosts : list Post;
  oldPostCount : nat
}.

Inductive LoopResult :=
| OutOfFuel
| Threw (st : Scan)
| Exited (st : Scan).

(** [!cursor] is false for a non-empty string only. *)
Definition hasCursor (c : option string) : bool :=
  match c with
  | Some s => truthy s
  | None => false
  end.

(** [postDate < twentyFourHoursAgo] *)
Definition isOld `{!JsBuiltins} (twentyFourHoursAgo : Z) (post : Post) : bool :=
  match Date_parse (createdAt post) with
  | Some postDate => postDate <? twentyFourHoursAgo
  | None => false
  end.

(** The body of [for (const item of ... .data.feed)], the same in both loops. *)
Definition scanItem `{!JsBuiltins} (twentyFourHoursAgo : Z) (st : Scan)
    (item : FeedItem) : Scan :=
  let post := extractPost item in
  if isOld twentyFourHoursAgo post
  then {| allPosts := allPosts st; oldPostCount := S (oldPostCount st) |}
  else {| allPosts := allPosts st ++ [post]; oldPostCount := 0 |}.

Definition scanPage `{!JsBuiltins} (twentyFourHoursAgo : Z) (st : Scan)
    (items : list FeedItem) : Scan :=
  foldl (scanItem twentyFourHoursAgo) st items.

(** The timeline loop of [GET]. *)
Module Timeline.
Definition MAX_OLD_POSTS : nat := 20.

Fixpoint loop `{!JsBuiltins} (fuel : nat) (agent : Agent)
    (twentyFourHoursAgo : Z) (cursor0 : option string) (st : Scan)
    : LoopResult :=
  match fuel with
  | O => OutOfFuel
  | S fuel' =>
      match getTimeline agent 100 cursor0 with
      | None => Threw st
      | Some timeline =>
          match feed timeline with
          | [] => Exited st
          | _ :: _ =>
              let st' := scanPage twentyFourHoursAgo st (feed timeline) in
              if (MAX_OLD_POSTS <=? oldPostCount st')%nat
                 || negb (hasCursor (cursor timeline))
                 || (1000 <? length (allPosts st'))%nat
              then Exited st'
              else loop fuel' agent twentyFourHoursAgo (cursor timeline) st'
          end
      end
  end.

Definition fuel : nat := (21 * 1001 + 21)%nat.

Definition start : Scan := {| allPosts := []; oldPostCount := 0 |}.

Definition collect `{!JsBuiltins} (agent : Agent) (twentyFourHoursAgo : Z)
    : LoopResult :=
  loop fuel agent twentyFourHoursAgo None start.
End Timeline.

(** The loop of [fetchAIFeedPosts] over one external feed.  [allPosts] is
    shared by all feeds; [oldPostCount] starts at zero for each. *)
Module AIFeed.
Definition MAX_OLD_POSTS : nat := 10.

Fixpoint loop `{!JsBuiltins} (fuel : nat) (agent : Agent) (feedUri : string)
    (twentyFourHoursAgo : Z) (cursor0 : option string) (st : Scan)
    : LoopResult :=
  match fuel with
  | O => OutOfFuel
  | S fuel' =>
      match getFeed agent feedUri 100 cursor0 with
      | None => Threw st
      | Some feedData =>
          match feed feedData with
          | [] => Exited st
          | _ :: _ =>
              let st' := scanPage twentyFourHoursAgo st (feed feedData) in
              if (MAX_OLD_POSTS <=? oldPostCount st')%nat
                 || negb (hasCursor (cursor feedData))
                 || (500 <? length (allPosts st'))%nat
              then Exited st'
              else loop fuel' agent feedUri twentyFourHoursAgo
                     (cursor feedData) st'
          end
      end
  end.

Definition fuel : nat := (11 * 501 + 11)%nat.
End AIFeed.

Record FeedRef := {
  feed_handle : string;
  feed_rkey : string
}.

Definition AI_FEEDS : list FeedRef :=
  [ {| feed_handle := "smcgrath.phd"; feed_rkey := "MLBlend" |} ].

(** One turn of [for (const feed of AI_FEEDS)]: a throw of [getProfile] or
    [getFeed] is caught and the posts pushed so far stay in [allPosts].
    [None] is a loop that ran out of fuel. *)
Definition fetchOneFeed `{!JsBuiltins} (agent : Agent) (twentyFourHoursAgo : Z)
    (allPosts0 : list Post) (feed0 : FeedRef) : option (list Post) :=
  match getProfile agent (feed_handle feed0) with
  | None => Some allPosts0
  | Some did =>
      let feedUri := "at://" ++ did ++ "/app.bsky.feed.generator/"
                     ++ feed_rkey feed0 in
      match AIFeed.loop AIFeed.fuel agent feedUri twentyFourHoursAgo None
              {| allPosts := allPosts0; oldPostCount := 0 |} with
      | OutOfFuel => None
      | Threw st => Some (allPosts st)
      | Exited st => Some (allPosts st)
      end
  end.

Definition fetchFeeds `{!JsBuiltins} (agent : Agent) (twentyFourHoursAgo : Z)
    (feeds : list FeedRef) : option (list Post) :=
  foldl (fun acc feed0 =>
           match acc with
           | Some posts => fetchOneFeed agent twentyFourHoursAgo posts feed0
           | None => None
           end) (Some []) feeds.

Definition fetchAIFeedPosts `{!JsBuiltins} (agent : Agent)
    (twentyFourHoursAgo : Z) : option (list Post) :=
  fetchFeeds agent twentyFourHoursAgo AI_FEEDS.

(** ** De-duplication and date range *)

(** [allPosts.filter(post => { if (seen.has(post.uri)) return false;
    seen.add(post.uri); return true; })] with the set [seen] threaded. *)
Fixpoint dedupFrom (seen : gset string) (posts : list Post) : list Post :=
  match posts with
  | [] => []
  | post :: rest =>
      if decide (uri post ∈ seen) then dedupFrom seen rest
      else post :: dedupFrom ({[uri post]} ∪ seen) rest
  end.

Definition dedup (posts : list Post) : list Post := dedupFrom ∅ posts.

(** [posts.filter((p) => p.createdAt)] *)
Definition postsWithDates (posts : list Post) : list Post :=
  List.filter (fun p => truthy (createdAt p)) posts.

(** [new Date(a) < new Date(b)] *)
Definition dateBefore `{!JsBuiltins} (a b : string) : bool :=
  match Date_parse a, Date_parse b with
  | Some x, Some y => x <? y
  | _, _ => false
  end.

(** [l.reduce(f)] with no initial value, on a list known to be non-empty. *)
Definition reduce {A : Type} (f : A -> A -> A) (l : list A) : option A :=
  match l with
  | [] => None
  | x :: l' => Some (foldl f x l')
  end.

Definition oldestPost `{!JsBuiltins} (posts : list Post) : option Post :=
  reduce (fun oldest post =>
            if dateBefore (createdAt post) (createdAt oldest)
            then post else oldest) (postsWithDates posts).

Definition newestPost `{!JsBuiltins} (posts : list Post) : option Post :=
  reduce (fun newest post =>
            if dateBefore (createdAt newest) (createdAt post)
            then post else newest) (postsWithDates posts).

Definition isAIRelated `{!JsBuiltins} (post : Post) : bool :=
  let textToCheck :=
    text post ++ match quotedPost post with
                 | Some q => quoted_text q
                 | None => ""
                 end in
  keyword_test textToCheck.

(** ** Mapping the model's answer back to posts *)

(** One element of [digestData.notablePosts]. *)
Record Notable := {
  postIndex : Z;
  reason : string
}.

(** The parsed answer of the model. *)
Record DigestData := {
  data_overview : string;
  data_notablePosts : list Notable;
  data_trendingTopics : list string
}.

(** The post object built for a notable entry; it leaves [createdAt] out. *)
Record NotablePost := {
  np_uri : string;
  np_author : Author;
  np_text : string;
  np_likeCount : Z;
  np_repostCount : Z;
  np_replyCount : Z;
  np_quotedPost : option QuotedPost
}.

Record NotableEntry := {
  entry_post : option NotablePost;
  entry_reason : string
}.

(** [arr[i]] for an integer [i]: [undefined] out of range. *)
Definition at_index {A : Type} (arr : list A) (i : Z) : option A :=
  if i <? 0 then None else arr !! Z.to_nat i.

Definition notableOf (post : Post) : NotablePost :=
  {| np_uri := uri post;
     np_author := author post;
     np_text := text post;
     np_likeCount := likeCount post;
     np_repostCount := repostCount post;
     np_replyCount := replyCount post;
     np_quotedPost := quotedPost post |}.

Definition notableEntry (postsForDigest : list Post) (notable : Notable)
    : NotableEntry :=
  let post := at_index postsForDigest (postIndex notable - 1) in
  {| entry_post := match post with
                   | Some p => Some (notableOf p)
                   | None => None
                   end;
     entry_reason := reason notable |}.

Definition notablePostsWithData (postsForDigest : list Post)
    (notablePosts0 : list Notable) : list NotableEntry :=
  filter (fun p => is_Some (entry_post p))
    (map (notableEntry postsForDigest) notablePosts0).

(** ** The digest and its cache *)

Inductive DigestType := general | ai.

Definition typeName (type : DigestType) : string :=
  match type with
  | general => "general"
  | ai => "ai"
  end.

Record Meta := {
  totalPosts : nat;
  postsAnalyzed : nat;
  newestPostDate : option string;
  oldestPostDate : option string;
  generatedAt : string;
  digestType : DigestType;
  keywordMatches : option nat;
  feedPostCount : option nat
}.

Record Digest := {
  overview : string;
  notablePosts : list NotableEntry;
  trendingTopics : list string;
  meta : Meta
}.

Record DigestCache := {
  digest : Digest;
  date : string
}.

(** The key-value store: each entry with the time at which it expires. *)
Abbreviation Store := (gmap string (DigestCache * Z)).

(** [kv.get(key)] at time [now] *)
Definition kv_get (kv : Store) (now : Z) (key : string) : option DigestCache :=
  match kv !! key with
  | Some (value, expires) => if now <? expires then Some value else None
  | None => None
  end.

(** [kv.set(key, value, { ex })] at time [now]; [ex] is in seconds. *)
Definition kv_set (kv : Store) (now : Z) (key : string) (value : DigestCache)
    (ex : Z) : Store :=
  <[key := (value, now + ex * 1000)]> kv.

Definition getCacheKey (type : DigestType) (now : Z) : string :=
  "digest:" ++ typeName type ++ ":" ++ JsDate.today now.

(** [throws] tells whether the store fails on this call; the [catch] turns
    the failure into [null]. *)
Definition getCache (throws : bool) (kv : Store) (now : Z) (type : DigestType)
    : option DigestCache :=
  if throws then None else kv_get kv now (getCacheKey type now).

Definition setCache (throws : bool) (kv : Store) (now : Z) (type : DigestType)
    (digest0 : Digest) : Store :=
  if throws then kv
  else kv_set kv now (getCacheKey type now)
         {| digest := digest0; date := JsDate.today now |} 86400.

(** ** The request handler *)

(** The query parameters [refresh] and [type]. *)
Record Request := {
  param_refresh : option string;
  param_type : option string
}.

(** What the handler finds around it during one request: the clock when the
    request arrives and when the digest is finished, whether the store fails,
    the environment, the session cookie, the OAuth client's [restore]
    ([None]: it throws; [Some None]: no session) and the model's parsed answer
    to the prompt built from the posts ([None]: no text, or text that does not
    parse). *)
Record World := {
  now_request : Z;
  now_done : Z;
  kv_get_throws : bool;
  kv_set_throws : bool;
  ANTHROPIC_API_KEY : option string;
  bsky_session : option string;
  restore : string -> option (option Agent);
  complete : DigestType -> list Post -> option DigestData
}.

Inductive Body :=
| ErrorBody (error : string) (needsAuth : bool)
| DigestBody (d : Digest) (topDigestType : option DigestType) (cached : bool).

Record Response := {
  status : nat;
  body : Body;
  deletesSession : bool
}.

Definition failed (kv : Store) : option (Response * Store) :=
  Some ({| status := 500; body := ErrorBody "Failed to generate digest" false;
           deletesSession := false |}, kv).

(** [x?.createdAt || null] *)
Definition dateOf (x : option Post) : option string :=
  match x with
  | Some p => if truthy (createdAt p) then Some (createdAt p) else None
  | None => None
  end.

(** The part of [GET] after the session is restored, up to the response.
    [None] is a pagination loop that ran out of fuel. *)
Definition generate `{!JsBuiltins} (w : World) (kv : Store)
    (type : DigestType) (agent : Agent) : option (Response * Store) :=
  let twentyFourHoursAgo := now_request w - 24 * 60 * 60 * 1000 in
  match Timeline.collect agent twentyFourHoursAgo with
  | OutOfFuel => None
  | Threw _ => failed kv
  | Exited st =>
      let posts := dedup (allPosts st) in
      let selection :=
        match type with
        | ai =>
            let aiTimelinePosts := List.filter isAIRelated posts in
            match fetchAIFeedPosts agent twentyFourHoursAgo with
            | Some aiFeedPosts =>
                let uniqueAIPosts := dedup (aiTimelinePosts ++ aiFeedPosts) in
                Some (rankPosts uniqueAIPosts,
                      Some (length aiTimelinePosts),
                      Some (length aiFeedPosts))
            | None => None
            end
        | general => Some (rankPosts posts, None, None)
        end in
      match selection with
      | None => None
      | Some (postsForDigest, keywordMatches0, feedPostCount0) =>
          match complete w type postsForDigest with
          | None => failed kv
          | Some digestData =>
              let digest0 :=
                {| overview := data_overview digestData;
                   notablePosts :=
                     notablePostsWithData postsForDigest
                       (data_notablePosts digestData);
                   trendingTopics := data_trendingTopics digestData;
                   meta :=
                     {| totalPosts := length posts;
                        postsAnalyzed := length postsForDigest;
                        newestPostDate := dateOf (newestPost posts);
                        oldestPostDate := dateOf (oldestPost posts);
                        generatedAt := JsDate.toISOString (now_done w);
                        digestType := type;
                        keywordMatches := keywordMatches0;
                        feedPostCount := feedPostCount0 |} |} in
              Some ({| status := 200; body := DigestBody digest0 None false;
                       deletesSession := false |},
                    setCache (kv_set_throws w) kv (now_done w) type digest0)
          end
      end
  end.

Definition isPresent (x : option string) : bool :=
  match x with
  | Some s => truthy s
  | None => false
  end.

(** [url.searchParams.get("refresh") === "true"] *)
Definition refreshOf (request : Request) : bool :=
  bool_decide (param_refresh request = Some "true").

(** [url.searchParams.get("type") === "ai" ? "ai" : "general"] *)
Definition digestTypeOf (request : Request) : DigestType :=
  if decide (param_type request = Some "ai") then ai else general.

Definition GET `{!JsBuiltins} (w : World) (kv : Store) (request : Request)
    : option (Response * Store) :=
  let refresh := refreshOf request in
  let type := digestTypeOf request in
  let cached :=
    if refresh then None
    else getCache (kv_get_throws w) kv (now_request w) type in
  match cached with
  | Some c =>
      Some ({| status := 200; body := DigestBody (digest c) (Some type) true;
               deletesSession := false |}, kv)
  | None =>
      if negb (isPresent (ANTHROPIC_API_KEY w))
      then Some ({| status := 500;
                    body := ErrorBody "Missing Anthropic API key" false;
                    deletesSession := false |}, kv)
      else
        match bsky_session w with
        | Some sessionDid =>
            if truthy sessionDid then
              match restore w sessionDid with
              | None => failed kv
              | Some None =>
                  Some ({| status := 401;
                           body := ErrorBody "Session expired" true;
                           deletesSession := true |}, kv)
              | Some (Some oauthSession) => generate w kv type oauthSession
              end
            else Some ({| status := 401;
                          body := ErrorBody "Not authenticated" true;
                          deletesSession := false |}, kv)
        | None =>
            Some ({| status := 401; body := ErrorBody "Not authenticated" true;
                     deletesSession := false |}, kv)
        end
  end.

(** ** The specification's words, for comparison with the code *)

(** The pagination policy of the specification: a page size, a stop threshold
    on consecutive old posts and a hard cap on the retained posts, run against
    any paged fetch operation. *)
Record Policy := {
  pageSize : nat;
  stopThreshold : nat;
  hardCap : nat
}.

Fixpoint paginate `{!JsBuiltins} (policy : Policy)
    (fetch : nat -> option string -> option Page) (fuel : nat)
    (twentyFourHoursAgo : Z) (cursor0 : option string) (st : Scan)
    : LoopResult :=
  match fuel with
  | O => OutOfFuel
  | S fuel' =>
      match fetch (pageSize policy) cursor0 with
      | None => Threw st
      | Some page =>
          match feed page with
          | [] => Exited st
          | _ :: _ =>
              let st' := scanPage twentyFourHoursAgo st (feed page) in
              if (stopThreshold policy <=? oldPostCount st')%nat
                 || negb (hasCursor (cursor page))
                 || (hardCap policy <? length (allPosts st'))%nat
              then Exited st'
              else paginate policy fetch fuel' twentyFourHoursAgo
                     (cursor page) st'
          end
      end
  end.

(** The policy the specification gives the Timeline Collector, and the one it
    gives the Topic Filter (the same with half the hard cap). *)
Definition collectorPolicy : Policy :=
  {| pageSize := 100; stopThreshold := 20; hardCap := 1000 |}.

Definition topicFilterPolicy : Policy :=
  {| pageSize := 100; stopThreshold := 20; hardCap := 500 |}.

(** The posts of a list that are the first with their [uri], in order. *)
Fixpoint firstOccurrences (posts : list Post) : list Post :=
  match posts with
  | [] => []
  | p :: rest =>
      p :: filter (fun q => uri q ≠ uri p) (firstOccurrences rest)
  end.

(** The index of a notable entry names a position of the ranked list. *)
Definition inRange (postsForDigest : list Post) (notable : Notable) : Prop :=
  1 <= postIndex notable <= Z.of_nat (length postsForDigest).

(** The order the ranking produces: the score does not increase. *)
Definition scoreGe (a b : Post) : Prop :=
  (calculateEngagementScore b <= calculateEngagementScore a)%Q.

(** The score as the specification writes it, in exact arithmetic:
    [score(p) = likes + 2*reposts + 1.5*replies]. *)
Definition specScore (p : Post) : Q :=
  (inject_Z (likeCount p) + 2 * inject_Z (repostCount p)
   + 1.5 * inject_Z (replyCount p))%Q.

(** The order the specification asks for: the exact score does not
    increase. *)
Definition specScoreGe (a b : Post) : Prop := (specScore b <= specScore a)%Q.

(** [Number.isSafeInteger]: the integers a double holds one by one. *)
Definition safeInteger (n : Z) : Prop := Z.abs n <= 2 ^ 53 - 1.

(** The counts of a post are safe integers. *)
Definition safeCounts (p : Post) : Prop :=
  safeInteger (likeCount p) /\ safeInteger (repostCount p)
  /\ safeInteger (replyCount p).

(** The counts of a post are so small that no operation of the score
    rounds: the score stays below [2 ^ 52], where every multiple of 1/2 is
    a double. *)
Definition exactCounts (p : Post) : Prop :=
  Z.abs (likeCount p) <= 2 ^ 49 /\ Z.abs (repostCount p) <= 2 ^ 49
  /\ Z.abs (replyCount p) <= 2 ^ 49.

#[global] Instance inRange_dec (postsForDigest : list Post) (notable : Notable) :
  Decision (inRange postsForDigest notable).
Proof. unfold inRange. apply _. Defined.

(** The number of pages a loop can still fetch: each page that does not end
    the loop retains a post or lengthens the run of old posts. *)
Definition remaining (policy : Policy) (st : Scan) : nat :=
  (S (stopThreshold policy) * (S (hardCap policy) - length (allPosts st))
   + (stopThreshold policy - oldPostCount st))%nat.

(** The upstream returns no more items than the page size asked for. *)
Definition honoursLimit (agent : Agent) : Prop :=
  forall (cursor0 : option string) (page : Page),
    getTimeline agent 100 cursor0 = Some page -> (length (feed page) <= 100)%nat.

(** Every item of a page is older than the cutoff. *)
Definition allOld `{!JsBuiltins} (twentyFourHoursAgo : Z)
    (items : list FeedItem) : Prop :=
  Forall (fun item => isOld twentyFourHoursAgo (extractPost item) = true) items.

(** A world in which the store fails, or works, on reading or on writing. *)
Definition withGetThrows (b : bool) (w : World) : World :=
  {| now_request := now_request w; now_done := now_done w;
     kv_get_throws := b; kv_set_throws := kv_set_throws w;
     ANTHROPIC_API_KEY := ANTHROPIC_API_KEY w; bsky_session := bsky_session w;
     restore := restore w; complete := complete w |}.

Definition withSetThrows (b : bool) (w : World) : World :=
  {| now_request := now_request w; now_done := now_done w;
     kv_get_throws := kv_get_throws w; kv_set_throws := b;
     ANTHROPIC_API_KEY := ANTHROPIC_API_KEY w; bsky_session := bsky_session w;
     restore := restore w; complete := complete w |}.

(** The same request with [refresh=true]. *)
Definition refreshing (request : Request) : Request :=
  {| param_refresh := Some "true"; param_type := param_type request |}.

(** The time value of a post's [createdAt], when it is a valid date. *)
Definition timeOf `{!JsBuiltins} (post : Post) : option Z :=
  Date_parse (createdAt post).


(** ** The prompt and the model's raw text *)

(** The line feed, which a string literal cannot hold. *)
Definition newline : string := String (ascii_of_nat 10) "".

(** The double quote. *)
Definition dquote : string := String (ascii_of_nat 34) "".

(** [s.slice(n)] for [0 <= n]. *)
Definition dropString (n : nat) (s : string) : string :=
  string_of_list_ascii (drop n (list_ascii_of_string s)).

(** [s.slice(0, s.length - n)] *)
Definition dropEnd (n : nat) (s : string) : string :=
  string_of_list_ascii
    (take (String.length s - n) (list_ascii_of_string s)).

(** [s.startsWith(p)] and [s.endsWith(p)] *)
Definition startsWith (p s : string) : bool := String.prefix p s.

Definition endsWith (p s : string) : bool :=
  (String.length p <=? String.length s)%nat
  && String.eqb (dropString (String.length s - String.length p) s) p.

(** [s.replace(/^```(?:json)?\n?/, "")]: the fence, then the tag when it
    follows, then one line feed when it follows. *)
Definition dropOpeningFence (s : string) : string :=
  if startsWith "```" s then
    let s1 := dropString 3 s in
    let s2 := if startsWith "json" s1 then dropString 4 s1 else s1 in
    if startsWith newline s2 then dropString 1 s2 else s2
  else s.

(** [s.replace(/\n?```$/, "")]: the leftmost match ends the string, so it is
    the closing fence with the line feed before it when there is one. *)
Definition dropClosingFence (s : string) : string :=
  if endsWith "```" s then
    let s1 := dropEnd 3 s in
    if endsWith newline s1 then dropEnd 1 s1 else s1
  else s.

(** The lines of [GET] between [trim()] and [JSON.parse]; [jsonText] is the
    trimmed text of the model. *)
Definition stripFences (jsonText : string) : string :=
  if startsWith "```" jsonText
  then dropClosingFence (dropOpeningFence jsonText)
  else jsonText.

(** A number in a template literal; the counts are integers. *)
Definition showNumber (n : Z) : string := pretty n.

(** [text.slice(0, 200)] followed by the marker when the text is longer.
    The code counts UTF-16 code units; on a text in ASCII they are the
    characters of the [string]. *)
Definition quotedExcerpt (quoted : string) : string :=
  String.substring 0 200 quoted
  ++ (if (200 <? String.length quoted)%nat then "..." else "").

(** The text is in ASCII: every character is below 128. *)
Definition asciiText (s : string) : Prop :=
  Forall (fun c => (nat_of_ascii c < 128)%nat) (list_ascii_of_string s).

(** An optional string in a template literal. *)
Definition showOptional (x : option string) : string :=
  match x with
  | Some s => s
  | None => "undefined"
  end.

(** [displayName || handle] *)
Definition nameOf (a : Author) : string :=
  match displayName a with
  | Some n => if truthy n then n else handle a
  | None => handle a
  end.

(** One numbered block of [buildDigestPrompt]; [i] is the index in the array. *)
Definition promptBlock (i : nat) (post : Post) : string :=
  let engagement :=
    "[" ++ showNumber (likeCount post) ++ " likes, "
    ++ showNumber (repostCount post) ++ " reposts, "
    ++ showNumber (replyCount post) ++ " replies]" in
  let quoted :=
    match quotedPost post with
    | Some q =>
        newline ++ "  > Quoting @" ++ showOptional (quoted_handle q) ++ ": " ++ dquote
        ++ quotedExcerpt (quoted_text q) ++ dquote
    | None => ""
    end in
  "[" ++ showNumber (Z.of_nat i + 1) ++ "] @" ++ handle (author post)
  ++ " (" ++ nameOf (author post) ++ ") " ++ engagement ++ newline
  ++ dquote ++ text post ++ dquote ++ quoted ++ newline ++ "---".

Definition promptBlocks (posts : list Post) : list string :=
  imap promptBlock posts.

(** [blocks.join("\n")] *)
Fixpoint joinLines (blocks : list string) : string :=
  match blocks with
  | [] => ""
  | [b] => b
  | b :: rest => b ++ newline ++ joinLines rest
  end.

Definition buildDigestPrompt (posts : list Post) : string :=
  "Here are today's top " ++ showNumber (Z.of_nat (length posts))
  ++ " posts from my Bluesky feed, sorted by engagement:" ++ newline ++ newline
  ++ joinLines (promptBlocks posts) ++ newline ++ newline
  ++ "Analyze these posts and create a daily digest as JSON.".

(** ** Further vocabulary for the properties *)

(** A post the cutoff does not count as old. *)
Definition recent `{!JsBuiltins} (twentyFourHoursAgo : Z) (post : Post) : Prop :=
  isOld twentyFourHoursAgo post = false.

(** The external feeds return no more items than the page size asked for. *)
Definition honoursFeedLimit (agent : Agent) : Prop :=
  forall (feedUri : string) (cursor0 : option string) (page : Page),
    getFeed agent feedUri 100 cursor0 = Some page ->
    (length (feed page) <= 100)%nat.

(** The time values a [Date] can hold: 100 000 000 days around the epoch. *)
Definition validTime (t : Z) : Prop :=
  -8640000000000000 <= t <= 8640000000000000.

(** The UTC day number of a time value. *)
Definition utcDay (t : Z) : Z := t / JsDate.msPerDay.

(** Two posts with the same engagement score. *)
Definition sameScore (a b : Post) : Prop :=
  (calculateEngagementScore a == calculateEngagementScore b)%Q.

(** The upstream served the post: it is the normal form of an item of a
    timeline page, or of a page of an external feed. *)
Definition servedByTimeline (agent : Agent) (post : Post) : Prop :=
  exists (cursor0 : option string) (page : Page) (item : FeedItem),
    getTimeline agent 100 cursor0 = Some page
    /\ In item (feed page) /\ post = extractPost item.

Definition servedByFeed (agent : Agent) (post : Post) : Prop :=
  exists (feedUri : string) (cursor0 : option string) (page : Page)
         (item : FeedItem),
    getFeed agent feedUri 100 cursor0 = Some page
    /\ In item (feed page) /\ post = extractPost item.

(** The embed is a quote of a record that is there (not deleted, not
    blocked): directly, or next to media. *)
Definition realized (record : option ViewRecord) : Prop :=
  exists r, record = Some r
            /\ vr_type r = Some "app.bsky.embed.record#viewRecord".

Definition quotedRecord (item : FeedItem) : option ViewRecord :=
  match item_embed item with
  | Some e =>
      if decide (embed_type e = Some "app.bsky.embed.record#view")
      then embed_record e
      else if decide (embed_type e = Some "app.bsky.embed.recordWithMedia#view")
      then embed_record_record e
      else None
  | None => None
  end.

(** The digest [generate] builds from the values it has computed. *)
Definition freshDigest `{!JsBuiltins} (w : World) (type : DigestType)
    (posts postsForDigest : list Post) (keywordMatches0 feedPostCount0 : option nat)
    (digestData : DigestData) : Digest :=
  {| overview := data_overview digestData;
     notablePosts :=
       notablePostsWithData postsForDigest (data_notablePosts digestData);
     trendingTopics := data_trendingTopics digestData;
     meta :=
       {| totalPosts := length posts;
          postsAnalyzed := length postsForDigest;
          newestPostDate := dateOf (newestPost posts);
          oldestPostDate := dateOf (oldestPost posts);
          generatedAt := JsDate.toISOString (now_done w);
          digestType := type;
          keywordMatches := keywordMatches0;
          feedPostCount := feedPostCount0 |} |}.

(** The cutoff of a request. *)
Definition cutoffOf (w : World) : Z := now_request w - 24 * 60 * 60 * 1000.

(** The agent of the request: the session cookie is there and [restore]
    gives a session for it. *)
Definition agentOfRequest (w : World) (agent : Agent) : Prop :=
  exists sessionDid, bsky_session w = Some sessionDid
                     /\ restore w sessionDid = Some (Some agent).

(** A response that carries a digest generated by this request. *)
Definition freshBody (response : Response) (d : Digest) : Prop :=
  body response = DigestBody d None false.

(** ** The feed route *)

(** The first handler of the file: [GET] of the feed route, which logs in
    with the credentials of the environment and returns one page of posts. *)
Module FeedRoute.

(** The quoted record and the embed, with the fields this route reads. *)
Record RawRecord := {
  rr_type : option string;
  rr_uri : option string;
  rr_handle : option string;
  rr_displayName : option string;
  rr_avatar : option string;
  rr_text : option string
}.

Record RawEmbed := {
  re_type : option string;
  re_record : option RawRecord;
  re_record_record : option RawRecord
}.

Record RawItem := {
  ri_uri : string;
  ri_cid : string;
  ri_author : Author;
  ri_embed : option RawEmbed;
  ri_text : option string;
  ri_createdAt : option string;
  ri_likeCount : option Z;
  ri_repostCount : option Z;
  ri_replyCount : option Z
}.

Record Quoted := {
  q_uri : option string;
  q_handle : option string;
  q_displayName : option string;
  q_avatar : option string;
  q_text : string
}.

(** A post of the response: [createdAt] and the counts are passed on as they
    come, without defaults. *)
Record FeedPost := {
  fp_uri : string;
  fp_cid : string;
  fp_author : Author;
  fp_text : string;
  fp_createdAt : option string;
  fp_likeCount : option Z;
  fp_repostCount : option Z;
  fp_replyCount : option Z;
  fp_quotedPost : option Quoted
}.

Definition quotedOf (record : option RawRecord) : option Quoted :=
  match record with
  | Some r =>
      if decide (rr_type r = Some "app.bsky.embed.record#viewRecord")
      then Some {| q_uri := rr_uri r; q_handle := rr_handle r;
                   q_displayName := rr_displayName r;
                   q_avatar := rr_avatar r;
                   q_text := or_empty (rr_text r) |}
      else None
  | None => None
  end.

(** The callback of [feedData.data.feed.map]. *)
Definition toPost (item : RawItem) : FeedPost :=
  let embed := ri_embed item in
  let quotedPost0 :=
    match embed with
    | Some e =>
        if decide (re_type e = Some "app.bsky.embed.record#view")
        then quotedOf (re_record e) else None
    | None => None
    end in
  let quotedPost1 :=
    match embed with
    | Some e =>
        if decide (re_type e = Some "app.bsky.embed.recordWithMedia#view")
        then match quotedOf (re_record_record e) with
             | Some q => Some q
             | None => quotedPost0
             end
        else quotedPost0
    | None => quotedPost0
    end in
  {| fp_uri := ri_uri item;
     fp_cid := ri_cid item;
     fp_author := ri_author item;
     fp_text := or_empty (ri_text item);
     fp_createdAt := ri_createdAt item;
     fp_likeCount := ri_likeCount item;
     fp_repostCount := ri_repostCount item;
     fp_replyCount := ri_replyCount item;
     fp_quotedPost := quotedPost1 |}.

(** What [FEEDS[feedType]] evaluates to.  Besides its own three keys the
    object answers to the property names it inherits from [Object.prototype],
    with a function or an object, never a string. *)
Inductive Lookup :=
| NoProperty
| NullValue
| FeedUri (uri : string)
| InheritedValue (key : string).

Definition FEEDS (inherited : string -> bool) (key : string) : Lookup :=
  if decide (key = "timeline") then NullValue
  else if decide (key = "popular")
  then FeedUri "at://did:plc:z72i7hdynmk6r22z27h6tvur/app.bsky.feed.generator/whats-hot"
  else if decide (key = "popular-friends")
  then FeedUri "at://did:plc:wqowuobffl66jv3kpsvo7ak4/app.bsky.feed.generator/the-algorithm"
  else if inherited key then InheritedValue key
  else NoProperty.

(** The value handed to [getFeed] as [feed]. *)
Inductive FeedArg :=
| ArgUri (uri : string)
| ArgValue (key : string).

(** The agent after a successful login: [getTimeline] and [getFeed] with
    their [limit]; [None] is a call that throws. *)
Record Session := {
  timelinePage : nat -> option (list RawItem);
  feedPage : FeedArg -> nat -> option (list RawItem)
}.

Record Env := {
  BLUESKY_HANDLE : option string;
  BLUESKY_APP_PASSWORD : option string;
  login : string -> string -> option Session
}.

Inductive Answer :=
| Failure (status : nat) (error : string)
| Posts (posts : list FeedPost).

(** [searchParams.get("feed") || "timeline"] *)
Definition feedTypeOf (param : option string) : string :=
  match param with
  | Some s => if truthy s then s else "timeline"
  | None => "timeline"
  end.

Definition GET (inherited : string -> bool) (env : Env)
    (param : option string) : Answer :=
  let feedType := feedTypeOf param in
  match BLUESKY_HANDLE env, BLUESKY_APP_PASSWORD env with
  | Some handle0, Some appPassword =>
      if truthy handle0 && truthy appPassword then
        match login env handle0 appPassword with
        | None => Failure 500 "Failed to fetch feed"
        | Some agent =>
            let fetched :=
              if decide (feedType = "timeline")
              then Some (timelinePage agent 50)
              else match FEEDS inherited feedType with
                   | NoProperty | NullValue => None
                   | FeedUri uri => Some (feedPage agent (ArgUri uri) 50)
                   | InheritedValue key =>
                       Some (feedPage agent (ArgValue key) 50)
                   end in
            match fetched with
            | None => Failure 400 "Unknown feed"
            | Some None => Failure 500 "Failed to fetch feed"
            | Some (Some items) => Posts (map toPost items)
            end
        end
      else Failure 500 "Missing Bluesky credentials"
  | _, _ => Failure 500 "Missing Bluesky credentials"
  end.

(** The item as the digest route reads it. *)
Definition forgetRecord (r : RawRecord) : ViewRecord :=
  {| vr_type := rr_type r; vr_author_handle := rr_handle r;
     vr_value_text := rr_text r |}.

Definition forget (item : RawItem) : FeedItem :=
  {| item_uri := ri_uri item;
     item_author := ri_author item;
     item_embed :=
       match ri_embed item with
       | Some e => Some {| embed_type := re_type e;
                           embed_record := forgetRecord <$> re_record e;
                           embed_record_record :=
                             forgetRecord <$> re_record_record e |}
       | None => None
       end;
     item_text := ri_text item;
     item_createdAt := ri_createdAt item;
     item_likeCount := ri_likeCount item;
     item_repostCount := ri_repostCount item;
     item_replyCount := ri_replyCount item |}.

(** The part of a quoted post that both routes keep. *)
Definition forgetQuoted (q : Quoted) : QuotedPost :=
  {| quoted_handle := q_handle q; quoted_text := q_text q |}.

End FeedRoute.

(** ** The streaming digest and the page that shows a digest *)

(** [uri.split("/").pop()]: what follows the last slash. *)
Fixpoint lastSegmentFrom (segment : string) (s : string) : string :=
  match s with
  | EmptyString => segment
  | String c rest =>
      if Ascii.eqb c "/" then lastSegmentFrom "" rest
      else lastSegmentFrom (segment ++ String c "") rest
  end.

Definition lastSegment (s : string) : string := lastSegmentFrom "" s.

(** The link of a post in the prompt of the streaming digest. *)
Definition postUrl (post : Post) : string :=
  let postId := lastSegment (uri post) in
  "https://bsky.app/profile/" ++ handle (author post) ++ "/post/" ++ postId.

(** The string has no slash. *)
Fixpoint slashFree (s : string) : bool :=
  match s with
  | EmptyString => true
  | String c rest => negb (Ascii.eqb c "/") && slashFree rest
  end.

(** [n !== 1 ? "s" : ""] *)
Definition plural (n : Z) : string := if n =? 1 then "" else "s".

(** [formatRelativeTime] of the digest page, at the time [now];
    [toLocaleDateString] is the built-in of that name, which prints
    ["Invalid Date"] for an invalid date. *)
Definition formatRelativeTime `{!JsBuiltins} (toLocaleDateString : Z -> string)
    (now : Z) (dateString : string) : string :=
  match Date_parse dateString with
  | None => "Invalid Date"
  | Some date =>
      let diffMs := now - date in
      let diffMins := diffMs / (1000 * 60) in
      let diffHours := diffMs / (1000 * 60 * 60) in
      let diffDays := diffMs / (1000 * 60 * 60 * 24) in
      if diffMins <? 60
      then showNumber diffMins ++ " minute" ++ plural diffMins ++ " ago"
      else if diffHours <? 24
      then showNumber diffHours ++ " hour" ++ plural diffHours ++ " ago"
      else if diffDays <? 7
      then showNumber diffDays ++ " day" ++ plural diffDays ++ " ago"
      else toLocaleDateString date
  end.

(** ** Sample data *)

Module Samples.

(** The built-ins with the parser of the UTC form and a keyword test that
    matches nothing. *)
Definition builtins : JsBuiltins :=
  {| Date_parse := JsDate.parse_utc;
     Date_parse_empty := eq_refl;
     keyword_test := fun _ => false |}.

Definition alice : Author :=
  {| handle := "alice.test"; displayName := Some "Alice"; avatar := None |}.

Definition mkPost (id : string) (created : string) (likes reposts replies : Z)
    : Post :=
  {| uri := "at://did:plc:alice/app.bsky.feed.post/" ++ id;
     author := alice; text := "post " ++ id; createdAt := created;
     likeCount := likes; repostCount := reposts; replyCount := replies;
     quotedPost := None |}.

Definition p1 : Post := mkPost "1" "2024-11-02T10:00:00.000Z" 50 3 2.
Definition p2 : Post := mkPost "2" "2024-11-02T11:00:00.000Z" 20 9 1.
Definition p3 : Post := mkPost "3" "2024-11-02T12:00:00.000Z" 20 1 3.
Definition p4 : Post := mkPost "4" "" 7 0 0.
Definition p5 : Post := mkPost "5" "2024-11-01T09:00:00.000Z" 1 0 1.

Definition ranked5 : list Post := [p1; p2; p3; p4; p5].

(** Two posts with the score of [p4] (7): seven likes, and one like with
    four replies. *)
Definition tie1 : Post := mkPost "t1" "2024-11-02T13:00:00.000Z" 7 0 0.
Definition tie2 : Post := mkPost "t2" "2024-11-02T14:00:00.000Z" 1 0 4.

(** Two posts at the edge of the doubles: [2^52] likes, and one like less
    with one reply, whose exact sum [2^52 + 1/2] is no double. *)
Definition large1 : Post :=
  mkPost "l1" "2024-11-02T15:00:00.000Z" 4503599627370496 0 0.
Definition large2 : Post :=
  mkPost "l2" "2024-11-02T16:00:00.000Z" 4503599627370495 0 1.

(** Two notable entries of the model that name the same post, and one
    that names no post. *)
Definition third : Notable := {| postIndex := 3; reason := "first mention" |}.
Definition thirdAgain : Notable :=
  {| postIndex := 3; reason := "second mention" |}.
Definition beyond : Notable := {| postIndex := 999; reason := "missing" |}.

(** Midnight before [2024-11-02]: the cutoff of the sample runs. *)
Definition cutoff : Z := 1730505600000.

Definition mkItem (id : string) (created : string) : FeedItem :=
  {| item_uri := "at://did:plc:alice/app.bsky.feed.post/" ++ id;
     item_author := alice; item_embed := None;
     item_text := Some ("post " ++ id); item_createdAt := Some created;
     item_likeCount := Some 1; item_repostCount := None;
     item_replyCount := None |}.

Definition newItem (id : string) : FeedItem :=
  mkItem id "2024-11-02T12:00:00.000Z".
Definition oldItem (id : string) : FeedItem :=
  mkItem id "2024-10-30T08:30:00.000Z".

(** An upstream that serves the given pages in order: the cursor after
    page [k] is the string of [k + 1] letters, and the last page has none. *)
Definition cursorOf (k : nat) : string :=
  string_of_list_ascii (replicate k "c"%char).

Definition serve (pages : list (list FeedItem)) (limit : nat)
    (cursor0 : option string) : option Page :=
  let k := match cursor0 with
           | Some s => String.length s
           | None => O
           end in
  Some {| feed := take limit (default [] (pages !! k));
          cursor := if (S k <? length pages)%nat
                    then Some (cursorOf (S k)) else None |}.

Definition agentOf (timeline externalFeed : list (list FeedItem)) : Agent :=
  {| getTimeline := serve timeline;
     getFeed := fun _ => serve externalFeed;
     getProfile := fun _ => Some "did:plc:feedowner" |}.

(** 25 old posts in one page, and nothing after it. *)
Definition twentyFiveOld : Agent :=
  agentOf [replicate 25 (oldItem "o")] [].

(** [new, new, old x 20, new] in one page. *)
Definition mixed : Agent :=
  agentOf [([newItem "a"; newItem "b"] ++ replicate 20 (oldItem "o")
            ++ [newItem "c"])%list] [].

(** The same posts with the page cut after the twentieth old post. *)
Definition mixedCut : Agent :=
  agentOf [([newItem "a"; newItem "b"] ++ replicate 20 (oldItem "o"))%list;
           [newItem "c"]] [].

(** The 25 old posts cut into pages of 10, 10 and 5. *)
Definition twentyFiveOldCut : Agent :=
  agentOf [replicate 10 (oldItem "o"); replicate 10 (oldItem "o");
           replicate 5 (oldItem "o")] [].

(** Twelve full pages of recent posts. *)
Definition busy : Agent :=
  agentOf (replicate 12 (replicate 100 (newItem "n"))) [].

(** An external feed with ten old posts on its first page and a recent post
    on the second. *)
Definition tenOldThenNew : Agent :=
  agentOf [] [replicate 10 (oldItem "o"); [newItem "late"]].

(** A digest, a request without parameters, and a world in which
    everything works: the request arrives on 2024-11-02 at 11:00 UTC. *)
Definition record : Digest :=
  {| overview := "A quiet day.";
     notablePosts := [ {| entry_post := Some (notableOf p1);
                          entry_reason := "most liked" |} ];
     trendingTopics := ["weather"];
     meta := {| totalPosts := 5; postsAnalyzed := 5;
                newestPostDate := Some "2024-11-02T12:00:00.000Z";
                oldestPostDate := Some "2024-11-01T09:00:00.000Z";
                generatedAt := "2024-11-02T09:00:00.000Z";
                digestType := general;
                keywordMatches := None; feedPostCount := None |} |}.

Definition plain : Request :=
  {| param_refresh := None; param_type := None |}.

Definition answer : DigestData :=
  {| data_overview := "Three recent posts.";
     data_notablePosts := [third; beyond];
     data_trendingTopics := ["testing"] |}.

Definition world : World :=
  {| now_request := 1730545200000;
     now_done := 1730545205000;
     kv_get_throws := false;
     kv_set_throws := false;
     ANTHROPIC_API_KEY := Some "sk-test";
     bsky_session := Some "did:plc:alice";
     restore := fun _ => Some (Some mixed);
     complete := fun _ _ => Some answer |}.

End Samples.

(** ** Sample data for the further properties *)

Module MoreSamples.

(** What the sample request generates on an empty store. *)
Definition generated : option (Response * Store) :=
  GET (H := Samples.builtins) Samples.world ∅ Samples.plain.

Definition generatedResponse : Response :=
  match generated with
  | Some (response, _) => response
  | None => {| status := 500; body := ErrorBody "no answer" false;
               deletesSession := false |}
  end.

Definition generatedStore : Store :=
  match generated with
  | Some (_, kv) => kv
  | None => ∅
  end.

Definition generatedDigest : Digest :=
  match body generatedResponse with
  | DigestBody d _ _ => d
  | ErrorBody _ _ => Samples.record
  end.

(** A second request, later on the same day. *)
Definition later : World :=
  {| now_request := 1730588400000;
     now_done := 1730588405000;
     kv_get_throws := false;
     kv_set_throws := false;
     ANTHROPIC_API_KEY := None;
     bsky_session := None;
     restore := fun _ => None;
     complete := fun _ _ => None |}.

(** The property names every object inherits from [Object.prototype]. *)
Definition inherits (key : string) : bool :=
  bool_decide (key ∈ ["constructor"; "__defineGetter__"; "__defineSetter__";
                      "hasOwnProperty"; "__lookupGetter__"; "__lookupSetter__";
                      "isPrototypeOf"; "propertyIsEnumerable"; "toString";
                      "valueOf"; "__proto__"; "toLocaleString"]).

Definition rawItem : FeedRoute.RawItem :=
  {| FeedRoute.ri_uri := "at://did:plc:alice/app.bsky.feed.post/3kabc";
     FeedRoute.ri_cid := "bafy-1";
     FeedRoute.ri_author := Samples.alice;
     FeedRoute.ri_embed :=
       Some {| FeedRoute.re_type := Some "app.bsky.embed.record#view";
               FeedRoute.re_record :=
                 Some {| FeedRoute.rr_type :=
                           Some "app.bsky.embed.record#viewRecord";
                         FeedRoute.rr_uri :=
                           Some "at://did:plc:bob/app.bsky.feed.post/3kxyz";
                         FeedRoute.rr_handle := Some "bob.test";
                         FeedRoute.rr_displayName := None;
                         FeedRoute.rr_avatar := None;
                         FeedRoute.rr_text := Some "the quoted text" |};
               FeedRoute.re_record_record := None |};
     FeedRoute.ri_text := Some "look at this";
     FeedRoute.ri_createdAt := None;
     FeedRoute.ri_likeCount := Some 4;
     FeedRoute.ri_repostCount := None;
     FeedRoute.ri_replyCount := None |}.

(** An environment whose login succeeds; the upstream rejects a [feed] that
    is not a string. *)
Definition feedEnv : FeedRoute.Env :=
  {| FeedRoute.BLUESKY_HANDLE := Some "alice.test";
     FeedRoute.BLUESKY_APP_PASSWORD := Some "app-password";
     FeedRoute.login := fun _ _ =>
       Some {| FeedRoute.timelinePage := fun _ => Some [rawItem];
               FeedRoute.feedPage := fun arg _ =>
                 match arg with
                 | FeedRoute.ArgUri _ => Some []
                 | FeedRoute.ArgValue _ => None
                 end |} |}.

End MoreSamples.

(** * Properties *)

Set Warnings "-clear-no-such-hyp".

(** ** De-duplication *)

Section Dedup.

Lemma dedupFrom_elem (seen : gset string) (posts : list Post) (p : Post) :
  p ∈ dedupFrom seen posts ↔
  ∃ before after, posts = (before ++ p :: after)%list
                  ∧ (uri p ∉ seen) ∧ (uri p ∉ map uri before).
Proof.
  revert seen. induction posts as [|q rest IH]; intros seen; simpl.
  - split; [by intros ?%elem_of_nil|].
    intros (before & after & E & _). by destruct before.
  - destruct (decide (uri q ∈ seen)) as [Hin|Hnin].
    + rewrite IH. split.
      * intros (before & after & -> & Hs & Hb).
        exists (q :: before), after. split_and!; [done|done|].
        simpl. rewrite not_elem_of_cons. split; [congruence|done].
      * intros (before & after & E & Hs & Hb).
        destruct before as [|b before]; simplify_eq/=; [done|].
        apply not_elem_of_cons in Hb as [_ Hb]. eauto.
    + rewrite elem_of_cons, IH. split.
      * intros [->|(before & after & -> & Hs & Hb)].
        { exists [], rest. split_and!; [done|done|]. simpl. apply not_elem_of_nil. }
        exists (q :: before), after. split_and!; [done|set_solver|].
        simpl. rewrite not_elem_of_cons. split; [set_solver|done].
      * intros (before & after & E & Hs & Hb).
        destruct before as [|b before]; simplify_eq/=; [by left|].
        apply not_elem_of_cons in Hb as [Hne Hb]. right.
        exists before, after. split_and!; [done|set_solver|done].
Qed.

Lemma dedupFrom_uri_fresh (seen : gset string) (posts : list Post) (u : string) :
  u ∈ map uri (dedupFrom seen posts) → u ∉ seen.
Proof.
  rewrite list_elem_of_fmap. intros (p & -> & Hp).
  apply dedupFrom_elem in Hp. naive_solver.
Qed.

Lemma dedupFrom_NoDup (seen : gset string) (posts : list Post) :
  NoDup (map uri (dedupFrom seen posts)).
Proof.
  revert seen. induction posts as [|q rest IH]; intros seen; simpl.
  - constructor.
  - destruct (decide (uri q ∈ seen)); [apply IH|].
    simpl. constructor; [|apply IH].
    intros Hin%dedupFrom_uri_fresh. set_solver.
Qed.

Lemma dedupFrom_sublist (seen : gset string) (posts : list Post) :
  sublist (dedupFrom seen posts) posts.
Proof.
  revert seen. induction posts as [|q rest IH]; intros seen; simpl.
  - constructor.
  - destruct (decide (uri q ∈ seen)).
    + by apply sublist_cons.
    + by apply sublist_skip.
Qed.

Lemma dedupFrom_filter (seen : gset string) (posts : list Post) :
  dedupFrom seen posts = filter (fun q => uri q ∉ seen) (dedupFrom ∅ posts).
Proof.
  revert seen. induction posts as [|q rest IH]; intros seen; simpl; [done|].
  destruct (decide (uri q ∈ ∅)) as [Hempty|_]; [set_solver|].
  rewrite filter_cons.
  destruct (decide (uri q ∈ seen)) as [Hin|Hnin].
  - rewrite decide_False by tauto.
    rewrite (IH ({[uri q]} ∪ ∅)), (IH seen).
    rewrite list_filter_filter. apply list_filter_iff.
    intros x. set_unfold. split; [|tauto]. intros Hx. split; [done|].
    intros [E|[]]. by rewrite E in Hx.
  - rewrite decide_True by done. f_equal.
    rewrite (IH ({[uri q]} ∪ ∅)), (IH ({[uri q]} ∪ seen)).
    rewrite list_filter_filter. apply list_filter_iff.
    intros x. set_unfold. tauto.
Qed.

Lemma dedup_firstOccurrences (posts : list Post) :
  dedup posts = firstOccurrences posts.
Proof.
  unfold dedup. induction posts as [|q rest IH]; simpl; [done|].
  rewrite decide_False by set_solver. f_equal.
  rewrite dedupFrom_filter, IH. apply list_filter_iff.
  intros x. set_unfold. tauto.
Qed.

(** C6: de-duplication by [uri] leaves no two posts with the same [uri];
    the posts it keeps are exactly the first occurrences of their [uri] in
    the input, and they stay in the order of the input. *)
Theorem dedup_unique_first_in_order (posts : list Post) :
  NoDup (map uri (dedup posts))
  ∧ (∀ p, p ∈ dedup posts ↔
          ∃ before after, posts = (before ++ p :: after)%list
                          ∧ uri p ∉ (map uri before))
  ∧ sublist (dedup posts) posts
  ∧ dedup posts = firstOccurrences posts.
Proof.
  split_and!.
  - apply dedupFrom_NoDup.
  - intros p. unfold dedup. rewrite dedupFrom_elem.
    split; intros (before & after & H); exists before, after; set_solver.
  - apply dedupFrom_sublist.
  - apply dedup_firstOccurrences.
Qed.

End Dedup.

(** ** Mapping the model's answer *)

Section Mapping.

Lemma at_index_inRange (postsForDigest : list Post) (notable : Notable) :
  inRange postsForDigest notable →
  ∃ p, postsForDigest !! Z.to_nat (postIndex notable - 1) = Some p
       ∧ at_index postsForDigest (postIndex notable - 1) = Some p.
Proof.
  intros [Hlo Hhi]. unfold at_index.
  destruct (Z.ltb_spec (postIndex notable - 1) 0) as [Hneg|_]; [lia|].
  destruct (lookup_lt_is_Some_2 postsForDigest
              (Z.to_nat (postIndex notable - 1))) as [p Hp]; [lia|].
  exists p. by rewrite Hp.
Qed.

Lemma at_index_outside (postsForDigest : list Post) (notable : Notable) :
  ¬ inRange postsForDigest notable →
  at_index postsForDigest (postIndex notable - 1) = None.
Proof.
  intros Hout. unfold at_index, inRange in *.
  destruct (Z.ltb_spec (postIndex notable - 1) 0) as [Hneg|Hpos]; [done|].
  apply lookup_ge_None_2. lia.
Qed.

Lemma notableEntry_is_Some (postsForDigest : list Post) (notable : Notable) :
  is_Some (entry_post (notableEntry postsForDigest notable))
  ↔ inRange postsForDigest notable.
Proof.
  unfold notableEntry. simpl. split.
  - intros Hsome. destruct (decide (inRange postsForDigest notable)) as [|Hout];
      [done|].
    rewrite (at_index_outside _ _ Hout) in Hsome. by destruct Hsome.
  - intros (p & _ & ->)%at_index_inRange. eauto.
Qed.

(** The example of the specification: of the indices 3 and 999 against five
    ranked posts, only the third post comes out. *)
Example notable_three_and_999 :
  notablePostsWithData Samples.ranked5 [Samples.third; Samples.beyond]
  = [ {| entry_post := Some (notableOf Samples.p3);
         entry_reason := "first mention" |} ].
Proof. reflexivity. Qed.

(** C1, as stated, fails: an index the model returns twice gives two entries
    for the same ranked post. *)
Lemma notable_duplicate_index_kept :
  notablePostsWithData Samples.ranked5 [Samples.third; Samples.thirdAgain]
  = [ {| entry_post := Some (notableOf Samples.p3);
         entry_reason := "first mention" |};
      {| entry_post := Some (notableOf Samples.p3);
         entry_reason := "second mention" |} ]
  ∧ ¬ NoDup (map entry_post
               (notablePostsWithData Samples.ranked5
                  [Samples.third; Samples.thirdAgain])).
Proof.
  split; [reflexivity|].
  intros Hnd. apply NoDup_cons in Hnd as [Hnotin _].
  apply Hnotin. left.
Qed.

(** C1, amended: every returned index in the range 1..length of the ranked
    list is mapped to the ranked post at that 1-based position, one entry
    per returned index and in the order of the answer; every index outside
    the range is dropped; no entry of the output has a null post. *)
Theorem notable_mapping (postsForDigest : list Post)
    (notablePosts0 : list Notable) :
  notablePostsWithData postsForDigest notablePosts0
  = map (notableEntry postsForDigest)
      (filter (inRange postsForDigest) notablePosts0)
  ∧ (∀ notable, inRange postsForDigest notable →
       ∃ p, postsForDigest !! Z.to_nat (postIndex notable - 1) = Some p
            ∧ notableEntry postsForDigest notable
              = {| entry_post := Some (notableOf p);
                   entry_reason := reason notable |})
  ∧ (∀ notable, ¬ inRange postsForDigest notable →
       entry_post (notableEntry postsForDigest notable) = None)
  ∧ Forall (fun e => entry_post e ≠ None)
      (notablePostsWithData postsForDigest notablePosts0).
Proof.
  split_and!.
  - unfold notablePostsWithData.
    induction notablePosts0 as [|n ns IH]; [done|].
    simpl. rewrite !filter_cons, IH.
    destruct (decide (inRange postsForDigest n)) as [Hin|Hout].
    + rewrite decide_True by (by apply notableEntry_is_Some). done.
    + rewrite decide_False; [done|]. by rewrite notableEntry_is_Some.
  - intros notable (p & Hp & Hat)%at_index_inRange.
    exists p. split; [done|]. unfold notableEntry. by rewrite Hat.
  - intros notable Hout%at_index_outside.
    unfold notableEntry. simpl. by rewrite Hout.
  - unfold notablePostsWithData. apply Forall_forall.
    intros e [Hsome _]%list_elem_of_filter.
    destruct Hsome as [v Hv]. by rewrite Hv.
Qed.

End Mapping.

(** ** Engagement ranking *)

Section Ranking.

Lemma sort_insert_perm {A : Type} (cmp : A → A → Q) (x : A) (l : list A) :
  sort_insert cmp x l ≡ₚ x :: l.
Proof.
  induction l as [|y l IH]; simpl; [done|].
  destruct (Qle_bool (cmp x y) 0); [done|].
  rewrite IH. apply Permutation_swap.
Qed.

Lemma sort_perm {A : Type} (cmp : A → A → Q) (l : list A) :
  sort cmp l ≡ₚ l.
Proof.
  induction l as [|x l IH]; simpl; [done|].
  unfold sort in *. simpl. by rewrite sort_insert_perm, IH.
Qed.

Lemma byEngagement_le (a b : Post) :
  Qle_bool (byEngagement a b) 0 = true ↔ scoreGe a b.
Proof.
  unfold byEngagement, scoreGe. rewrite Qle_bool_iff.
  set (sa := calculateEngagementScore a). set (sb := calculateEngagementScore b).
  split; intros H.
  - apply (Qplus_le_l _ _ (- sa)%Q). rewrite Qplus_opp_r. exact H.
  - apply (Qplus_le_l _ _ (- sa)%Q) in H. rewrite Qplus_opp_r in H. exact H.
Qed.

Lemma scoreGe_total (a b : Post) : scoreGe a b ∨ scoreGe b a.
Proof.
  unfold scoreGe.
  destruct (Qlt_le_dec (calculateEngagementScore a) (calculateEngagementScore b))
    as [Hlt|Hle]; [right; by apply Qlt_le_weak|by left].
Qed.

Lemma sort_insert_HdRel (x y : Post) (l : list Post) :
  scoreGe y x → HdRel scoreGe y l → HdRel scoreGe y (sort_insert byEngagement x l).
Proof.
  intros Hyx Hhd. destruct l as [|z l]; simpl; [by constructor|].
  destruct (Qle_bool (byEngagement x z) 0); constructor; [done|].
  by inversion Hhd.
Qed.

Lemma sort_insert_Sorted (x : Post) (l : list Post) :
  Sorted scoreGe l → Sorted scoreGe (sort_insert byEngagement x l).
Proof.
  induction 1 as [|y l Hsorted IH Hhd]; simpl.
  - repeat constructor.
  - destruct (Qle_bool (byEngagement x y) 0) eqn:Hcmp.
    + constructor; [by constructor|]. constructor. by apply byEngagement_le.
    + constructor; [done|]. apply sort_insert_HdRel; [|done].
      destruct (scoreGe_total x y) as [Hxy|Hyx]; [|done].
      apply byEngagement_le in Hxy. congruence.
Qed.

Lemma sort_Sorted (posts : list Post) : Sorted scoreGe (sort byEngagement posts).
Proof.
  induction posts as [|p posts IH]; [constructor|].
  unfold sort in *. simpl. by apply sort_insert_Sorted.
Qed.

Lemma Sorted_take {A : Type} (R : A → A → Prop) (n : nat) (l : list A) :
  Sorted R l → Sorted R (take n l).
Proof.
  intros Hs. revert n. induction Hs as [|x l Hs IH Hhd]; intros [|n]; simpl;
    try constructor; [apply IH|].
  destruct Hhd as [|y l' Hxy]; destruct n; simpl; by constructor.
Qed.

Lemma Sorted_elem_impl {A : Type} (R R' : A → A → Prop) (l : list A) :
  (∀ a b, a ∈ l → b ∈ l → R a b → R' a b) → Sorted R l → Sorted R' l.
Proof.
  intros Himpl Hs. induction Hs as [|x l Hs IH Hhd]; [constructor|].
  constructor.
  - apply IH. intros a b Ha Hb. apply Himpl; by right.
  - destruct Hhd as [|y l' Hxy]; constructor.
    apply Himpl; [by left|right; by left|done].
Qed.

(** Up to 53 bits nothing is rounded. *)
Lemma roundDouble_exact (m : Z) : Z.abs m < 2 ^ 53 → roundDouble m = m.
Proof.
  intros Hm. unfold roundDouble.
  assert (Hlog : Z.log2 (Z.abs m) - 52 <= 0).
  { destruct (Z.eq_dec (Z.abs m) 0) as [->|Hne]; [done|].
    assert (Z.log2 (Z.abs m) < 53); [|lia].
    apply Z.log2_lt_pow2; lia. }
  destruct (Z.leb_spec (Z.log2 (Z.abs m) - 52) 0); [done|lia].
Qed.

(** [roundDouble] rounds to the nearest number with a significand of 53 bits:
    the result is a multiple [k * 2^e] of the unit in the last place of [m]
    with [k] of at most 53 bits, it is at most half a unit away from [m], and
    when it is exactly half a unit away [k] is even. *)
Lemma roundDouble_nearest (m : Z) :
  let e := Z.max 0 (Z.log2 (Z.abs m) - 52) in
  ∃ k, roundDouble m = k * 2 ^ e
       ∧ Z.abs k <= 2 ^ 53
       ∧ 2 * Z.abs (k * 2 ^ e - m) <= 2 ^ e
       ∧ (2 * Z.abs (k * 2 ^ e - m) = 2 ^ e → Z.even k = true).
Proof.
  unfold roundDouble.
  destruct (Z.leb_spec (Z.log2 (Z.abs m) - 52) 0) as [Hle|Hgt].
  - rewrite Z.max_l by done. exists m.
    assert (Z.abs m < 2 ^ 53).
    { destruct (Z.eq_dec (Z.abs m) 0) as [->|Hne]; [done|].
      apply Z.log2_lt_pow2; lia. }
    change (2 ^ 0) with 1. split_and!; lia.
  - rewrite Z.max_r by lia. cbv zeta.
    assert (Hpos : 0 < Z.abs m).
    { destruct (Z.eq_dec (Z.abs m) 0) as [Heq|Hne]; [|lia].
      rewrite Heq in Hgt. simpl in Hgt. lia. }
    pose proof (Z.log2_spec (Z.abs m) Hpos) as [_ Hup].
    replace (Z.succ (Z.log2 (Z.abs m)))
      with ((Z.log2 (Z.abs m) - 52) + 53) in Hup by lia.
    rewrite Z.pow_add_r in Hup by lia.
    set (ulp := 2 ^ (Z.log2 (Z.abs m) - 52)) in *.
    assert (Hulp : 0 < ulp) by (apply Z.pow_pos_nonneg; lia).
    pose proof (Z.div_mod m ulp ltac:(lia)) as Hdiv.
    pose proof (Z.mod_pos_bound m ulp Hulp) as Hmod.
    set (q := m / ulp) in *. set (r := m mod ulp) in *.
    assert (H53 : 2 ^ 53 = 9007199254740992) by reflexivity.
    rewrite H53 in *.
    assert (Hq : -9007199254740992 <= q < 9007199254740992) by nia.
    destruct (Z.ltb_spec (2 * r) ulp); [|destruct (Z.ltb_spec ulp (2 * r));
      [|destruct (Z.even q) eqn:Heven]].
    + exists q. split_and!; [done|lia|nia|nia].
    + exists (q + 1). split_and!; [done|lia|nia|nia].
    + exists q. split_and!; [done|lia|nia|done].
    + exists (q + 1). split_and!; [done|lia|nia|].
      intros _. rewrite Z.even_add, Heven. done.
Qed.

Lemma roundDouble_error (m k : Z) :
  0 <= k → Z.abs m < 2 ^ (53 + k) → 2 * Z.abs (roundDouble m - m) <= 2 ^ k.
Proof.
  intros Hk Hm.
  destruct (roundDouble_nearest m) as (j & -> & _ & Herr & _).
  assert (Hle : Z.max 0 (Z.log2 (Z.abs m) - 52) <= k).
  { destruct (Z.eq_dec (Z.abs m) 0) as [->|Hne]; [simpl; lia|].
    assert (Z.log2 (Z.abs m) < 53 + k); [|lia].
    apply Z.log2_lt_pow2; lia. }
  pose proof (Z.pow_le_mono_r 2 _ _ ltac:(lia) Hle). lia.
Qed.

(** Beyond 53 bits the nearest double is taken, and of two equally near
    the one whose significand is even: [2^53 + 1] lies between [2^53] and
    [2^53 + 2] and goes to [2^53], [2^53 + 3] goes to [2^53 + 4]; the same
    below zero. *)
Example roundDouble_sample :
  roundDouble 9007199254740993 = 9007199254740992
  ∧ roundDouble 9007199254740995 = 9007199254740996
  ∧ roundDouble 9007199254740994 = 9007199254740994
  ∧ roundDouble 18014398509481986 = 18014398509481984
  ∧ roundDouble 18014398509481987 = 18014398509481988
  ∧ roundDouble (-9007199254740993) = -9007199254740992
  ∧ roundDouble (-9007199254740995) = -9007199254740996.
Proof. vm_compute. done. Qed.

Lemma calculateEngagementScore_exact (p : Post) :
  exactCounts p → (calculateEngagementScore p == specScore p)%Q.
Proof.
  unfold exactCounts, calculateEngagementScore, specScore.
  change (2 ^ 49) with 562949953421312.
  intros (Hl & Hr & Hp).
  assert (H53 : 2 ^ 53 = 9007199254740992) by reflexivity.
  rewrite (roundDouble_exact (2 * (repostCount p * 2))) by lia.
  rewrite (roundDouble_exact (replyCount p * 3)) by lia.
  rewrite (roundDouble_exact (2 * likeCount p + _)) by lia.
  rewrite roundDouble_exact by lia.
  unfold Qeq, Qplus, Qmult, inject_Z. simpl. lia.
Qed.

(** With counts that are safe integers the four roundings of the score move
    it by at most 8. *)
Lemma calculateEngagementScore_near (p : Post) :
  safeCounts p →
  (specScore p - 8 <= calculateEngagementScore p
   ∧ calculateEngagementScore p <= specScore p + 8)%Q.
Proof.
  unfold safeCounts, safeInteger, calculateEngagementScore, specScore.
  change (2 ^ 53 - 1) with 9007199254740991.
  intros (Hl & Hr & Hp).
  assert (H1 : 2 * Z.abs (roundDouble (2 * (repostCount p * 2))
                          - 2 * (repostCount p * 2)) <= 4).
  { apply (roundDouble_error _ 2); [lia|].
    change (2 ^ (53 + 2)) with 36028797018963968. lia. }
  assert (H2 : 2 * Z.abs (roundDouble (replyCount p * 3)
                          - replyCount p * 3) <= 4).
  { apply (roundDouble_error _ 2); [lia|].
    change (2 ^ (53 + 2)) with 36028797018963968. lia. }
  set (reposts := roundDouble (2 * (repostCount p * 2))) in *.
  set (replies := roundDouble (replyCount p * 3)) in *.
  clearbody reposts replies.
  assert (H3 : 2 * Z.abs (roundDouble (2 * likeCount p + reposts)
                          - (2 * likeCount p + reposts)) <= 8).
  { apply (roundDouble_error _ 3); [lia|].
    change (2 ^ (53 + 3)) with 72057594037927936. clear H2. lia. }
  set (sum := roundDouble (2 * likeCount p + reposts)) in *.
  clearbody sum.
  assert (H4 : 2 * Z.abs (roundDouble (sum + replies) - (sum + replies))
               <= 16).
  { apply (roundDouble_error _ 4); [lia|].
    change (2 ^ (53 + 4)) with 144115188075855872. lia. }
  set (total := roundDouble (sum + replies)) in *.
  clearbody total.
  unfold Qle, Qplus, Qminus, Qopp, Qmult, inject_Z. simpl. lia.
Qed.

Lemma rankPosts_elem (posts : list Post) (p : Post) :
  p ∈ rankPosts posts → p ∈ posts.
Proof.
  unfold rankPosts. intros Hp.
  apply list_elem_of_lookup_1 in Hp as [i Hi].
  apply lookup_take_Some in Hi as [Hi _].
  apply list_elem_of_lookup_2 in Hi.
  by rewrite (sort_perm byEngagement posts) in Hi.
Qed.

(** C5, amended: the score is the sum [likeCount + 2 * repostCount + 1.5 *
    replyCount] computed in doubles.  It is exactly that sum for every post
    whose counts are at most [2^49] in absolute value, and within 8 of it for
    every post whose counts are safe integers.  For such posts the ranked
    output is the first 150 posts of the input sorted by non-increasing
    computed score: the computed scores of consecutive elements do not
    increase, there are at most 150 of them, and when all counts are at most
    [2^49] the exact scores do not increase either. *)
Theorem ranking_by_score (posts : list Post) :
  Forall safeCounts posts →
  (∀ p, exactCounts p → (calculateEngagementScore p == specScore p)%Q)
  ∧ (∀ p, p ∈ posts →
          (specScore p - 8 <= calculateEngagementScore p
           ∧ calculateEngagementScore p <= specScore p + 8)%Q)
  ∧ Sorted scoreGe (rankPosts posts)
  ∧ (length (rankPosts posts) ≤ 150)%nat
  ∧ length (rankPosts posts) = (length posts `min` 150)%nat
  ∧ (∃ sorted, sorted ≡ₚ posts ∧ Sorted scoreGe sorted
               ∧ rankPosts posts = take 150 sorted)
  ∧ (Forall exactCounts posts → Sorted specScoreGe (rankPosts posts)).
Proof.
  intros Hsafe. rewrite Forall_forall in Hsafe.
  assert (Hlen : length (rankPosts posts) = (length posts `min` 150)%nat).
  { unfold rankPosts.
    rewrite length_take, (Permutation_length (sort_perm byEngagement posts)).
    lia. }
  assert (Hsorted : Sorted scoreGe (rankPosts posts)).
  { apply Sorted_take, sort_Sorted. }
  split_and!.
  - apply calculateEngagementScore_exact.
  - intros p Hp. by apply calculateEngagementScore_near, Hsafe.
  - done.
  - lia.
  - done.
  - exists (sort byEngagement posts).
    split_and!; [apply sort_perm|apply sort_Sorted|done].
  - intros Hexact. rewrite Forall_forall in Hexact.
    eapply Sorted_elem_impl; [|exact Hsorted].
    intros a b Ha%rankPosts_elem Hb%rankPosts_elem. unfold scoreGe, specScoreGe.
    by rewrite !calculateEngagementScore_exact by auto.
Qed.

(** C5, as stated, fails where the doubles round: a post with [2^52 - 1] likes
    and one reply has the exact score [2^52 + 1/2], which is no double: its
    computed score is [2^52], the score of a post with [2^52] likes.  The sort
    sees a tie and leaves the two as they came, so the exact scores of the
    ranked output increase. *)
Lemma ranking_rounds_large_counts :
  safeCounts Samples.large1 ∧ safeCounts Samples.large2
  ∧ ¬ (calculateEngagementScore Samples.large2 == specScore Samples.large2)%Q
  ∧ (calculateEngagementScore Samples.large2
     == calculateEngagementScore Samples.large1)%Q
  ∧ rankPosts [Samples.large1; Samples.large2]
    = [Samples.large1; Samples.large2]
  ∧ (specScore Samples.large1 < specScore Samples.large2)%Q
  ∧ ¬ Sorted specScoreGe (rankPosts [Samples.large1; Samples.large2]).
Proof.
  assert (Hrank : rankPosts [Samples.large1; Samples.large2]
                  = [Samples.large1; Samples.large2])
    by (vm_compute; reflexivity).
  split_and!.
  - unfold safeCounts, safeInteger. simpl. lia.
  - unfold safeCounts, safeInteger. simpl. lia.
  - vm_compute. discriminate.
  - vm_compute. reflexivity.
  - exact Hrank.
  - vm_compute. reflexivity.
  - rewrite Hrank. intros Hs.
    apply Sorted_inv in Hs as [_ Hhd]. apply HdRel_inv in Hhd.
    revert Hhd. vm_compute. intros Hle. by apply Hle.
Qed.

End Ranking.

(** ** Pagination *)

Section Pagination.
Context `{!JsBuiltins}.
Local Open Scope nat_scope.

Lemma scanPage_cons (cutoff : Z) (st : Scan) (item : FeedItem)
    (items : list FeedItem) :
  scanPage cutoff st (item :: items)
  = scanPage cutoff (scanItem cutoff st item) items.
Proof. reflexivity. Qed.

Lemma scanPage_app (cutoff : Z) (st : Scan) (items1 items2 : list FeedItem) :
  scanPage cutoff st (items1 ++ items2)
  = scanPage cutoff (scanPage cutoff st items1) items2.
Proof. unfold scanPage. apply foldl_app. Qed.

Lemma scanItem_old (cutoff : Z) (st : Scan) (item : FeedItem) :
  isOld cutoff (extractPost item) = true →
  scanItem cutoff st item
  = {| allPosts := allPosts st; oldPostCount := S (oldPostCount st) |}.
Proof. intros Hold. unfold scanItem. by rewrite Hold. Qed.

Lemma scanItem_recent (cutoff : Z) (st : Scan) (item : FeedItem) :
  isOld cutoff (extractPost item) = false →
  scanItem cutoff st item
  = {| allPosts := allPosts st ++ [extractPost item]; oldPostCount := 0 |}.
Proof. intros Hnew. unfold scanItem. by rewrite Hnew. Qed.

Lemma scanPage_all_old (cutoff : Z) (st : Scan) (items : list FeedItem) :
  Forall (fun item => isOld cutoff (extractPost item) = true) items →
  scanPage cutoff st items
  = {| allPosts := allPosts st;
       oldPostCount := oldPostCount st + length items |}.
Proof.
  intros Hall. revert st.
  induction Hall as [|item items Hold _ IH]; intros st.
  - simpl. destruct st. simpl. f_equal. lia.
  - rewrite scanPage_cons, IH, (scanItem_old _ _ _ Hold). simpl.
    f_equal. lia.
Qed.

(** A page either holds old posts only, and then adds its length to the
    counter, or makes the retained list longer. *)
Lemma scanPage_progress (cutoff : Z) (st : Scan) (items : list FeedItem) :
  (allPosts (scanPage cutoff st items) = allPosts st
   ∧ oldPostCount (scanPage cutoff st items) = oldPostCount st + length items)
  ∨ length (allPosts st) < length (allPosts (scanPage cutoff st items)).
Proof.
  revert st. induction items as [|item items IH]; intros st.
  - left. simpl. split; [done|lia].
  - rewrite scanPage_cons.
    destruct (isOld cutoff (extractPost item)) eqn:Hold.
    + rewrite (scanItem_old _ _ _ Hold).
      destruct (IH {| allPosts := allPosts st;
                      oldPostCount := S (oldPostCount st) |})
        as [[Hsame Hcount]|Hlonger]; simpl in *.
      * left. rewrite Hsame, Hcount. split; [done|lia].
      * by right.
    + rewrite (scanItem_recent _ _ _ Hold). right.
      destruct (IH {| allPosts := allPosts st ++ [extractPost item];
                      oldPostCount := 0 |})
        as [[Hsame _]|Hlonger]; simpl in *.
      * rewrite Hsame, length_app. simpl. lia.
      * rewrite length_app in Hlonger. simpl in Hlonger. lia.
Qed.

Lemma scanPage_length_le (cutoff : Z) (st : Scan) (items : list FeedItem) :
  length (allPosts (scanPage cutoff st items))
  ≤ length (allPosts st) + length items.
Proof.
  revert st. induction items as [|item items IH]; intros st; [simpl; lia|].
  rewrite scanPage_cons. etransitivity; [apply IH|].
  unfold scanItem. destruct (isOld cutoff (extractPost item)); simpl;
    [lia|]. rewrite length_app. simpl. lia.
Qed.

(** *** Both loops are the policy loop at their own constants *)

Lemma Timeline_loop_paginate (fuel : nat) (agent : Agent) (cutoff : Z)
    (cursor0 : option string) (st : Scan) :
  Timeline.loop fuel agent cutoff cursor0 st
  = paginate collectorPolicy (getTimeline agent) fuel cutoff cursor0 st.
Proof.
  revert cursor0 st. induction fuel as [|fuel IH]; intros cursor0 st;
    [done|].
  simpl. destruct (getTimeline agent 100 cursor0) as [page|]; [|done].
  destruct (feed page); [done|]. by rewrite IH.
Qed.

Lemma AIFeed_loop_paginate (fuel : nat) (agent : Agent) (feedUri : string)
    (cutoff : Z) (cursor0 : option string) (st : Scan) :
  AIFeed.loop fuel agent feedUri cutoff cursor0 st
  = paginate {| pageSize := 100; stopThreshold := 10; hardCap := 500 |}
      (getFeed agent feedUri) fuel cutoff cursor0 st.
Proof.
  revert cursor0 st. induction fuel as [|fuel IH]; intros cursor0 st;
    [done|].
  simpl. destruct (getFeed agent feedUri 100 cursor0) as [page|]; [|done].
  destruct (feed page); [done|]. by rewrite IH.
Qed.

(** *** Termination *)

Lemma paginate_terminates (policy : Policy)
    (fetch : nat → option string → option Page) (cutoff : Z) (fuel : nat)
    (cursor0 : option string) (st : Scan) :
  remaining policy st < fuel →
  paginate policy fetch fuel cutoff cursor0 st ≠ OutOfFuel.
Proof.
  revert cursor0 st. induction fuel as [|fuel IH]; intros cursor0 st Hfuel;
    [lia|].
  simpl. destruct (fetch (pageSize policy) cursor0) as [page|]; [|done].
  destruct (feed page) as [|item items] eqn:Hfeed; [done|].
  set (st' := scanPage cutoff st (item :: items)).
  destruct (_ || _ || _) eqn:Hstop; [done|].
  apply IH.
  apply orb_false_iff in Hstop as [Hstop Hcap].
  apply orb_false_iff in Hstop as [Hold _].
  apply Nat.leb_gt in Hold. apply Nat.ltb_ge in Hcap.
  unfold remaining in *.
  destruct (scanPage_progress cutoff st (item :: items))
    as [[Hsame Hcount]|Hlonger]; fold st' in Hsame, Hcount || fold st' in Hlonger.
  - rewrite Hsame. simpl in Hcount. lia.
  - assert (S (stopThreshold policy)
              * (S (hardCap policy) - length (allPosts st'))
            + S (stopThreshold policy)
            ≤ S (stopThreshold policy)
              * (S (hardCap policy) - length (allPosts st))) by nia.
    lia.
Qed.

Lemma Timeline_collect_terminates (agent : Agent) (cutoff : Z) :
  Timeline.collect agent cutoff ≠ OutOfFuel.
Proof.
  unfold Timeline.collect. rewrite Timeline_loop_paginate.
  apply paginate_terminates. unfold remaining, Timeline.fuel. simpl. lia.
Qed.

Lemma Timeline_collect_step (agent : Agent) (cutoff : Z) (page : Page) :
  getTimeline agent 100 None = Some page →
  hasCursor (cursor page) = false →
  Timeline.collect agent cutoff
  = Exited (scanPage cutoff Timeline.start (feed page)).
Proof.
  intros Hpage Hcursor. unfold Timeline.collect, Timeline.fuel.
  change (21 * 1001 + 21) with (S (21 * 1001 + 20)).
  cbn [Timeline.loop]. rewrite Hpage, Hcursor.
  destruct (feed page); [done|].
  by rewrite orb_true_r.
Qed.

(** C3, as stated, fails: 25 old posts served in one page are all counted
    before the threshold is looked at, so the counter is 25 at exit. *)
Lemma collect_25_old_counts_25 :
  @Timeline.collect Samples.builtins Samples.twentyFiveOld Samples.cutoff
  = Exited {| allPosts := []; oldPostCount := 25 |}
  ∧ ∀ st, @Timeline.collect Samples.builtins Samples.twentyFiveOld
            Samples.cutoff = Exited st →
          oldPostCount st ≠ 20 ∧ allPosts st = [].
Proof.
  assert (Hrun : @Timeline.collect Samples.builtins Samples.twentyFiveOld
                   Samples.cutoff
                 = Exited {| allPosts := []; oldPostCount := 25 |})
    by (vm_compute; reflexivity).
  split; [exact Hrun|].
  intros st Hst. rewrite Hrun in Hst. injection Hst as <-. simpl.
  split; [lia|done].
Qed.

(** C3, amended: for a feed of 25 consecutive posts older than the cutoff,
    served in one page, the Timeline Collector processes the whole page (the
    stop threshold is looked at between pages only), leaves the loop with the
    counter at 25, and the retained post list at exit is empty. *)
Theorem collect_old_page (agent : Agent) (cutoff : Z) (page : Page) :
  getTimeline agent 100 None = Some page →
  length (feed page) = 25 →
  allOld cutoff (feed page) →
  Timeline.collect agent cutoff
  = Exited {| allPosts := []; oldPostCount := 25 |}.
Proof.
  intros Hpage Hlen Hold. unfold Timeline.collect, Timeline.fuel.
  change (21 * 1001 + 21) with (S (21 * 1001 + 20)).
  cbn [Timeline.loop]. rewrite Hpage.
  destruct (feed page) as [|item items] eqn:Hfeed; [done|].
  rewrite (scanPage_all_old _ _ _ Hold), Hlen. done.
Qed.

(** C4, amended: for a feed [new, new, old x 20, new] served in one page,
    the counter stands at the threshold after the run of old posts, the
    collector goes on to the trailing post all the same, because the
    threshold is looked at between pages only, sets the counter back to zero
    there and retains the post. *)
Theorem collect_mixed_page (agent : Agent) (cutoff : Z) (page : Page)
    (new1 new2 new3 : FeedItem) (olds : list FeedItem) :
  getTimeline agent 100 None = Some page →
  feed page = ([new1; new2] ++ olds ++ [new3])%list →
  hasCursor (cursor page) = false →
  isOld cutoff (extractPost new1) = false →
  isOld cutoff (extractPost new2) = false →
  isOld cutoff (extractPost new3) = false →
  length olds = 20 →
  allOld cutoff olds →
  oldPostCount (scanPage cutoff Timeline.start ([new1; new2] ++ olds))
  = Timeline.MAX_OLD_POSTS
  ∧ Timeline.collect agent cutoff
    = Exited {| allPosts := [extractPost new1; extractPost new2;
                             extractPost new3];
                oldPostCount := 0 |}.
Proof.
  intros Hpage Hfeed Hcursor H1 H2 H3 Hlen Hold.
  assert (Hrun : scanPage cutoff Timeline.start ([new1; new2] ++ olds)
                 = {| allPosts := [extractPost new1; extractPost new2];
                      oldPostCount := 20 |}).
  { change ([new1; new2] ++ olds)%list with (new1 :: new2 :: olds).
    rewrite !scanPage_cons.
    rewrite (scanItem_recent _ _ _ H1), (scanItem_recent _ _ _ H2).
    rewrite (scanPage_all_old _ _ _ Hold), Hlen. done. }
  split; [by rewrite Hrun|].
  rewrite (Timeline_collect_step _ _ _ Hpage Hcursor), Hfeed.
  rewrite (app_assoc [new1; new2] olds [new3]), scanPage_app, Hrun.
  by rewrite scanPage_cons, (scanItem_recent _ _ _ H3).
Qed.

(** C4, as stated, fails: the feed [new, new, old x 20, new] can reach the
    collector in two pages, the first of which ends with the twentieth old
    post.  The check between the pages then finds the counter at the
    threshold and ends the loop: the second page is never asked for, the
    trailing post is not retained and the counter stays at 20. *)
Lemma collect_mixed_cut :
  getTimeline Samples.mixedCut 100 None
  = Some {| feed := ([Samples.newItem "a"; Samples.newItem "b"]
                     ++ replicate 20 (Samples.oldItem "o"))%list;
            cursor := Some "c" |}
  ∧ getTimeline Samples.mixedCut 100 (Some "c")
    = Some {| feed := [Samples.newItem "c"]; cursor := None |}
  ∧ @isOld Samples.builtins Samples.cutoff (extractPost (Samples.newItem "c"))
    = false
  ∧ @Timeline.collect Samples.builtins Samples.mixedCut Samples.cutoff
    = Exited {| allPosts := [extractPost (Samples.newItem "a");
                             extractPost (Samples.newItem "b")];
                oldPostCount := 20 |}
  ∧ ∀ st, @Timeline.collect Samples.builtins Samples.mixedCut Samples.cutoff
          = Exited st →
          (extractPost (Samples.newItem "c") ∉ allPosts st)
          ∧ oldPostCount st ≠ 0%nat.
Proof.
  assert (Hrun : @Timeline.collect Samples.builtins Samples.mixedCut
                   Samples.cutoff
                 = Exited {| allPosts := [extractPost (Samples.newItem "a");
                                          extractPost (Samples.newItem "b")];
                             oldPostCount := 20 |})
    by (vm_compute; reflexivity).
  split_and!; [vm_compute; reflexivity..|exact Hrun|].
  intros st Hst. rewrite Hrun in Hst. injection Hst as <-. simpl.
  split; [|done].
  rewrite !not_elem_of_cons. split_and!; [| |apply not_elem_of_nil].
  - vm_compute. discriminate.
  - vm_compute. discriminate.
Qed.

(** Cut into pages of 10, 10 and 5, the same 25 posts end the loop after
    the second page, with the counter at 20 and the third page not fetched. *)
Example collect_25_old_cut :
  @Timeline.collect Samples.builtins Samples.twentyFiveOldCut Samples.cutoff
  = Exited {| allPosts := []; oldPostCount := 20 |}.
Proof. vm_compute. reflexivity. Qed.

(** Whatever the paging, an upstream that serves old posts only leaves the
    retained list empty. *)
Lemma Timeline_loop_all_old (agent : Agent) (cutoff : Z) (fuel : nat)
    (cursor0 : option string) (st : Scan) :
  (∀ c page, getTimeline agent 100 c = Some page → allOld cutoff (feed page)) →
  allPosts st = [] →
  match Timeline.loop fuel agent cutoff cursor0 st with
  | OutOfFuel => True
  | Threw st' | Exited st' => allPosts st' = []
  end.
Proof.
  intros Hold. revert cursor0 st.
  induction fuel as [|fuel IH]; intros cursor0 st Hst; [done|].
  cbn [Timeline.loop].
  destruct (getTimeline agent 100 cursor0) as [page|] eqn:Hpage; [|done].
  pose proof (Hold _ _ Hpage) as Hpage_old.
  destruct (feed page) as [|item items] eqn:Hfeed; [done|].
  rewrite (scanPage_all_old _ _ _ Hpage_old).
  destruct (_ || _ || _); [done|]. by apply IH.
Qed.

Lemma Timeline_collect_all_old (agent : Agent) (cutoff : Z) :
  (∀ c page, getTimeline agent 100 c = Some page → allOld cutoff (feed page)) →
  ∃ st, (Timeline.collect agent cutoff = Exited st
         ∨ Timeline.collect agent cutoff = Threw st)
        ∧ allPosts st = [].
Proof.
  intros Hold.
  pose proof (Timeline_collect_terminates agent cutoff) as Hterm.
  pose proof (Timeline_loop_all_old agent cutoff Timeline.fuel None
                Timeline.start Hold eq_refl) as Hempty.
  unfold Timeline.collect in *.
  destruct (Timeline.loop _ _ _ _ _) as [|st|st]; [done|..]; eauto.
Qed.

(** *** The hard cap *)

Lemma Timeline_loop_bound (agent : Agent) (cutoff : Z) (fuel : nat)
    (cursor0 : option string) (st : Scan) :
  honoursLimit agent →
  length (allPosts st) ≤ 1000 →
  match Timeline.loop fuel agent cutoff cursor0 st with
  | OutOfFuel => True
  | Threw st' => length (allPosts st') ≤ 1000
  | Exited st' => length (allPosts st') ≤ 1100
  end.
Proof.
  intros Hlimit. revert cursor0 st.
  induction fuel as [|fuel IH]; intros cursor0 st Hst; [done|].
  cbn [Timeline.loop].
  destruct (getTimeline agent 100 cursor0) as [page|] eqn:Hpage; [|done].
  destruct (feed page) as [|item items] eqn:Hfeed; [lia|].
  pose proof (scanPage_length_le cutoff st (item :: items)) as Hle.
  pose proof (Hlimit _ _ Hpage) as Hsize. rewrite Hfeed in Hsize.
  destruct (_ || _ || _) eqn:Hstop; [lia|].
  apply IH.
  apply orb_false_iff in Hstop as [_ Hcap]. by apply Nat.ltb_ge in Hcap.
Qed.

(** C10: the stop conditions are looked at once per page, after every item
    of the page went through the loop body.  With pages of at most 100 items
    the loop always comes to an end, the retained list holds at most 1100
    posts when it does, and a page that takes the list over 1000 posts is
    the last one fetched. *)
Theorem collect_cap_overshoot (agent : Agent) (cutoff : Z) :
  honoursLimit agent →
  match Timeline.collect agent cutoff with
  | OutOfFuel => False
  | Threw st => length (allPosts st) ≤ 1000
  | Exited st => length (allPosts st) ≤ 1100
  end
  ∧ ∀ fuel cursor0 st page,
      getTimeline agent 100 cursor0 = Some page →
      1000 < length (allPosts (scanPage cutoff st (feed page))) →
      Timeline.loop (S fuel) agent cutoff cursor0 st
      = Exited (scanPage cutoff st (feed page)).
Proof.
  intros Hlimit. split.
  - pose proof (Timeline_collect_terminates agent cutoff) as Hterm.
    pose proof (Timeline_loop_bound agent cutoff Timeline.fuel None
                  Timeline.start Hlimit) as Hbound.
    unfold Timeline.collect in *.
    destruct (Timeline.loop _ _ _ _ _); [done|apply Hbound|apply Hbound];
      simpl; lia.
  - intros fuel cursor0 st page Hpage Hover.
    cbn [Timeline.loop]. rewrite Hpage.
    destruct (feed page) as [|item items] eqn:Hfeed; [done|].
    apply Nat.ltb_lt in Hover. by rewrite Hover, orb_true_r.
Qed.

(** The bound of C10 is reached: full pages of recent posts stop the loop at
    exactly 1100 retained posts. *)
Example collect_busy_1100 :
  match @Timeline.collect Samples.builtins Samples.busy Samples.cutoff with
  | Exited st => length (allPosts st) = 1100
  | _ => False
  end.
Proof. vm_compute. reflexivity. Qed.

Lemma serve_honours_limit (timeline externalFeed : list (list FeedItem)) :
  honoursLimit (Samples.agentOf timeline externalFeed).
Proof.
  intros cursor0 page [= <-]. simpl. rewrite length_take. lia.
Qed.

(** *** The external feeds *)

(** C2, as stated, fails: on an external feed whose first page ends a run of
    ten old posts, the Topic Filter stops, where the policy with the
    collector's threshold of 20 goes on to the next page. *)
Lemma feed_threshold_is_not_20 :
  @fetchAIFeedPosts Samples.builtins Samples.tenOldThenNew Samples.cutoff
  = Some []
  ∧ @paginate Samples.builtins topicFilterPolicy
      (getFeed Samples.tenOldThenNew
         "at://did:plc:feedowner/app.bsky.feed.generator/MLBlend")
      AIFeed.fuel Samples.cutoff None Timeline.start
    = Exited {| allPosts := [extractPost (Samples.newItem "late")];
                oldPostCount := 0 |}
  ∧ @AIFeed.loop Samples.builtins AIFeed.fuel Samples.tenOldThenNew
      "at://did:plc:feedowner/app.bsky.feed.generator/MLBlend"
      Samples.cutoff None Timeline.start
    ≠ @paginate Samples.builtins topicFilterPolicy
        (getFeed Samples.tenOldThenNew
           "at://did:plc:feedowner/app.bsky.feed.generator/MLBlend")
        AIFeed.fuel Samples.cutoff None Timeline.start.
Proof.
  split_and!; [vm_compute; reflexivity..|].
  vm_compute. discriminate.
Qed.

(** C2, amended: the Topic Filter paginates every external feed with the
    page size of the Timeline Collector (100), with half its stop threshold
    (10 instead of 20) and with half its hard cap (500 instead of 1000). *)
Theorem feed_pagination_policy (fuel : nat) (agent : Agent)
    (feedUri : string) (cutoff : Z) (cursor0 : option string) (st : Scan) :
  AIFeed.loop fuel agent feedUri cutoff cursor0 st
  = paginate {| pageSize := pageSize collectorPolicy;
                stopThreshold := stopThreshold collectorPolicy / 2;
                hardCap := hardCap collectorPolicy / 2 |}
      (getFeed agent feedUri) fuel cutoff cursor0 st
  ∧ Timeline.loop fuel agent cutoff cursor0 st
    = paginate collectorPolicy (getTimeline agent) fuel cutoff cursor0 st
  ∧ collectorPolicy
    = {| pageSize := 100; stopThreshold := 20; hardCap := 1000 |}.
Proof.
  split_and!; [apply AIFeed_loop_paginate|apply Timeline_loop_paginate|done].
Qed.

End Pagination.

(** ** Posts without a timestamp *)

Section DateRange.
Context `{!JsBuiltins}.

Lemma truthy_spec (s : string) : truthy s = true ↔ s ≠ "".
Proof.
  unfold truthy. by destruct (String.eqb_spec s ""); simpl; split.
Qed.

Lemma postsWithDates_elem (posts : list Post) (p : Post) :
  p ∈ postsWithDates posts ↔ p ∈ posts ∧ createdAt p ≠ "".
Proof.
  unfold postsWithDates. rewrite !list_elem_of_In, filter_In.
  by rewrite truthy_spec.
Qed.

Lemma postsWithDates_idemp (posts : list Post) :
  postsWithDates (postsWithDates posts) = postsWithDates posts.
Proof.
  unfold postsWithDates. induction posts as [|p posts IH]; [done|].
  simpl. destruct (truthy (createdAt p)) eqn:Hp; [|done].
  simpl. by rewrite Hp, IH.
Qed.

Lemma postsWithDates_none (posts : list Post) :
  Forall (fun p => createdAt p = "") posts → postsWithDates posts = [].
Proof.
  unfold postsWithDates. induction 1 as [|p posts Hp _ IH]; [done|].
  simpl. by rewrite Hp, IH.
Qed.

Lemma foldl_choice {A : Type} (f : A → A → A) (l : list A) (x : A) :
  (∀ a b, f a b = a ∨ f a b = b) →
  foldl f x l = x ∨ foldl f x l ∈ l.
Proof.
  intros Hf. revert x. induction l as [|y l IH]; intros x; [by left|].
  simpl. rewrite elem_of_cons. destruct (IH (f x y)) as [->|Hin].
  - destruct (Hf x y) as [->| ->]; auto.
  - auto.
Qed.

Lemma reduce_choice {A : Type} (f : A → A → A) (l : list A) (r : A) :
  (∀ a b, f a b = a ∨ f a b = b) → reduce f l = Some r → r ∈ l.
Proof.
  intros Hf. destruct l as [|x l]; [done|]. intros [= <-].
  rewrite elem_of_cons. destruct (foldl_choice f l x Hf); auto.
Qed.

Lemma oldestPost_elem (posts : list Post) (p : Post) :
  oldestPost posts = Some p → p ∈ posts ∧ createdAt p ≠ "".
Proof.
  intros Hp. apply postsWithDates_elem.
  eapply reduce_choice; [|exact Hp].
  intros a b. simpl. destruct dateBefore; auto.
Qed.

Lemma newestPost_elem (posts : list Post) (p : Post) :
  newestPost posts = Some p → p ∈ posts ∧ createdAt p ≠ "".
Proof.
  intros Hp. apply postsWithDates_elem.
  eapply reduce_choice; [|exact Hp].
  intros a b. simpl. destruct dateBefore; auto.
Qed.

(** With valid dates throughout, the fold keeps the earliest time value. *)
Lemma foldl_oldest (l : list Post) (x : Post) (t : Z) :
  timeOf x = Some t →
  Forall (fun q => is_Some (timeOf q)) l →
  ∃ t', timeOf (foldl (fun oldest post =>
                         if dateBefore (createdAt post) (createdAt oldest)
                         then post else oldest) x l) = Some t'
        ∧ (t' <= t)%Z
        ∧ Forall (fun q => ∃ tq, timeOf q = Some tq ∧ (t' <= tq)%Z) l.
Proof.
  intros Hx Hall. revert x t Hx.
  induction Hall as [|y l [ty Hy] _ IH]; intros x t Hx.
  - exists t. simpl. split_and!; [done|lia|constructor].
  - simpl. unfold dateBefore at 2. unfold timeOf in Hx, Hy. rewrite Hy, Hx.
    destruct (Z.ltb_spec ty t) as [Hlt|Hge].
    + destruct (IH y ty Hy) as (t' & Ht' & Hle & Hrest).
      exists t'. split_and!; [done|lia|].
      constructor; [exists ty; split; [done|lia]|done].
    + destruct (IH x t Hx) as (t' & Ht' & Hle & Hrest).
      exists t'. split_and!; [done|lia|].
      constructor; [exists ty; split; [done|lia]|done].
Qed.

Lemma foldl_newest (l : list Post) (x : Post) (t : Z) :
  timeOf x = Some t →
  Forall (fun q => is_Some (timeOf q)) l →
  ∃ t', timeOf (foldl (fun newest post =>
                         if dateBefore (createdAt newest) (createdAt post)
                         then post else newest) x l) = Some t'
        ∧ (t <= t')%Z
        ∧ Forall (fun q => ∃ tq, timeOf q = Some tq ∧ (tq <= t')%Z) l.
Proof.
  intros Hx Hall. revert x t Hx.
  induction Hall as [|y l [ty Hy] _ IH]; intros x t Hx.
  - exists t. simpl. split_and!; [done|lia|constructor].
  - simpl. unfold dateBefore at 2. unfold timeOf in Hx, Hy. rewrite Hy, Hx.
    destruct (Z.ltb_spec t ty) as [Hlt|Hge].
    + destruct (IH y ty Hy) as (t' & Ht' & Hle & Hrest).
      exists t'. split_and!; [done|lia|].
      constructor; [exists ty; split; [done|lia]|done].
    + destruct (IH x t Hx) as (t' & Ht' & Hle & Hrest).
      exists t'. split_and!; [done|lia|].
      constructor; [exists ty; split; [done|lia]|done].
Qed.

Lemma postsWithDates_skip (before after : list Post) (p : Post) :
  createdAt p = "" →
  postsWithDates (before ++ p :: after) = postsWithDates (before ++ after).
Proof.
  intros Hp. unfold postsWithDates.
  rewrite !List.filter_app. simpl. by rewrite Hp.
Qed.

Lemma postsWithDates_nil (posts : list Post) :
  postsWithDates posts = [] ↔ Forall (fun p => createdAt p = "") posts.
Proof.
  split; [|apply postsWithDates_none].
  intros Hnil. apply Forall_forall. intros p Hp.
  destruct (decide (createdAt p = "")) as [|Hne]; [done|].
  assert (Hin : p ∈ postsWithDates posts) by by apply postsWithDates_elem.
  rewrite Hnil in Hin. by apply elem_of_nil in Hin.
Qed.

Lemma reduce_None {A : Type} (f : A → A → A) (l : list A) :
  reduce f l = None ↔ l = [].
Proof. by destruct l. Qed.

(** C9: a post whose [createdAt] is the empty string has no age: the cutoff
    never counts it as old, so the collector keeps it whatever the cutoff.
    [oldest] and [newest] are found among the posts with a non-empty
    [createdAt] alone: a post without one changes neither, wherever it
    stands in the list, and is never the answer; both are null exactly when
    no post of the list has a timestamp; and when the timestamps are valid
    dates, [oldest] and [newest] hold the earliest and the latest time value
    of all posts that have one. *)
Theorem posts_without_timestamp :
  (∀ item, item_createdAt item = None → createdAt (extractPost item) = "")
  ∧ (∀ cutoff post, createdAt post = "" → isOld cutoff post = false)
  ∧ (∀ cutoff st item,
       createdAt (extractPost item) = "" →
       scanItem cutoff st item
       = {| allPosts := allPosts st ++ [extractPost item];
            oldPostCount := 0 |})
  ∧ (∀ before after p,
       createdAt p = "" →
       oldestPost (before ++ p :: after) = oldestPost (before ++ after)
       ∧ newestPost (before ++ p :: after) = newestPost (before ++ after))
  ∧ (∀ posts p,
       oldestPost posts = Some p ∨ newestPost posts = Some p →
       p ∈ posts ∧ createdAt p ≠ "")
  ∧ (∀ posts,
       (oldestPost posts = None ↔ Forall (fun p => createdAt p = "") posts)
       ∧ (newestPost posts = None
          ↔ Forall (fun p => createdAt p = "") posts))
  ∧ (∀ posts,
       (∀ q, q ∈ posts → createdAt q ≠ "" → is_Some (timeOf q)) →
       (∃ q, q ∈ posts ∧ createdAt q ≠ "") →
       ∃ o n to tn,
         oldestPost posts = Some o ∧ newestPost posts = Some n
         ∧ timeOf o = Some to ∧ timeOf n = Some tn
         ∧ ∀ q, q ∈ posts → createdAt q ≠ "" →
                ∃ tq, timeOf q = Some tq ∧ (to <= tq <= tn)%Z).
Proof.
  split_and!.
  - intros item Hnone. unfold extractPost. simpl. by rewrite Hnone.
  - intros cutoff post Hempty. unfold isOld.
    by rewrite Hempty, Date_parse_empty.
  - intros cutoff st item Hempty. apply scanItem_recent.
    unfold isOld. by rewrite Hempty, Date_parse_empty.
  - intros before after p Hp. unfold oldestPost, newestPost.
    by rewrite (postsWithDates_skip _ _ _ Hp).
  - intros posts p [Hp|Hp];
      [by apply oldestPost_elem|by apply newestPost_elem].
  - intros posts. unfold oldestPost, newestPost.
    by rewrite !reduce_None, postsWithDates_nil.
  - intros posts Hvalid (q0 & Hq0 & Hdated). unfold oldestPost, newestPost.
    assert (Hall : Forall (fun q => is_Some (timeOf q)) (postsWithDates posts)).
    { apply Forall_forall. intros q [Hq Hne]%postsWithDates_elem. auto. }
    assert (Hin : q0 ∈ postsWithDates posts) by by apply postsWithDates_elem.
    assert (Hrange : ∀ q, q ∈ posts → createdAt q ≠ "" →
                          q ∈ postsWithDates posts).
    { intros q Hq Hne. by apply postsWithDates_elem. }
    destruct (postsWithDates posts) as [|x l]; [by apply elem_of_nil in Hin|].
    apply Forall_cons in Hall as [[t Hx] Hall].
    destruct (foldl_oldest l x t Hx Hall) as (to & Ho & Hto & Hallo).
    destruct (foldl_newest l x t Hx Hall) as (tn & Hn & Htn & Halln).
    simpl. eexists _, _, to, tn. split_and!; [done|done|done|done|].
    intros q Hq Hne. specialize (Hrange q Hq Hne).
    apply elem_of_cons in Hrange as [->|Hql].
    + exists t. split; [done|lia].
    + rewrite Forall_forall in Hallo, Halln.
      destruct (Hallo q Hql) as (tq & Hq1 & Hq2).
      destruct (Halln q Hql) as (tq' & Hq1' & Hq2').
      exists tq. split; [done|]. rewrite Hq1 in Hq1'. injection Hq1' as <-.
      lia.
Qed.

End DateRange.



(** ** The cache and the handler *)

Section Cache.
Context `{!JsBuiltins}.

Lemma fetchOneFeed_total (agent : Agent) (cutoff : Z) (posts : list Post)
    (feed0 : FeedRef) :
  is_Some (fetchOneFeed agent cutoff posts feed0).
Proof.
  unfold fetchOneFeed. destruct (getProfile agent _) as [did|]; [|by eexists].
  rewrite AIFeed_loop_paginate.
  match goal with
  | |- context [paginate ?policy ?fetch ?fuel ?c ?cur ?st] =>
      pose proof (paginate_terminates policy fetch c fuel cur st) as Hterm
  end.
  destruct (paginate _ _ _ _ _ _); [|by eexists..].
  exfalso. apply Hterm; [|done].
  unfold remaining, AIFeed.fuel. simpl. lia.
Qed.

Lemma fetchFeeds_total (agent : Agent) (cutoff : Z) (feeds : list FeedRef) :
  is_Some (fetchFeeds agent cutoff feeds).
Proof.
  unfold fetchFeeds. generalize (@nil Post).
  induction feeds as [|feed0 feeds IH]; intros posts; [by eexists|].
  simpl. destruct (fetchOneFeed_total agent cutoff posts feed0) as [posts' ->].
  apply IH.
Qed.

Lemma generate_total (w : World) (kv : Store) (type : DigestType)
    (agent : Agent) :
  is_Some (generate w kv type agent).
Proof.
  unfold generate, failed.
  pose proof (Timeline_collect_terminates agent
                (now_request w - 24 * 60 * 60 * 1000)) as Hterm.
  destruct (Timeline.collect _ _) as [| |st]; [done|by eexists|].
  destruct type.
  - destruct (complete w _ _); by eexists.
  - unfold fetchAIFeedPosts.
    destruct (fetchFeeds_total agent (now_request w - 24 * 60 * 60 * 1000)
                AI_FEEDS) as [aiFeedPosts ->].
    destruct (complete w _ _); by eexists.
Qed.

(** The handler answers every request. *)
Lemma GET_total (w : World) (kv : Store) (request : Request) :
  is_Some (GET w kv request).
Proof.
  unfold GET, failed.
  destruct (if refreshOf request then _ else _); [by eexists|].
  destruct (negb _); [by eexists|].
  destruct (bsky_session w) as [sessionDid|]; [|by eexists].
  destruct (truthy sessionDid); [|by eexists].
  destruct (restore w sessionDid) as [[agent|]|]; [|by eexists..].
  apply generate_total.
Qed.

Lemma getCacheKey_same_day (type : DigestType) (t1 t2 : Z) :
  t1 / JsDate.msPerDay = t2 / JsDate.msPerDay →
  getCacheKey type t1 = getCacheKey type t2.
Proof.
  intros Hday. unfold getCacheKey, JsDate.today, JsDate.isoDatePart.
  by rewrite Hday.
Qed.

(** C7: a record written for a type is read back unchanged by a [get] for
    the same type on the same UTC calendar date, and the response served
    from that hit carries the record, the type and [cached: true]. *)
Theorem cache_round_trip (w : World) (kv : Store) (request : Request)
    (type : DigestType) (record : Digest) (tset : Z) :
  tset / JsDate.msPerDay = now_request w / JsDate.msPerDay →
  kv_get_throws w = false →
  refreshOf request = false →
  digestTypeOf request = type →
  getCache false (setCache false kv tset type record) (now_request w) type
  = Some {| digest := record; date := JsDate.today tset |}
  ∧ GET w (setCache false kv tset type record) request
    = Some ({| status := 200; body := DigestBody record (Some type) true;
               deletesSession := false |},
            setCache false kv tset type record).
Proof.
  intros Hday Hget Hrefresh Htype.
  assert (Hhit : getCache false (setCache false kv tset type record)
                   (now_request w) type
                 = Some {| digest := record; date := JsDate.today tset |}).
  { unfold getCache, setCache, kv_get, kv_set.
    rewrite <- (getCacheKey_same_day type tset (now_request w) Hday).
    rewrite lookup_insert_eq.
    destruct (Z.ltb_spec (now_request w) (tset + 86400 * 1000)) as [|Hlate];
      [done|].
    unfold JsDate.msPerDay in Hday. Z.div_mod_to_equations. lia. }
  split; [exact Hhit|].
  unfold GET. by rewrite Hrefresh, Htype, Hget, Hhit.
Qed.

Ltac world_simpl :=
  cbn [withGetThrows withSetThrows kv_get_throws kv_set_throws
       ANTHROPIC_API_KEY bsky_session restore now_request getCache].

(** [generate] reads the clock, the model and the write flag of the world,
    and nothing else of it. *)
Lemma generate_same (w1 w2 : World) (kv : Store) (type : DigestType)
    (agent : Agent) :
  now_request w1 = now_request w2 → now_done w1 = now_done w2 →
  complete w1 = complete w2 → kv_set_throws w1 = kv_set_throws w2 →
  generate w1 kv type agent = generate w2 kv type agent.
Proof. unfold generate. by intros -> -> -> ->. Qed.

Lemma generate_same_response (w1 w2 : World) (kv : Store)
    (type : DigestType) (agent : Agent) :
  now_request w1 = now_request w2 → now_done w1 = now_done w2 →
  complete w1 = complete w2 →
  fst <$> generate w1 kv type agent = fst <$> generate w2 kv type agent.
Proof.
  unfold generate, failed. intros -> -> ->.
  destruct (Timeline.collect _ _); [done..|].
  destruct (match type with general => _ | ai => _ end) as [[[? ?] ?]|];
    [|done].
  by destruct (complete w2 _ _).
Qed.

Lemma generate_store_unchanged (w : World) (kv kv' : Store)
    (type : DigestType) (agent : Agent) (response : Response) :
  kv_set_throws w = true →
  generate w kv type agent = Some (response, kv') → kv' = kv.
Proof.
  unfold generate, failed, setCache. intros ->.
  destruct (Timeline.collect _ _); [done|congruence|].
  destruct (match type with general => _ | ai => _ end) as [[[? ?] ?]|];
    [|done].
  destruct (complete w _ _); congruence.
Qed.

(** C8: a failure of the store never reaches the caller.  A read that fails
    gives null, and the request is then answered exactly as on a cache miss
    (and as with [refresh=true]): generation goes ahead.  A write that fails
    leaves the store as it was, and the response is the one of a request
    whose write went through. *)
Theorem cache_failures_swallowed (w : World) (kv : Store)
    (request : Request) :
  (∀ now type, getCache true kv now type = None)
  ∧ GET (withGetThrows true w) kv request
    = GET (withGetThrows false w) kv (refreshing request)
  ∧ (getCache false kv (now_request w) (digestTypeOf request) = None →
     GET (withGetThrows true w) kv request
     = GET (withGetThrows false w) kv request)
  ∧ (∀ now type digest0, setCache true kv now type digest0 = kv)
  ∧ fst <$> GET (withSetThrows true w) kv request
    = fst <$> GET (withSetThrows false w) kv request
  ∧ (∃ response, GET (withSetThrows true w) kv request = Some (response, kv)).
Proof.
  split_and!.
  - done.
  - unfold GET. world_simpl.
    replace (refreshOf (refreshing request)) with true by done.
    change (digestTypeOf (refreshing request)) with (digestTypeOf request).
    destruct (refreshOf request);
      (destruct (negb _); [done|];
       destruct (bsky_session w) as [sessionDid|]; [|done];
       destruct (truthy sessionDid); [|done];
       destruct (restore w sessionDid) as [[agent|]|]; [|done..];
       by apply generate_same).
  - intros Hmiss. cbn [getCache] in Hmiss. unfold GET. world_simpl.
    rewrite Hmiss.
    destruct (refreshOf request);
      (destruct (negb _); [done|];
       destruct (bsky_session w) as [sessionDid|]; [|done];
       destruct (truthy sessionDid); [|done];
       destruct (restore w sessionDid) as [[agent|]|]; [|done..];
       by apply generate_same).
  - done.
  - unfold GET. world_simpl.
    destruct (if refreshOf request then _ else _); [done|].
    destruct (negb _); [done|].
    destruct (bsky_session w) as [sessionDid|]; [|done].
    destruct (truthy sessionDid); [|done].
    destruct (restore w sessionDid) as [[agent|]|]; [|done..].
    by apply generate_same_response.
  - destruct (GET_total (withSetThrows true w) kv request)
      as [[response kv'] Hget].
    exists response. rewrite Hget. do 2 f_equal.
    revert Hget. unfold GET, failed. world_simpl.
    destruct (if refreshOf request then _ else _); [congruence|].
    destruct (negb _); [congruence|].
    destruct (bsky_session w) as [sessionDid|]; [|congruence].
    destruct (truthy sessionDid); [|congruence].
    destruct (restore w sessionDid) as [[agent|]|]; [|congruence..].
    by apply generate_store_unchanged.
Qed.

End Cache.

(** ** The theorems at the sample data *)

Section Instances.

Example rankPosts_sample :
  rankPosts [Samples.p5; Samples.p3; Samples.p1; Samples.p4; Samples.p2]
  = [Samples.p1; Samples.p2; Samples.p3; Samples.p4; Samples.p5].
Proof. vm_compute. reflexivity. Qed.

(** Posts of equal score keep the order of the input. *)
Example rankPosts_ties :
  rankPosts [Samples.tie2; Samples.p5; Samples.p4; Samples.tie1]
  = [Samples.tie2; Samples.p4; Samples.tie1; Samples.p5].
Proof. vm_compute. reflexivity. Qed.

(** [p4] has no timestamp and takes no part in the date range. *)
Example date_range_sample :
  @oldestPost Samples.builtins Samples.ranked5 = Some Samples.p5
  ∧ @newestPost Samples.builtins Samples.ranked5 = Some Samples.p3
  ∧ @oldestPost Samples.builtins [Samples.p4] = None.
Proof. vm_compute. done. Qed.

Example dedup_sample :
  dedup [Samples.p2; Samples.p1; Samples.p2; Samples.p3; Samples.p1]
  = [Samples.p2; Samples.p1; Samples.p3].
Proof. vm_compute. reflexivity. Qed.

Lemma ranking_by_score_witness :
  Forall safeCounts
    [Samples.p5; Samples.p3; Samples.p1; Samples.p4; Samples.p2]
  ∧ Sorted specScoreGe
      (rankPosts [Samples.p5; Samples.p3; Samples.p1; Samples.p4; Samples.p2]).
Proof.
  assert (Hsafe : Forall safeCounts
            [Samples.p5; Samples.p3; Samples.p1; Samples.p4; Samples.p2]).
  { repeat constructor; simpl; unfold safeInteger; lia. }
  split; [exact Hsafe|].
  pose proof (ranking_by_score
                [Samples.p5; Samples.p3; Samples.p1; Samples.p4; Samples.p2]
                Hsafe) as (_ & _ & _ & _ & _ & _ & Hspec).
  apply Hspec.
  repeat constructor; simpl; lia.
Defined.

Lemma allOld_replicate (n : nat) (item : FeedItem) :
  @isOld Samples.builtins Samples.cutoff (extractPost item) = true →
  @allOld Samples.builtins Samples.cutoff (replicate n item).
Proof.
  intros Hold. apply Forall_forall. by intros x [-> _]%elem_of_replicate.
Qed.

Lemma collect_old_page_witness :
  @Timeline.collect Samples.builtins Samples.twentyFiveOld Samples.cutoff
  = Exited {| allPosts := []; oldPostCount := 25 |}.
Proof.
  apply (@collect_old_page Samples.builtins Samples.twentyFiveOld
           Samples.cutoff
           {| feed := replicate 25 (Samples.oldItem "o"); cursor := None |}).
  - reflexivity.
  - reflexivity.
  - apply allOld_replicate. reflexivity.
Defined.

Lemma collect_mixed_page_witness :
  oldPostCount
    (@scanPage Samples.builtins Samples.cutoff Timeline.start
       ([Samples.newItem "a"; Samples.newItem "b"]
        ++ replicate 20 (Samples.oldItem "o")))
  = Timeline.MAX_OLD_POSTS
  ∧ @Timeline.collect Samples.builtins Samples.mixed Samples.cutoff
    = Exited {| allPosts := [extractPost (Samples.newItem "a");
                             extractPost (Samples.newItem "b");
                             extractPost (Samples.newItem "c")];
                oldPostCount := 0 |}.
Proof.
  apply (@collect_mixed_page Samples.builtins Samples.mixed Samples.cutoff
           {| feed := ([Samples.newItem "a"; Samples.newItem "b"]
                       ++ replicate 20 (Samples.oldItem "o")
                       ++ [Samples.newItem "c"])%list;
              cursor := None |}
           (Samples.newItem "a") (Samples.newItem "b") (Samples.newItem "c")
           (replicate 20 (Samples.oldItem "o"))).
  - reflexivity.
  - reflexivity.
  - reflexivity.
  - reflexivity.
  - reflexivity.
  - reflexivity.
  - reflexivity.
  - apply allOld_replicate. reflexivity.
Defined.

Lemma collect_cap_overshoot_witness :
  honoursLimit Samples.mixed
  ∧ match @Timeline.collect Samples.builtins Samples.mixed Samples.cutoff with
    | OutOfFuel => False
    | Threw st => (length (allPosts st) ≤ 1000)%nat
    | Exited st => (length (allPosts st) ≤ 1100)%nat
    end.
Proof.
  pose proof (serve_honours_limit
                [([Samples.newItem "a"; Samples.newItem "b"]
                  ++ replicate 20 (Samples.oldItem "o")
                  ++ [Samples.newItem "c"])%list] []) as Hlimit.
  split; [exact Hlimit|].
  pose proof (@collect_cap_overshoot Samples.builtins Samples.mixed
                Samples.cutoff Hlimit) as [Hbound _].
  exact Hbound.
Defined.

Lemma cache_round_trip_witness :
  GET (H := Samples.builtins) Samples.world
    (setCache false ∅ 1730505600001 general Samples.record) Samples.plain
  = Some ({| status := 200;
             body := DigestBody Samples.record (Some general) true;
             deletesSession := false |},
          setCache false ∅ 1730505600001 general Samples.record).
Proof.
  pose proof (@cache_round_trip Samples.builtins Samples.world ∅
                Samples.plain general Samples.record 1730505600001) as Hhit.
  destruct Hhit as [_ Hhit].
  - reflexivity.
  - reflexivity.
  - reflexivity.
  - reflexivity.
  - exact Hhit.
Defined.

(** On the next UTC day the key is another one: a record written one
    millisecond after midnight is not found at the next midnight, one
    millisecond before its 24 hours are over. *)
Example cache_next_day_miss :
  getCache false (setCache false ∅ 1730505600001 general Samples.record)
    (1730505600001 + 86400000 - 1) general = None.
Proof. vm_compute. reflexivity. Qed.

(** With a store that fails on every call the same request is answered with
    the same digest, and the store stays empty. *)
Example GET_store_down :
  fst <$> GET (H := Samples.builtins)
            (withGetThrows true (withSetThrows true Samples.world)) ∅
            Samples.plain
  = fst <$> GET (H := Samples.builtins) Samples.world ∅ Samples.plain
  ∧ snd <$> GET (H := Samples.builtins)
              (withGetThrows true (withSetThrows true Samples.world)) ∅
              Samples.plain
    = Some ∅.
Proof. vm_compute. done. Qed.

(** A request on an empty store in the sample world: the three recent posts
    of the timeline are analysed, the answer's index 3 gives the one notable
    post, and the digest is written under the key of the day. *)
Example GET_generates :
  match GET (H := Samples.builtins) Samples.world ∅ Samples.plain with
  | Some (response, kv') =>
      status response = 200%nat
      ∧ (∃ d, body response = DigestBody d None false
              ∧ totalPosts (meta d) = 3%nat
              ∧ map entry_reason (notablePosts d) = ["first mention"]
              ∧ generatedAt (meta d) = "2024-11-02T11:00:05.000Z")
      ∧ is_Some (kv' !! "digest:general:2024-11-02")
  | None => False
  end.
Proof.
  vm_compute. split_and!; [done| |by eexists].
  eexists. split_and!; reflexivity.
Qed.

End Instances.

(** * Further properties of the route *)

(** ** Post normalisation *)

Section Normalizer.

(** X1: [extractPost] yields a quoted post exactly when the embed is a quote
    view, directly or next to media, whose record is there; the quoted post
    then carries the handle of the record's author and the record's text,
    the empty string when the record has none.  Every other embed gives
    null. *)
Theorem extractPost_quotedPost (item : FeedItem) :
  (∀ r, quotedRecord item = Some r →
        vr_type r = Some "app.bsky.embed.record#viewRecord" →
        quotedPost (extractPost item)
        = Some {| quoted_handle := vr_author_handle r;
                  quoted_text := or_empty (vr_value_text r) |})
  ∧ (¬ realized (quotedRecord item) → quotedPost (extractPost item) = None)
  ∧ (item_embed item = None → quotedPost (extractPost item) = None).
Proof.
  unfold quotedRecord, realized, extractPost, quoteOf. simpl.
  destruct (item_embed item) as [e|]; [|by split_and!; [intros r [=]|..]].
  destruct (decide (embed_type e = Some "app.bsky.embed.record#view"))
    as [Hview|Hnview].
  - rewrite decide_False by (rewrite Hview; discriminate).
    split_and!; [| |done].
    + intros r -> Hr. by rewrite decide_True.
    + intros Hnot. destruct (embed_record e) as [r|]; [|done].
      destruct (decide _) as [Hr|]; [|done]. destruct Hnot. eauto.
  - destruct (decide (embed_type e
                      = Some "app.bsky.embed.recordWithMedia#view")).
    + split_and!; [| |done].
      * intros r -> Hr. by rewrite decide_True.
      * intros Hnot. destruct (embed_record_record e) as [r|]; [|done].
        destruct (decide _) as [Hr|]; [|done]. destruct Hnot. eauto.
    + split_and!; [by intros r [=]|done..].
Qed.

End Normalizer.

(** ** What the loops retain *)

Section Retention.
Context `{!JsBuiltins}.
Local Open Scope nat_scope.

Lemma scanPage_allPosts (cutoff : Z) (st : Scan) (items : list FeedItem) :
  allPosts (scanPage cutoff st items)
  = (allPosts st
     ++ List.filter (fun p => negb (isOld cutoff p)) (map extractPost items))%list.
Proof.
  revert st. induction items as [|item items IH]; intros st.
  - simpl. by rewrite app_nil_r.
  - rewrite scanPage_cons, IH. unfold scanItem. simpl.
    destruct (isOld cutoff (extractPost item)); simpl; [done|].
    by rewrite <- app_assoc.
Qed.

(** X2: a page adds to the retained list exactly its posts that are not older
    than the cutoff, in the order of the page.  The counter after a page of
    old posts only is the counter before plus the length of the page; after
    any other page it is the number of old posts that follow the last post
    that is not old. *)
Theorem scanPage_retains_recent (cutoff : Z) (st : Scan)
    (items : list FeedItem) :
  allPosts (scanPage cutoff st items)
  = (allPosts st
     ++ List.filter (fun p => negb (isOld cutoff p)) (map extractPost items))%list
  ∧ (allOld cutoff items →
     oldPostCount (scanPage cutoff st items) = oldPostCount st + length items)
  ∧ (∀ before item olds,
       items = (before ++ item :: olds)%list →
       recent cutoff (extractPost item) → allOld cutoff olds →
       oldPostCount (scanPage cutoff st items) = length olds).
Proof.
  split_and!.
  - apply scanPage_allPosts.
  - intros Hold. by rewrite (scanPage_all_old _ _ _ Hold).
  - intros before item olds -> Hrecent Hold.
    rewrite scanPage_app, scanPage_cons, (scanItem_recent _ _ _ Hrecent).
    by rewrite (scanPage_all_old _ _ _ Hold).
Qed.

Lemma scanPage_Forall (P : Post → Prop) (cutoff : Z) (st : Scan)
    (items : list FeedItem) :
  Forall P (allPosts st) →
  (∀ item, In item items → recent cutoff (extractPost item) →
           P (extractPost item)) →
  Forall P (allPosts (scanPage cutoff st items)).
Proof.
  intros Hst Hitems. rewrite scanPage_allPosts. apply Forall_app. split; [done|].
  apply Forall_forall. intros p Hp%list_elem_of_In.
  apply filter_In in Hp as [Hin Hrecent]. apply in_map_iff in Hin as (item & <- & Hin).
  apply Hitems; [done|]. unfold recent. by destruct (isOld cutoff _).
Qed.

Lemma paginate_Forall (P : Post → Prop) (policy : Policy)
    (fetch : nat → option string → option Page) (cutoff : Z) (fuel : nat)
    (cursor0 : option string) (st : Scan) :
  (∀ c page item, fetch (pageSize policy) c = Some page →
                  In item (feed page) → recent cutoff (extractPost item) →
                  P (extractPost item)) →
  Forall P (allPosts st) →
  match paginate policy fetch fuel cutoff cursor0 st with
  | OutOfFuel => True
  | Threw st' | Exited st' => Forall P (allPosts st')
  end.
Proof.
  intros Hfetch. revert cursor0 st.
  induction fuel as [|fuel IH]; intros cursor0 st Hst; [done|].
  simpl. destruct (fetch (pageSize policy) cursor0) as [page|] eqn:Hpage;
    [|done].
  destruct (feed page) as [|item items] eqn:Hfeed; [done|].
  assert (Forall P (allPosts (scanPage cutoff st (item :: items)))) as Hst'.
  { apply scanPage_Forall; [done|]. intros i Hi. apply (Hfetch _ _ _ Hpage).
    by rewrite Hfeed. }
  destruct (_ || _ || _); [done|]. by apply IH.
Qed.

Lemma Timeline_collect_Forall (agent : Agent) (cutoff : Z) :
  match Timeline.collect agent cutoff with
  | OutOfFuel => False
  | Threw st | Exited st =>
      Forall (fun p => recent cutoff p ∧ servedByTimeline agent p) (allPosts st)
  end.
Proof.
  pose proof (Timeline_collect_terminates agent cutoff) as Hterm.
  pose proof (paginate_Forall
                (fun p => recent cutoff p ∧ servedByTimeline agent p)
                collectorPolicy (getTimeline agent) cutoff Timeline.fuel None
                Timeline.start) as Hall.
  unfold Timeline.collect in *. rewrite Timeline_loop_paginate in *.
  destruct (paginate _ _ _ _ _ _) as [|st|st]; [done|..];
    (apply Hall; [|constructor];
     intros c page item Hpage Hin Hrecent; split; [done|];
     by exists c, page, item).
Qed.

(** X3: the Timeline Collector never retains a post older than the cutoff,
    and every post it retains is the normal form of an item the upstream
    served, whether the loop ends by itself or by a failing fetch. *)
Theorem collect_retains_recent_served (agent : Agent) (cutoff : Z) :
  ∃ st, (Timeline.collect agent cutoff = Exited st
         ∨ Timeline.collect agent cutoff = Threw st)
        ∧ Forall (fun p => recent cutoff p ∧ servedByTimeline agent p)
            (allPosts st).
Proof.
  pose proof (Timeline_collect_Forall agent cutoff) as Hall.
  destruct (Timeline.collect agent cutoff) as [|st|st]; [done|..];
    exists st; auto.
Qed.

End Retention.

(** ** The external feeds *)

Section ExternalFeeds.
Context `{!JsBuiltins}.
Local Open Scope nat_scope.

Lemma scanPage_prefix (cutoff : Z) (st : Scan) (items : list FeedItem) :
  allPosts st `prefix_of` allPosts (scanPage cutoff st items).
Proof. rewrite scanPage_allPosts. by eexists. Qed.

Lemma paginate_prefix (policy : Policy)
    (fetch : nat → option string → option Page) (cutoff : Z) (fuel : nat)
    (cursor0 : option string) (st : Scan) :
  match paginate policy fetch fuel cutoff cursor0 st with
  | OutOfFuel => True
  | Threw st' | Exited st' => allPosts st `prefix_of` allPosts st'
  end.
Proof.
  revert cursor0 st. induction fuel as [|fuel IH]; intros cursor0 st; [done|].
  simpl. destruct (fetch (pageSize policy) cursor0) as [page|]; [|done].
  destruct (feed page) as [|item items]; [done|].
  pose proof (scanPage_prefix cutoff st (item :: items)) as Hpre.
  destruct (_ || _ || _); [done|].
  specialize (IH (cursor page) (scanPage cutoff st (item :: items))).
  destruct (paginate _ _ _ _ _ _); [done|by etransitivity..].
Qed.

(** With pages of at most [pageSize] items, a loop leaves at most one page
    more than the larger of the hard cap and what it started with. *)
Lemma paginate_bound (policy : Policy)
    (fetch : nat → option string → option Page) (cutoff : Z) (fuel : nat)
    (cursor0 : option string) (st : Scan) :
  (∀ c page, fetch (pageSize policy) c = Some page →
             length (feed page) ≤ pageSize policy) →
  match paginate policy fetch fuel cutoff cursor0 st with
  | OutOfFuel => True
  | Threw st' | Exited st' =>
      length (allPosts st')
      ≤ length (allPosts st) `max` hardCap policy + pageSize policy
  end.
Proof.
  intros Hlimit. revert cursor0 st.
  induction fuel as [|fuel IH]; intros cursor0 st; [done|].
  simpl. destruct (fetch (pageSize policy) cursor0) as [page|] eqn:Hpage;
    [|lia].
  destruct (feed page) as [|item items] eqn:Hfeed; [lia|].
  pose proof (scanPage_length_le cutoff st (item :: items)) as Hle.
  pose proof (Hlimit _ _ Hpage) as Hsize. rewrite Hfeed in Hsize.
  destruct (_ || _ || _) eqn:Hstop; [lia|].
  apply orb_false_iff in Hstop as [_ Hcap]. apply Nat.ltb_ge in Hcap.
  specialize (IH (cursor page) (scanPage cutoff st (item :: items))).
  destruct (paginate _ _ _ _ _ _); [done|lia..].
Qed.

(** What one turn of the loop over the feeds does to [allPosts]. *)
Lemma fetchOneFeed_spec (agent : Agent) (cutoff : Z) (posts : list Post)
    (feed0 : FeedRef) :
  ∃ posts', fetchOneFeed agent cutoff posts feed0 = Some posts'
    ∧ posts `prefix_of` posts'
    ∧ (Forall (fun p => recent cutoff p ∧ servedByFeed agent p) posts →
       Forall (fun p => recent cutoff p ∧ servedByFeed agent p) posts')
    ∧ (honoursFeedLimit agent →
       length posts' ≤ length posts `max` 500 + 100)
    ∧ (getProfile agent (feed_handle feed0) = None → posts' = posts)
    ∧ (∀ did, getProfile agent (feed_handle feed0) = Some did →
              getFeed agent ("at://" +:+ did +:+ "/app.bsky.feed.generator/"
                             +:+ feed_rkey feed0) 100 None = None →
              posts' = posts).
Proof.
  destruct (fetchOneFeed_total agent cutoff posts feed0) as [posts' Hrun].
  exists posts'. split; [done|]. revert Hrun. unfold fetchOneFeed.
  destruct (getProfile agent (feed_handle feed0)) as [did|].
  2:{ intros [= <-]. split_and!; [done|done|lia|done|done]. }
  rewrite AIFeed_loop_paginate.
  set (feedUri := ("at://" ++ did ++ "/app.bsky.feed.generator/"
                   ++ feed_rkey feed0)%string).
  set (policy := {| pageSize := 100; stopThreshold := 10; hardCap := 500 |}).
  set (st := {| allPosts := posts; oldPostCount := 0 |}).
  pose proof (paginate_prefix policy (getFeed agent feedUri) cutoff AIFeed.fuel
                None st) as Hpre.
  pose proof (paginate_Forall
                (fun p => recent cutoff p ∧ servedByFeed agent p) policy
                (getFeed agent feedUri) cutoff AIFeed.fuel None st) as Hall.
  pose proof (paginate_bound policy (getFeed agent feedUri) cutoff AIFeed.fuel
                None st) as Hbound.
  intros Hrun.
  assert (Hfirst : getFeed agent feedUri 100 None = None → posts' = posts).
  { intros Hnone. revert Hrun. unfold AIFeed.fuel.
    change (11 * 501 + 11) with (S (11 * 501 + 10)).
    cbn [paginate pageSize policy]. rewrite Hnone. by intros [= <-]. }
  assert (Hserved : ∀ c page item,
            getFeed agent feedUri (pageSize policy) c = Some page →
            In item (feed page) → recent cutoff (extractPost item) →
            recent cutoff (extractPost item)
            ∧ servedByFeed agent (extractPost item)).
  { intros c page item Hpage Hin Hrecent. split; [done|].
    by exists feedUri, c, page, item. }
  destruct (paginate _ _ _ _ _ _) as [|st'|st']; [done|..];
    injection Hrun as <-;
    (split_and!;
     [exact Hpre
     |intros Hposts; by apply Hall
     |intros Hlimit; apply Hbound; intros c page; apply Hlimit
     |done
     |intros did' [= <-]; exact Hfirst]).
Qed.

Lemma fetchFeeds_from (agent : Agent) (cutoff : Z) (feeds : list FeedRef)
    (posts : list Post) :
  ∃ posts',
    foldl (fun acc feed0 =>
             match acc with
             | Some ps => fetchOneFeed agent cutoff ps feed0
             | None => None
             end) (Some posts) feeds = Some posts'
    ∧ posts `prefix_of` posts'
    ∧ (Forall (fun p => recent cutoff p ∧ servedByFeed agent p) posts →
       Forall (fun p => recent cutoff p ∧ servedByFeed agent p) posts')
    ∧ (honoursFeedLimit agent →
       length posts' ≤ length posts `max` 500 + 100 * length feeds)
    ∧ (Forall (fun f => getProfile agent (feed_handle f) = None) feeds →
       posts' = posts).
Proof.
  revert posts. induction feeds as [|feed0 feeds IH]; intros posts.
  - exists posts. simpl. split_and!; [done|done|done|lia|done].
  - simpl.
    destruct (fetchOneFeed_spec agent cutoff posts feed0)
      as (posts1 & -> & Hpre1 & Hall1 & Hlen1 & Hfail1 & _).
    destruct (IH posts1) as (posts' & -> & Hpre & Hall & Hlen & Hfail).
    exists posts'. split_and!; [done|by etransitivity|auto| |].
    + intros Hlimit. specialize (Hlen1 Hlimit). specialize (Hlen Hlimit). lia.
    + intros [Hf Hfs]%Forall_cons. rewrite (Hfail Hfs). by apply Hfail1.
Qed.

(** X4: [fetchAIFeedPosts] always returns a list, never an exception; the
    list holds no post older than the cutoff, every post in it was served by
    an external feed, and with pages of at most 100 items it holds at most 600
    posts. *)
Theorem fetchAIFeedPosts_recent_bounded (agent : Agent) (cutoff : Z) :
  ∃ posts, fetchAIFeedPosts agent cutoff = Some posts
    ∧ Forall (fun p => recent cutoff p ∧ servedByFeed agent p) posts
    ∧ (honoursFeedLimit agent → length posts ≤ 600).
Proof.
  destruct (fetchFeeds_from agent cutoff AI_FEEDS [])
    as (posts & Hrun & _ & Hall & Hlen & _).
  exists posts. split_and!; [done|by apply Hall|].
  intros Hlimit. specialize (Hlen Hlimit). simpl in Hlen. lia.
Qed.

(** X5: in the loop over the external feeds a failure stays with its feed:
    the posts gathered from the feeds before are all kept, in place, whatever
    the later feeds do, and feeds whose handle does not resolve add nothing. *)
Theorem fetchFeeds_failures_isolated (agent : Agent) (cutoff : Z)
    (feeds1 feeds2 : list FeedRef) :
  ∃ posts1 posts,
    fetchFeeds agent cutoff feeds1 = Some posts1
    ∧ fetchFeeds agent cutoff (feeds1 ++ feeds2) = Some posts
    ∧ posts1 `prefix_of` posts
    ∧ (Forall (fun f => getProfile agent (feed_handle f) = None) feeds2 →
       posts = posts1).
Proof.
  destruct (fetchFeeds_from agent cutoff feeds1 []) as (posts1 & Hrun1 & _).
  destruct (fetchFeeds_from agent cutoff feeds2 posts1)
    as (posts & Hrun & Hpre & _ & _ & Hfail).
  exists posts1, posts. unfold fetchFeeds in *.
  rewrite foldl_app, Hrun1. done.
Qed.

End ExternalFeeds.

(** ** More on the ranking *)

Section RankingMore.

Lemma scoreGe_trans (a b c : Post) : scoreGe a b → scoreGe b c → scoreGe a c.
Proof. unfold scoreGe. intros Hab Hbc. by eapply Qle_trans. Qed.

Lemma sort_StronglySorted (posts : list Post) :
  StronglySorted scoreGe (sort byEngagement posts).
Proof.
  apply Sorted_StronglySorted; [|apply sort_Sorted].
  intros a b c. apply scoreGe_trans.
Qed.

Lemma StronglySorted_app_elem {A : Type} (R : A → A → Prop) (l1 l2 : list A)
    (x y : A) :
  StronglySorted R (l1 ++ l2) → x ∈ l1 → y ∈ l2 → R x y.
Proof.
  induction l1 as [|z l1 IH]; intros Hs Hx Hy; [by apply elem_of_nil in Hx|].
  simpl in Hs. apply StronglySorted_inv in Hs as [Hs Hall].
  apply elem_of_cons in Hx as [->|Hx]; [|by apply IH].
  rewrite Forall_forall in Hall. apply Hall, elem_of_app. by right.
Qed.

(** X6: the ranking keeps the best.  For posts whose counts are safe
    integers, the output together with the posts left out is a rearrangement
    of the input, nothing is added or lost, and no post left out has a higher
    computed score than a post kept; its exact score is higher by 16 at most,
    and not at all when the counts are at most [2^49].  With at most 150
    posts nothing is left out. *)
Theorem rankPosts_keeps_best (posts : list Post) :
  Forall safeCounts posts →
  ∃ rest,
    (rankPosts posts ++ rest)%list ≡ₚ posts
    ∧ (∀ p q, p ∈ rankPosts posts → q ∈ rest → scoreGe p q)
    ∧ (∀ p q, p ∈ rankPosts posts → q ∈ rest →
              (specScore q <= specScore p + 16)%Q)
    ∧ (Forall exactCounts posts →
       ∀ p q, p ∈ rankPosts posts → q ∈ rest → specScoreGe p q)
    ∧ ((length posts ≤ 150)%nat → rest = []).
Proof.
  intros Hsafe. rewrite Forall_forall in Hsafe.
  assert (Hbest : ∀ p q, p ∈ take 150 (sort byEngagement posts) →
                         q ∈ drop 150 (sort byEngagement posts) →
                         scoreGe p q).
  { intros p q Hp Hq.
    pose proof (sort_StronglySorted posts) as Hsorted.
    rewrite <- (take_drop 150 (sort byEngagement posts)) in Hsorted.
    by eapply StronglySorted_app_elem. }
  assert (Hperm : (take 150 (sort byEngagement posts)
                   ++ drop 150 (sort byEngagement posts))%list ≡ₚ posts).
  { rewrite take_drop. apply sort_perm. }
  assert (Hkept : ∀ p, p ∈ take 150 (sort byEngagement posts) → p ∈ posts).
  { intros p Hp. rewrite <- Hperm. apply elem_of_app. by left. }
  assert (Hleft : ∀ q, q ∈ drop 150 (sort byEngagement posts) → q ∈ posts).
  { intros q Hq. rewrite <- Hperm. apply elem_of_app. by right. }
  exists (drop 150 (sort byEngagement posts)). unfold rankPosts.
  split_and!.
  - exact Hperm.
  - exact Hbest.
  - intros p q Hp Hq. specialize (Hbest p q Hp Hq). unfold scoreGe in Hbest.
    pose proof (calculateEngagementScore_near p (Hsafe p (Hkept p Hp)))
      as [_ Hp8].
    pose proof (calculateEngagementScore_near q (Hsafe q (Hleft q Hq)))
      as [Hq8 _].
    lra.
  - intros Hexact p q Hp Hq. rewrite Forall_forall in Hexact.
    specialize (Hbest p q Hp Hq). unfold scoreGe, specScoreGe in *.
    by rewrite !calculateEngagementScore_exact in Hbest by auto.
  - intros Hlen. apply drop_ge.
    rewrite (Permutation_length (sort_perm byEngagement posts)). lia.
Qed.

Lemma sort_insert_filter (s : Q) (x : Post) (l : list Post) :
  List.filter (fun p => Qeq_bool (calculateEngagementScore p) s)
    (sort_insert byEngagement x l)
  = List.filter (fun p => Qeq_bool (calculateEngagementScore p) s) (x :: l).
Proof.
  induction l as [|y l IH]; [done|].
  cbn [sort_insert].
  destruct (Qle_bool (byEngagement x y) 0) eqn:Hcmp; [done|].
  cbn [List.filter] in *. rewrite IH.
  destruct (Qeq_bool (calculateEngagementScore y) s) eqn:Hy; [|done].
  destruct (Qeq_bool (calculateEngagementScore x) s) eqn:Hx; [|done].
  apply Qeq_bool_iff in Hx, Hy.
  assert (scoreGe x y) as Hge%byEngagement_le; [|congruence].
  unfold scoreGe. rewrite Hx, Hy. apply Qle_refl.
Qed.

Lemma Qeq_bool_proper (a b s : Q) : (a == b)%Q → Qeq_bool a s = Qeq_bool b s.
Proof.
  intros Hab.
  destruct (Qeq_bool a s) eqn:Ha, (Qeq_bool b s) eqn:Hb; try done.
  - apply Qeq_bool_iff in Ha. apply Qeq_bool_neq in Hb.
    exfalso. apply Hb. by rewrite <- Hab.
  - apply Qeq_bool_iff in Hb. apply Qeq_bool_neq in Ha.
    exfalso. apply Ha. by rewrite Hab.
Qed.

(** X7: posts of equal computed score keep the order they had in the input:
    for posts whose counts are safe integers and for every score, the posts
    with that computed score appear in the sorted list as they appear in the
    input; when the counts are at most [2^49] so do the posts with that exact
    score. *)
Theorem sort_keeps_order_of_ties (posts : list Post) (s : Q) :
  Forall safeCounts posts →
  List.filter (fun p => Qeq_bool (calculateEngagementScore p) s)
    (sort byEngagement posts)
  = List.filter (fun p => Qeq_bool (calculateEngagementScore p) s) posts
  ∧ (Forall exactCounts posts →
     List.filter (fun p => Qeq_bool (specScore p) s) (sort byEngagement posts)
     = List.filter (fun p => Qeq_bool (specScore p) s) posts).
Proof.
  intros _.
  assert (Hties : List.filter
                    (fun p => Qeq_bool (calculateEngagementScore p) s)
                    (sort byEngagement posts)
                  = List.filter
                      (fun p => Qeq_bool (calculateEngagementScore p) s)
                      posts).
  { induction posts as [|x posts IH]; [done|].
    change (sort byEngagement (x :: posts))
      with (sort_insert byEngagement x (sort byEngagement posts)).
    rewrite sort_insert_filter. cbn [List.filter]. by rewrite IH. }
  split; [exact Hties|].
  intros Hexact. rewrite Forall_forall in Hexact.
  rewrite <- (List.filter_ext_in
                (fun p => Qeq_bool (calculateEngagementScore p) s)
                (fun p => Qeq_bool (specScore p) s) posts).
  - rewrite <- Hties. symmetry. apply List.filter_ext_in.
    intros p Hp%list_elem_of_In.
    rewrite (sort_perm byEngagement posts) in Hp.
    by apply Qeq_bool_proper, calculateEngagementScore_exact, Hexact.
  - intros p Hp%list_elem_of_In.
    by apply Qeq_bool_proper, calculateEngagementScore_exact, Hexact.
Qed.

End RankingMore.

(** ** More on de-duplication *)

Section DedupMore.

Lemma dedupFrom_app (seen : gset string) (a b : list Post) :
  dedupFrom seen (a ++ b)
  = (dedupFrom seen a ++ dedupFrom (list_to_set (map uri a) ∪ seen) b)%list.
Proof.
  revert seen. induction a as [|p a IH]; intros seen; simpl.
  - f_equal. apply set_eq. intros u. set_unfold. tauto.
  - destruct (decide (uri p ∈ seen)) as [Hin|Hnin].
    + rewrite IH. f_equal. f_equal. apply set_eq. intros u. set_unfold.
      split; [tauto|]. intros [[->|?]|?]; auto.
    + simpl. rewrite IH. do 3 f_equal. apply set_eq. intros u. set_unfold.
      tauto.
Qed.

Lemma dedupFrom_id (seen : gset string) (a : list Post) :
  NoDup (map uri a) → (∀ p, p ∈ a → uri p ∉ seen) → dedupFrom seen a = a.
Proof.
  revert seen. induction a as [|p a IH]; intros seen Hnd Hfresh; [done|].
  simpl in *. apply NoDup_cons in Hnd as [Hp Hnd].
  rewrite decide_False by (apply Hfresh; left).
  f_equal. apply IH; [done|]. intros q Hq.
  rewrite not_elem_of_union, not_elem_of_singleton. split.
  - intros Heq. apply Hp. rewrite <- Heq. by apply list_elem_of_fmap_2.
  - apply Hfresh. by right.
Qed.

(** X8: de-duplication changes nothing on a list without repeated [uri], so
    doing it twice is doing it once; and when the timeline posts, already
    unique, are merged with the posts of the external feeds, all of them stay
    in front and in order, and a feed post follows only if its [uri] is not
    among theirs. *)
Theorem dedup_merge (timelinePosts feedPosts : list Post) :
  dedup (dedup timelinePosts) = dedup timelinePosts
  ∧ (NoDup (map uri timelinePosts) →
     dedup timelinePosts = timelinePosts
     ∧ ∃ rest, dedup (timelinePosts ++ feedPosts) = (timelinePosts ++ rest)%list
               ∧ sublist rest feedPosts
               ∧ ∀ p, p ∈ rest → uri p ∉ map uri timelinePosts).
Proof.
  assert (Hid : ∀ l, NoDup (map uri l) → dedup l = l).
  { intros l Hl. apply dedupFrom_id; [done|]. set_solver. }
  split; [apply Hid, dedupFrom_NoDup|].
  intros Hnd. split; [by apply Hid|].
  exists (dedupFrom (list_to_set (map uri timelinePosts) ∪ ∅) feedPosts).
  split_and!.
  - unfold dedup. rewrite dedupFrom_app. f_equal. by apply Hid.
  - apply dedupFrom_sublist.
  - intros p Hp%(list_elem_of_fmap_2 uri)%dedupFrom_uri_fresh. set_solver.
Qed.

End DedupMore.

(** ** The cache key *)

Section CacheKey.

Lemma civil_from_days_inverse (z : Z) :
  let '(y, m, d) := JsDate.civil_from_days z in
  JsDate.days_from_civil y m d = z ∧ 1 <= m <= 12 ∧ 1 <= d <= 31.
Proof.
  unfold JsDate.civil_from_days, JsDate.days_from_civil. cbv zeta.
  repeat match goal with
         | |- context [if ?b then _ else _] =>
             match b with
             | Z.ltb ?x ?y => destruct (Z.ltb_spec x y)
             | Z.leb ?x ?y => destruct (Z.leb_spec x y)
             end
         end.
  all: Z.div_mod_to_equations; lia.
Qed.

Lemma civil_from_days_year (z : Z) :
  -100000000 <= z <= 100000000 →
  let '(y, m, d) := JsDate.civil_from_days z in -999999 <= y <= 999999.
Proof.
  intros Hz. unfold JsDate.civil_from_days. cbv zeta.
  repeat match goal with
         | |- context [if ?b then _ else _] =>
             match b with
             | Z.ltb ?x ?y => destruct (Z.ltb_spec x y)
             | Z.leb ?x ?y => destruct (Z.leb_spec x y)
             end
         end.
  all: Z.div_mod_to_equations; lia.
Qed.

Lemma string_length_app (s1 s2 : string) :
  String.length (s1 ++ s2) = (String.length s1 + String.length s2)%nat.
Proof. induction s1 as [|c s1 IH]; simpl; [done|by rewrite IH]. Qed.

Lemma string_app_inj_length (s1 s2 t1 t2 : string) :
  String.length s1 = String.length s2 →
  s1 ++ t1 = s2 ++ t2 → s1 = s2 ∧ t1 = t2.
Proof.
  revert s2. induction s1 as [|c s1 IH]; intros [|c' s2] Hlen Heq;
    simpl in *; try done.
  injection Heq as -> Heq. injection Hlen as Hlen.
  destruct (IH s2 Hlen Heq) as [-> ->]. done.
Qed.

Lemma pad_length (w : nat) (n : Z) : String.length (JsDate.pad w n) = w.
Proof.
  revert n. induction w as [|w IH]; intros n; simpl; [done|].
  rewrite string_length_app, IH. simpl. lia.
Qed.

Lemma digit_char_inj (a b : Z) :
  JsDate.digit_char a = JsDate.digit_char b → a mod 10 = b mod 10.
Proof.
  unfold JsDate.digit_char. intros Heq.
  apply (f_equal nat_of_ascii) in Heq.
  pose proof (Z.mod_pos_bound a 10 ltac:(lia)).
  pose proof (Z.mod_pos_bound b 10 ltac:(lia)).
  rewrite !nat_ascii_embedding in Heq by lia. lia.
Qed.

Lemma pad_inj (w : nat) (n n' : Z) :
  0 <= n < 10 ^ Z.of_nat w → 0 <= n' < 10 ^ Z.of_nat w →
  JsDate.pad w n = JsDate.pad w n' → n = n'.
Proof.
  revert n n'. induction w as [|w IH]; intros n n' Hn Hn' Heq.
  - simpl in Hn, Hn'. lia.
  - rewrite Nat2Z.inj_succ, Z.pow_succ_r in Hn, Hn' by lia.
    simpl in Heq.
    apply string_app_inj_length in Heq as [Hhigh Hlow];
      [|by rewrite !pad_length].
    injection Hlow as Hlow%digit_char_inj.
    apply IH in Hhigh; [|Z.div_mod_to_equations; lia..].
    Z.div_mod_to_equations. lia.
Qed.

Lemma year_string_length (y : Z) :
  String.length (JsDate.year_string y)
  = if (0 <=? y) && (y <=? 9999) then 4%nat else 7%nat.
Proof.
  unfold JsDate.year_string.
  destruct ((0 <=? y) && (y <=? 9999)); [apply pad_length|].
  destruct (y <? 0); by rewrite string_length_app, pad_length.
Qed.

Lemma year_string_inj (y y' : Z) :
  -999999 <= y <= 999999 → -999999 <= y' <= 999999 →
  JsDate.year_string y = JsDate.year_string y' → y = y'.
Proof.
  intros Hy Hy' Heq.
  pose proof (f_equal String.length Heq) as Hlen.
  rewrite !year_string_length in Hlen.
  unfold JsDate.year_string in Heq.
  destruct ((0 <=? y) && (y <=? 9999)) eqn:Ha,
    ((0 <=? y') && (y' <=? 9999)) eqn:Ha'; try discriminate Hlen.
  - apply andb_true_iff in Ha as [?%Z.leb_le ?%Z.leb_le].
    apply andb_true_iff in Ha' as [?%Z.leb_le ?%Z.leb_le].
    apply pad_inj in Heq; [done|simpl; lia..].
  - destruct (Z.ltb_spec y 0), (Z.ltb_spec y' 0).
    + apply (inj (String.append "-")), pad_inj in Heq; simpl; lia.
    + cbn [String.append] in Heq. discriminate.
    + cbn [String.append] in Heq. discriminate.
    + apply (inj (String.append "+")), pad_inj in Heq; simpl; lia.
Qed.

(** The date part of [toISOString] tells the UTC day. *)
Lemma today_inj (t1 t2 : Z) :
  validTime t1 → validTime t2 →
  JsDate.today t1 = JsDate.today t2 → utcDay t1 = utcDay t2.
Proof.
  unfold validTime, utcDay, JsDate.today, JsDate.isoDatePart.
  intros Ht1 Ht2.
  pose proof (civil_from_days_inverse (t1 / JsDate.msPerDay)) as Hinv1.
  pose proof (civil_from_days_inverse (t2 / JsDate.msPerDay)) as Hinv2.
  pose proof (civil_from_days_year (t1 / JsDate.msPerDay)) as Hyear1.
  pose proof (civil_from_days_year (t2 / JsDate.msPerDay)) as Hyear2.
  destruct (JsDate.civil_from_days (t1 / JsDate.msPerDay)) as [[y1 m1] d1].
  destruct (JsDate.civil_from_days (t2 / JsDate.msPerDay)) as [[y2 m2] d2].
  destruct Hinv1 as (<- & Hm1 & Hd1), Hinv2 as (<- & Hm2 & Hd2).
  assert (-999999 <= y1 <= 999999) as Hy1
    by (apply Hyear1; unfold JsDate.msPerDay; Z.div_mod_to_equations; lia).
  assert (-999999 <= y2 <= 999999) as Hy2
    by (apply Hyear2; unfold JsDate.msPerDay; Z.div_mod_to_equations; lia).
  clear Hyear1 Hyear2. intros Heq.
  assert (String.length (JsDate.year_string y1)
          = String.length (JsDate.year_string y2)) as Hlen.
  { apply (f_equal String.length) in Heq.
    rewrite !string_length_app, !pad_length in Heq. simpl in Heq. lia. }
  apply string_app_inj_length in Heq as [Hyear Heq]; [|done].
  apply year_string_inj in Hyear as ->; [|done..].
  apply (inj (String.append "-")) in Heq.
  apply string_app_inj_length in Heq as [Hmonth Heq];
    [|by rewrite !pad_length].
  apply pad_inj in Hmonth as ->; [|simpl; lia..].
  apply (inj (String.append "-")), pad_inj in Heq as ->; [done|simpl; lia..].
Qed.

Lemma typeName_differ (x y : string) : "general" ++ x ≠ "ai" ++ y.
Proof.
  cbn [String.append]. intros Heq. injection Heq as Hc _. discriminate Hc.
Qed.

Lemma getCacheKey_inj (type1 type2 : DigestType) (t1 t2 : Z) :
  validTime t1 → validTime t2 →
  getCacheKey type1 t1 = getCacheKey type2 t2 →
  type1 = type2 ∧ utcDay t1 = utcDay t2.
Proof.
  intros Ht1 Ht2. unfold getCacheKey.
  intros Heq%(inj (String.append "digest:")).
  destruct type1, type2; cbn [typeName] in Heq.
  - apply (inj (String.append "general")), (inj (String.append ":")) in Heq.
    split; [done|]. by apply today_inj.
  - by apply typeName_differ in Heq.
  - symmetry in Heq. by apply typeName_differ in Heq.
  - apply (inj (String.append "ai")), (inj (String.append ":")) in Heq.
    split; [done|]. by apply today_inj.
Qed.

(** X9: the cache key names the digest type and the UTC calendar date, and
    nothing else: two keys are equal exactly when they are built for the same
    type on the same UTC day. *)
Theorem getCacheKey_identifies (type1 type2 : DigestType) (t1 t2 : Z) :
  validTime t1 → validTime t2 →
  getCacheKey type1 t1 = getCacheKey type2 t2
  ↔ type1 = type2 ∧ utcDay t1 = utcDay t2.
Proof.
  intros Ht1 Ht2. split; [by apply getCacheKey_inj|].
  intros [-> Hday]. unfold getCacheKey, JsDate.today, JsDate.isoDatePart.
  unfold utcDay in Hday. by rewrite Hday.
Qed.

End CacheKey.

(** ** More on the cache *)

Section CacheMore.

Lemma getCacheKey_differs (type1 type2 : DigestType) (t1 t2 : Z) :
  validTime t1 → validTime t2 →
  type1 ≠ type2 ∨ utcDay t1 ≠ utcDay t2 →
  getCacheKey type1 t1 ≠ getCacheKey type2 t2.
Proof.
  intros Ht1 Ht2 Hdiff [Htype Hday]%getCacheKey_inj; [|done..].
  by destruct Hdiff.
Qed.

(** X10: a cache write is seen only by reads for the same digest type on the
    same UTC calendar date: a read for the other type, or on any other day
    (the day after included, whatever is left of the 24 hours), finds what
    the store held without that write. *)
Theorem cache_write_scope (throws : bool) (kv : Store)
    (type1 type2 : DigestType) (t1 t2 : Z) (record : Digest) :
  validTime t1 → validTime t2 →
  type1 ≠ type2 ∨ utcDay t1 ≠ utcDay t2 →
  getCache throws (setCache false kv t1 type1 record) t2 type2
  = getCache throws kv t2 type2.
Proof.
  intros Ht1 Ht2 Hdiff. unfold getCache, setCache, kv_get, kv_set.
  destruct throws; [done|].
  by rewrite lookup_insert_ne by by apply getCacheKey_differs.
Qed.

Lemma getCache_setCache_same_day (kv : Store) (type : DigestType)
    (record : Digest) (tset tget : Z) :
  utcDay tset = utcDay tget →
  getCache false (setCache false kv tset type record) tget type
  = Some {| digest := record; date := JsDate.today tset |}.
Proof.
  unfold utcDay. intros Hday. unfold getCache, setCache, kv_get, kv_set.
  rewrite <- (getCacheKey_same_day type tset tget Hday), lookup_insert_eq.
  destruct (Z.ltb_spec tget (tset + 86400 * 1000)) as [|Hlate]; [done|].
  unfold JsDate.msPerDay in Hday. Z.div_mod_to_equations. lia.
Qed.

(** X11: a second write for the same type on the same UTC day replaces the
    first: the store is the one the second write alone would have left, and a
    read on that day returns the second record. *)
Theorem cache_last_write_wins (kv : Store) (type : DigestType)
    (first second : Digest) (t1 t2 t3 : Z) :
  utcDay t1 = utcDay t2 → utcDay t2 = utcDay t3 →
  setCache false (setCache false kv t1 type first) t2 type second
  = setCache false kv t2 type second
  ∧ getCache false
      (setCache false (setCache false kv t1 type first) t2 type second)
      t3 type
    = Some {| digest := second; date := JsDate.today t2 |}.
Proof.
  intros H12 H23. split.
  - unfold setCache, kv_set.
    rewrite (getCacheKey_same_day type t1 t2 H12). apply insert_insert_eq.
  - by apply getCache_setCache_same_day.
Qed.

End CacheMore.

(** ** More on the handler *)

Section Handler.
Context `{!JsBuiltins}.
Local Open Scope nat_scope.

(** The two ways out of [generate]. *)
Lemma generate_inv (w : World) (kv kv' : Store) (type : DigestType)
    (agent : Agent) (response : Response) :
  generate w kv type agent = Some (response, kv') →
  (failed kv = Some (response, kv'))
  ∨ ∃ st postsForDigest km fc digestData,
      Timeline.collect agent (cutoffOf w) = Exited st
      ∧ match type with
        | general =>
            postsForDigest = rankPosts (dedup (allPosts st))
            ∧ km = None ∧ fc = None
        | ai =>
            ∃ aiFeedPosts,
              fetchAIFeedPosts agent (cutoffOf w) = Some aiFeedPosts
              ∧ postsForDigest
                = rankPosts
                    (dedup (List.filter isAIRelated (dedup (allPosts st))
                            ++ aiFeedPosts))
              ∧ km = Some (length (List.filter isAIRelated
                                     (dedup (allPosts st))))
              ∧ fc = Some (length aiFeedPosts)
        end
      ∧ complete w type postsForDigest = Some digestData
      ∧ response
        = {| status := 200;
             body := DigestBody
                       (freshDigest w type (dedup (allPosts st))
                          postsForDigest km fc digestData) None false;
             deletesSession := false |}
      ∧ kv' = setCache (kv_set_throws w) kv (now_done w) type
                (freshDigest w type (dedup (allPosts st)) postsForDigest km fc
                   digestData).
Proof.
  unfold generate, cutoffOf.
  destruct (Timeline.collect _ _) as [| |st]; [done|by left|].
  destruct type.
  - destruct (complete w general _) as [digestData|] eqn:Hc; [|by left].
    intros [= <- <-]. right. by eexists st, _, None, None, digestData.
  - destruct (fetchAIFeedPosts _ _) as [aiFeedPosts|] eqn:Hf; [|done].
    destruct (complete w ai _) as [digestData|] eqn:Hc; [|by left].
    intros [= <- <-]. right.
    eexists st, _, _, _, digestData. split_and!; [done| |done..].
    by exists aiFeedPosts.
Qed.

(** The ways out of [GET]. *)
Lemma GET_inv (w : World) (kv kv' : Store) (request : Request)
    (response : Response) :
  GET w kv request = Some (response, kv') →
  (kv' = kv
   ∧ ((∃ c, refreshOf request = false
            ∧ getCache (kv_get_throws w) kv (now_request w)
                (digestTypeOf request) = Some c
            ∧ response
              = {| status := 200;
                   body := DigestBody (digest c) (Some (digestTypeOf request))
                             true;
                   deletesSession := false |})
      ∨ (status response = 500 ∧ deletesSession response = false
         ∧ ∃ msg, body response = ErrorBody msg false)
      ∨ (status response = 401
         ∧ ∃ msg, body response = ErrorBody msg true)))
  ∨ (∃ agent, agentOfRequest w agent
              ∧ isPresent (ANTHROPIC_API_KEY w) = true
              ∧ generate w kv (digestTypeOf request) agent
                = Some (response, kv')).
Proof.
  unfold GET, failed.
  destruct (if refreshOf request then _ else _) as [c|] eqn:Hcached.
  { intros [= <- <-]. left. split; [done|]. left. exists c.
    destruct (refreshOf request); [done|]. done. }
  destruct (isPresent (ANTHROPIC_API_KEY w)) eqn:Hkey; simpl.
  2:{ intros [= <- <-]. left. split; [done|]. right. left. simpl. eauto. }
  destruct (bsky_session w) as [sessionDid|] eqn:Hcookie.
  2:{ intros [= <- <-]. left. split; [done|]. right. right. simpl. eauto. }
  destruct (truthy sessionDid).
  2:{ intros [= <- <-]. left. split; [done|]. right. right. simpl. eauto. }
  destruct (restore w sessionDid) as [[agent|]|] eqn:Hrestore.
  - intros Hgen. right. exists agent. split_and!; [by exists sessionDid|done..].
  - intros [= <- <-]. left. split; [done|]. right. right. simpl. eauto.
  - intros [= <- <-]. left. split; [done|]. right. left. simpl. eauto.
Qed.

Lemma generate_response_store (w : World) (kv1 kv2 : Store)
    (type : DigestType) (agent : Agent) :
  fst <$> generate w kv1 type agent = fst <$> generate w kv2 type agent.
Proof.
  unfold generate, failed.
  destruct (Timeline.collect _ _); [done..|].
  destruct (match type with general => _ | ai => _ end) as [[[? ?] ?]|];
    [|done].
  by destruct (complete w _ _).
Qed.

Lemma GET_fresh_inv (w : World) (kv kv' : Store) (request : Request)
    (response : Response) (d : Digest) :
  GET w kv request = Some (response, kv') → freshBody response d →
  ∃ agent st postsForDigest km fc digestData,
    agentOfRequest w agent
    ∧ Timeline.collect agent (cutoffOf w) = Exited st
    ∧ match digestTypeOf request with
      | general =>
          postsForDigest = rankPosts (dedup (allPosts st))
          ∧ km = None ∧ fc = None
      | ai =>
          ∃ aiFeedPosts,
            fetchAIFeedPosts agent (cutoffOf w) = Some aiFeedPosts
            ∧ postsForDigest
              = rankPosts
                  (dedup (List.filter isAIRelated (dedup (allPosts st))
                          ++ aiFeedPosts))
            ∧ km = Some (length (List.filter isAIRelated
                                   (dedup (allPosts st))))
            ∧ fc = Some (length aiFeedPosts)
      end
    ∧ complete w (digestTypeOf request) postsForDigest = Some digestData
    ∧ d = freshDigest w (digestTypeOf request) (dedup (allPosts st))
            postsForDigest km fc digestData
    ∧ status response = 200 ∧ deletesSession response = false
    ∧ kv' = setCache (kv_set_throws w) kv (now_done w) (digestTypeOf request) d.
Proof.
  unfold freshBody. intros HGET Hbody.
  apply GET_inv in HGET
    as [[_ [(c & _ & _ & ->)|[(_ & _ & msg & Hmsg)|(_ & msg & Hmsg)]]]
       |(agent & Hagent & _ & Hgen)]; [done|congruence|congruence|].
  apply generate_inv in Hgen
    as [[= <- <-]|(st & pfd & km & fc & dd & Hcollect & Hsel & Hc & -> & ->)];
    [done|].
  injection Hbody as <-.
  by exists agent, st, pfd, km, fc, dd.
Qed.

(** X12: every request is answered, with status 200, 401 or 500; the status
    is 200 exactly when the body is a digest; the session cookie is deleted
    only with a 401; and the store is left as it was unless the response
    carries a digest generated by this request, in which case the store has
    that digest written under the key of the moment. *)
Theorem GET_store_discipline (w : World) (kv : Store) (request : Request) :
  ∃ response kv',
    GET w kv request = Some (response, kv')
    ∧ (status response = 200 ∨ status response = 401 ∨ status response = 500)
    ∧ (status response = 200 ↔ ∃ d type c, body response = DigestBody d type c)
    ∧ (deletesSession response = true → status response = 401)
    ∧ (kv' = kv
       ∨ ∃ d, freshBody response d
              ∧ kv' = setCache false kv (now_done w) (digestTypeOf request) d).
Proof.
  destruct (GET_total w kv request) as [[response kv'] HGET].
  exists response, kv'. split; [done|].
  pose proof HGET as Hcases.
  apply GET_inv in Hcases
    as [[-> [(c & _ & _ & ->)|[(Hs & Hd & msg & Hmsg)|(Hs & msg & Hmsg)]]]
       |(agent & _ & _ & Hgen)].
  - simpl. split_and!; [auto| |done|auto]. split; [eauto|done].
  - rewrite Hs, Hd, Hmsg. split_and!; [auto| |done|auto].
    split; [done|]. by intros (? & ? & ? & ?).
  - rewrite Hs, Hmsg. split_and!; [auto| |done|auto].
    split; [done|]. by intros (? & ? & ? & ?).
  - apply generate_inv in Hgen
      as [[= <- <-]|(st & pfd & km & fc & dd & _ & _ & _ & -> & ->)].
    + simpl. split_and!; [auto| |done|auto].
      split; [done|]. by intros (? & ? & ? & ?).
    + simpl. split_and!; [auto| |done|]. { split; [eauto|done]. }
      unfold setCache at 1. destruct (kv_set_throws w); [by left|].
      right. by eexists.
Qed.

(** X13: with [refresh=true] the store is not read: the response is the same
    whatever the store holds, and it is never marked [cached: true]. *)
Theorem GET_refresh_ignores_store (w : World) (kv1 kv2 : Store)
    (request : Request) :
  fst <$> GET w kv1 (refreshing request) = fst <$> GET w kv2 (refreshing request)
  ∧ ∀ response kv' d type,
      GET w kv1 (refreshing request) = Some (response, kv') →
      body response ≠ DigestBody d type true.
Proof.
  split.
  - unfold GET, failed.
    replace (refreshOf (refreshing request)) with true by done.
    destruct (negb _); [done|].
    destruct (bsky_session w) as [sessionDid|]; [|done].
    destruct (truthy sessionDid); [|done].
    destruct (restore w sessionDid) as [[agent|]|]; [|done..].
    apply generate_response_store.
  - intros response kv' d type HGET Hbody.
    apply GET_inv in HGET
      as [[_ [(c & Hrefresh & _)|[(_ & _ & msg & Hmsg)|(_ & msg & Hmsg)]]]
         |(agent & _ & _ & Hgen)]; [done|congruence|congruence|].
    apply generate_inv in Hgen
      as [[= <- <-]|(st & pfd & km & fc & dd & _ & _ & _ & -> & _)]; done.
Qed.

(** X14: a digest generated and written by one request is what the next
    request for the same type gets on the same UTC day: status 200, the same
    digest, marked [cached: true], and the store untouched. *)
Theorem GET_then_cached (w w2 : World) (kv kv' : Store)
    (request request2 : Request) (response : Response) (d : Digest) :
  GET w kv request = Some (response, kv') →
  freshBody response d →
  kv_set_throws w = false →
  kv_get_throws w2 = false →
  utcDay (now_done w) = utcDay (now_request w2) →
  refreshOf request2 = false →
  digestTypeOf request2 = digestTypeOf request →
  GET w2 kv' request2
  = Some ({| status := 200;
             body := DigestBody d (Some (digestTypeOf request)) true;
             deletesSession := false |}, kv').
Proof.
  intros HGET Hfresh Hset Hget Hday Hrefresh Htype.
  apply (GET_fresh_inv _ _ _ _ _ _ HGET) in Hfresh
    as (_ & _ & _ & _ & _ & _ & _ & _ & _ & _ & _ & _ & _ & ->).
  rewrite Hset. unfold GET.
  rewrite Hrefresh, Htype, Hget.
  by rewrite (getCache_setCache_same_day _ _ _ _ _ Hday).
Qed.

(** X15: the figures of a generated digest: it names the requested type; at
    most 150 posts were analysed; for the general digest they are not more
    than the posts collected and the two topic counts are absent; for the
    topic digest both counts are present, the keyword matches are not more
    than the posts collected, and the posts analysed are not more than both
    counts together.  No notable entry is without a post, the date range is
    never an empty string, and [generatedAt] is the ISO form of the moment the
    digest was finished. *)
Theorem GET_digest_figures (w : World) (kv kv' : Store) (request : Request)
    (response : Response) (d : Digest) :
  GET w kv request = Some (response, kv') →
  freshBody response d →
  digestType (meta d) = digestTypeOf request
  ∧ postsAnalyzed (meta d) ≤ 150
  ∧ match digestTypeOf request with
    | general =>
        keywordMatches (meta d) = None ∧ feedPostCount (meta d) = None
        ∧ postsAnalyzed (meta d) ≤ totalPosts (meta d)
    | ai =>
        ∃ k f, keywordMatches (meta d) = Some k
               ∧ feedPostCount (meta d) = Some f
               ∧ k ≤ totalPosts (meta d)
               ∧ postsAnalyzed (meta d) ≤ k + f
    end
  ∧ Forall (fun e => is_Some (entry_post e)) (notablePosts d)
  ∧ oldestPostDate (meta d) ≠ Some ""
  ∧ newestPostDate (meta d) ≠ Some ""
  ∧ generatedAt (meta d) = JsDate.toISOString (now_done w).
Proof.
  intros HGET Hfresh.
  apply (GET_fresh_inv _ _ _ _ _ _ HGET) in Hfresh
    as (agent & st & pfd & km & fc & dd & _ & _ & Hsel & _ & -> & _).
  assert (Hrank : ∀ l, length (rankPosts l) ≤ 150 ∧ length (rankPosts l) ≤ length l).
  { intros l. unfold rankPosts.
    rewrite length_take, (Permutation_length (sort_perm byEngagement l)). lia. }
  assert (Hdate : ∀ x, dateOf x ≠ Some "").
  { intros [p|]; simpl; [|done].
    destruct (truthy (createdAt p)) eqn:Hp; [|done].
    apply truthy_spec in Hp. congruence. }
  simpl. split_and!; [done| | | |apply Hdate|apply Hdate|done].
  - destruct (digestTypeOf request).
    + destruct Hsel as (-> & _). apply Hrank.
    + destruct Hsel as (? & _ & -> & _). apply Hrank.
  - destruct (digestTypeOf request).
    + destruct Hsel as (-> & -> & ->). split_and!; [done..|apply Hrank].
    + destruct Hsel as (aiFeedPosts & _ & -> & -> & ->).
      eexists _, _. split_and!; [done|done| |].
      * etransitivity; [apply List.filter_length_le|done].
      * etransitivity; [apply Hrank|].
        etransitivity; [apply sublist_length, dedupFrom_sublist|].
        by rewrite length_app.
  - unfold notablePostsWithData. apply Forall_forall.
    by intros e [Hsome _]%list_elem_of_filter.
Qed.

Lemma dedup_elem (posts : list Post) (p : Post) :
  p ∈ dedup posts → p ∈ posts.
Proof.
  unfold dedup. intros (before & after & -> & _)%dedupFrom_elem.
  apply elem_of_app. right. by left.
Qed.

Lemma notable_elem (postsForDigest : list Post) (notablePosts0 : list Notable)
    (e : NotableEntry) :
  e ∈ notablePostsWithData postsForDigest notablePosts0 →
  ∃ p, p ∈ postsForDigest ∧ entry_post e = Some (notableOf p).
Proof.
  unfold notablePostsWithData.
  intros [Hsome (n & -> & Hn)%list_elem_of_fmap]%list_elem_of_filter.
  apply notableEntry_is_Some in Hsome.
  apply at_index_inRange in Hsome as (p & Hp & Hat).
  exists p. split; [by eapply list_elem_of_lookup_2|].
  unfold notableEntry. simpl. by rewrite Hat.
Qed.

(** X16: a generated digest cites only what the upstream served inside the
    window: the post of every notable entry is the public part of a post that
    is not older than the cutoff of the request and that came from a timeline
    page or, for the topic digest, from a page of an external feed. *)
Theorem GET_notable_provenance (w : World) (kv kv' : Store)
    (request : Request) (response : Response) (d : Digest) (agent : Agent) :
  GET w kv request = Some (response, kv') →
  freshBody response d →
  agentOfRequest w agent →
  Forall (fun e => ∃ p, entry_post e = Some (notableOf p)
                        ∧ recent (cutoffOf w) p
                        ∧ (servedByTimeline agent p
                           ∨ (digestTypeOf request = ai
                              ∧ servedByFeed agent p)))
    (notablePosts d).
Proof.
  intros HGET Hfresh (did & Hcookie & Hrestore).
  apply (GET_fresh_inv _ _ _ _ _ _ HGET) in Hfresh
    as (agent' & st & pfd & km & fc & dd & (did' & Hcookie' & Hrestore')
        & Hcollect & Hsel & _ & -> & _).
  assert (agent' = agent) as -> by congruence.
  pose proof (Timeline_collect_Forall agent (cutoffOf w)) as Htimeline.
  rewrite Hcollect in Htimeline. rewrite Forall_forall in Htimeline.
  simpl. apply Forall_forall. intros e (p & Hp & He)%notable_elem.
  exists p. split; [done|].
  destruct (digestTypeOf request).
  - destruct Hsel as (-> & _).
    apply rankPosts_elem, dedup_elem, Htimeline in Hp as [? ?]. auto.
  - destruct Hsel as (aiFeedPosts & Hfeeds & -> & _).
    apply rankPosts_elem, dedup_elem, elem_of_app in Hp as [Hp|Hp].
    + apply list_elem_of_In, filter_In in Hp as [Hp%list_elem_of_In _].
      apply dedup_elem, Htimeline in Hp as [? ?]. auto.
    + destruct (fetchFeeds_from agent (cutoffOf w) AI_FEEDS [])
        as (posts & Hrun & _ & Hall & _).
      unfold fetchAIFeedPosts, fetchFeeds in Hfeeds.
      rewrite Hrun in Hfeeds. injection Hfeeds as ->.
      specialize (Hall ltac:(constructor)). rewrite Forall_forall in Hall.
      apply Hall in Hp as [? ?]. auto.
Qed.

End Handler.

(** ** The model's raw text and the prompt *)

Section Text.

Lemma list_ascii_of_string_app (s1 s2 : string) :
  list_ascii_of_string (s1 ++ s2)
  = (list_ascii_of_string s1 ++ list_ascii_of_string s2)%list.
Proof.
  induction s1 as [|c s1 IH]; [done|].
  change (c :: list_ascii_of_string (s1 ++ s2)
          = c :: (list_ascii_of_string s1 ++ list_ascii_of_string s2)%list).
  by rewrite IH.
Qed.

Lemma string_length_list (s : string) :
  String.length s = length (list_ascii_of_string s).
Proof. induction s as [|c s IH]; simpl; [done|by rewrite IH]. Qed.

Lemma string_app_assoc (s1 s2 s3 : string) :
  (s1 ++ s2) ++ s3 = s1 ++ (s2 ++ s3).
Proof.
  induction s1 as [|c s1 IH]; [done|].
  change (String c ((s1 ++ s2) ++ s3) = String c (s1 ++ (s2 ++ s3))).
  by rewrite IH.
Qed.

Lemma startsWith_app (p s : string) : startsWith p (p ++ s) = true.
Proof.
  unfold startsWith. induction p as [|c p IH]; [by destruct s|].
  change (String.prefix (String c p) (String c (p ++ s)) = true).
  simpl. destruct (ascii_dec c c); [done|congruence].
Qed.

Lemma dropString_app (p s : string) (n : nat) :
  n = String.length p → dropString n (p ++ s) = s.
Proof.
  intros ->. unfold dropString.
  rewrite list_ascii_of_string_app, string_length_list, drop_app_length.
  apply string_of_list_ascii_of_string.
Qed.

Lemma endsWith_app (s p : string) : endsWith p (s ++ p) = true.
Proof.
  unfold endsWith. rewrite string_length_app.
  replace (String.length s + String.length p - String.length p)%nat
    with (String.length s) by lia.
  rewrite dropString_app by done. rewrite String.eqb_refl, andb_true_r.
  apply Nat.leb_le. lia.
Qed.

Lemma dropEnd_app (s p : string) (n : nat) :
  n = String.length p → dropEnd n (s ++ p) = s.
Proof.
  intros ->. unfold dropEnd. rewrite string_length_app.
  replace (String.length s + String.length p - String.length p)%nat
    with (String.length s) by lia.
  rewrite list_ascii_of_string_app, string_length_list, take_app_length.
  apply string_of_list_ascii_of_string.
Qed.

Lemma dropClosingFence_closed (body : string) :
  dropClosingFence (body ++ newline ++ "```") = body.
Proof.
  unfold dropClosingFence. rewrite <- string_app_assoc.
  rewrite endsWith_app.
  rewrite (dropEnd_app (body ++ newline) "```") by done.
  rewrite endsWith_app. by apply (dropEnd_app body newline).
Qed.

Lemma dropOpeningFence_tagged (rest : string) :
  dropOpeningFence ("```json" ++ newline ++ rest) = rest.
Proof.
  unfold dropOpeningFence.
  change ("```json" ++ newline ++ rest)
    with ("```" ++ "json" ++ newline ++ rest).
  rewrite startsWith_app, (dropString_app "```") by done.
  rewrite startsWith_app, (dropString_app "json") by done.
  rewrite startsWith_app. by apply (dropString_app newline).
Qed.

Lemma dropOpeningFence_plain (rest : string) :
  dropOpeningFence ("```" ++ newline ++ rest) = rest.
Proof.
  unfold dropOpeningFence.
  rewrite startsWith_app, (dropString_app "```") by done.
  replace (startsWith "json" (newline ++ rest)) with false by done.
  rewrite startsWith_app. by apply (dropString_app newline).
Qed.

(** X17: what the fence stripping does to the trimmed text of the model: a
    text that does not begin with a fence is left as it is; a body fenced by
    three backticks on lines of their own comes out exactly, with or without
    the [json] tag; and so does a body whose opening fence was never
    closed. *)
Theorem stripFences_unwraps (jsonText body : string) :
  (startsWith "```" jsonText = false → stripFences jsonText = jsonText)
  ∧ stripFences ("```json" ++ newline ++ body ++ newline ++ "```") = body
  ∧ stripFences ("```" ++ newline ++ body ++ newline ++ "```") = body
  ∧ (endsWith "```" body = false →
     stripFences ("```json" ++ newline ++ body) = body
     ∧ stripFences ("```" ++ newline ++ body) = body).
Proof.
  split_and!.
  - unfold stripFences. by intros ->.
  - unfold stripFences.
    replace (startsWith "```" ("```json" ++ newline ++ body ++ newline ++ "```"))
      with true by done.
    rewrite dropOpeningFence_tagged. apply dropClosingFence_closed.
  - unfold stripFences. rewrite startsWith_app, dropOpeningFence_plain.
    apply dropClosingFence_closed.
  - intros Hopen. unfold stripFences. split.
    + replace (startsWith "```" ("```json" ++ newline ++ body))
        with true by done.
      rewrite dropOpeningFence_tagged. unfold dropClosingFence.
      by rewrite Hopen.
    + rewrite startsWith_app, dropOpeningFence_plain. unfold dropClosingFence.
      by rewrite Hopen.
Qed.

Lemma string_app_empty (s : string) : s ++ "" = s.
Proof.
  induction s as [|c s IH]; [done|].
  change (String c (s ++ "") = String c s). by rewrite IH.
Qed.

Lemma substring_0_length (n : nat) (s : string) :
  String.length (String.substring 0 n s) = (n `min` String.length s)%nat.
Proof.
  revert s. induction n as [|n IH]; intros [|c s]; simpl; try done.
  by rewrite IH.
Qed.

Lemma substring_0_all (n : nat) (s : string) :
  (String.length s ≤ n)%nat → String.substring 0 n s = s.
Proof.
  revert s. induction n as [|n IH]; intros [|c s] Hlen; simpl in *;
    try done; [lia|].
  rewrite IH; [done|lia].
Qed.

Lemma list_ascii_of_substring (n : nat) (s : string) :
  list_ascii_of_string (String.substring 0 n s)
  = take n (list_ascii_of_string s).
Proof.
  revert s. induction n as [|n IH]; intros [|c s]; simpl; try done.
  by rewrite IH.
Qed.

(** X18: the prompt quotes at most the first 200 characters of a quoted post.
    For a text in ASCII, a text of up to 200 characters is quoted whole, a
    longer one is cut after 200 characters and followed by three dots, and
    what is quoted is in ASCII again. *)
Theorem quotedExcerpt_cut (quoted : string) :
  asciiText quoted →
  (String.length (quotedExcerpt quoted) ≤ 203)%nat
  ∧ ((String.length quoted ≤ 200)%nat → quotedExcerpt quoted = quoted)
  ∧ ((200 < String.length quoted)%nat →
     quotedExcerpt quoted = String.substring 0 200 quoted ++ "..."
     ∧ String.length (String.substring 0 200 quoted) = 200%nat)
  ∧ asciiText (quotedExcerpt quoted).
Proof.
  intros Hascii. unfold quotedExcerpt.
  pose proof (substring_0_length 200 quoted) as Hlen.
  assert (Hout : asciiText
                   (String.substring 0 200 quoted
                    ++ (if (200 <? String.length quoted)%nat
                        then "..." else ""))).
  { unfold asciiText in *.
    rewrite list_ascii_of_string_app, list_ascii_of_substring.
    apply Forall_app. split; [by apply Forall_take|].
    destruct (200 <? String.length quoted)%nat; repeat constructor. }
  destruct (Nat.ltb_spec 200 (String.length quoted)) as [Hlong|Hshort].
  - split_and!; [|lia| |done].
    + rewrite string_length_app, Hlen. cbn [String.length]. lia.
    + intros _. split; [done|]. rewrite Hlen. lia.
  - split_and!; [| |lia|done].
    + rewrite string_length_app, Hlen. cbn [String.length]. lia.
    + intros _. rewrite substring_0_all by done. apply string_app_empty.
Qed.

(** X19: the number a block of the prompt carries is the index that maps
    back to the post of the block: the block of the post at array position
    [i] begins with [i + 1] in brackets and the handle of its author, and the
    notable entry with [postIndex = i + 1] is resolved to that post. *)
Theorem prompt_numbers_match_mapping (posts : list Post) (i : nat) (p : Post)
    (why : string) :
  posts !! i = Some p →
  promptBlocks posts !! i = Some (promptBlock i p)
  ∧ startsWith ("[" ++ showNumber (Z.of_nat i + 1) ++ "] @"
                ++ handle (author p)) (promptBlock i p) = true
  ∧ notableEntry posts {| postIndex := Z.of_nat i + 1; reason := why |}
    = {| entry_post := Some (notableOf p); entry_reason := why |}
  ∧ length (promptBlocks posts) = length posts.
Proof.
  intros Hp. split_and!.
  - unfold promptBlocks. by rewrite list_lookup_imap, Hp.
  - unfold promptBlock.
    match goal with
    | |- startsWith (?a ++ ?b ++ ?c ++ ?d) (?a ++ ?b ++ ?c ++ ?d ++ ?rest)
         = true =>
        replace (a ++ b ++ c ++ d ++ rest) with ((a ++ b ++ c ++ d) ++ rest)
          by (by rewrite !string_app_assoc)
    end.
    apply startsWith_app.
  - unfold notableEntry, at_index. simpl.
    destruct (Z.ltb_spec (Z.of_nat i + 1 - 1) 0) as [Hneg|_]; [lia|].
    replace (Z.to_nat (Z.of_nat i + 1 - 1)) with i by lia.
    by rewrite Hp.
  - unfold promptBlocks. apply length_imap.
Qed.

End Text.

(** ** The feed route *)

Section FeedRouteProps.

Lemma feedRoute_unknown (inherited : string → bool) (key : string) :
  key ≠ "timeline" →
  (match FeedRoute.FEEDS inherited key with
   | FeedRoute.NoProperty | FeedRoute.NullValue => True
   | _ => False
   end)
  ↔ (key ∉ ["timeline"; "popular"; "popular-friends"])
    ∧ inherited key = false.
Proof.
  intros Htimeline. unfold FeedRoute.FEEDS.
  rewrite !not_elem_of_cons.
  rewrite (decide_False (P := key = "timeline")) by done.
  destruct (decide (key = "popular")) as [->|Hpopular].
  { split; [done|]. by intros [(_ & Hne & _) _]. }
  destruct (decide (key = "popular-friends")) as [->|Hfriends].
  { split; [done|]. by intros [(_ & _ & Hne & _) _]. }
  destruct (inherited key).
  - split; [done|]. by intros [_ ?].
  - split; [|done]. intros _. split_and!; [done..|apply not_elem_of_nil|done].
Qed.

(** X20: the answers of the feed route.  A missing or empty [feed] parameter
    means the timeline.  A failure is a 400 "Unknown feed" or a 500.  The 400
    is the answer exactly when the credentials are set, the login succeeds
    and the name asked for is neither one of the three feeds nor a property
    every object inherits; with credentials that the login rejects the
    answer is the 500 "Failed to fetch feed" whatever feed is asked for. *)
Theorem feedRoute_answers (inherited : string → bool) (env : FeedRoute.Env)
    (param : option string) :
  FeedRoute.GET inherited env None
  = FeedRoute.GET inherited env (Some "timeline")
  ∧ FeedRoute.GET inherited env (Some "")
    = FeedRoute.GET inherited env (Some "timeline")
  ∧ (∀ status error,
       FeedRoute.GET inherited env param = FeedRoute.Failure status error →
       (status = 400%nat ∧ error = "Unknown feed")
       ∨ (status = 500%nat
          ∧ (error = "Missing Bluesky credentials"
             ∨ error = "Failed to fetch feed")))
  ∧ ((∃ error, FeedRoute.GET inherited env param
               = FeedRoute.Failure 400 error)
     ↔ (∃ h p agent, FeedRoute.BLUESKY_HANDLE env = Some h
                     ∧ FeedRoute.BLUESKY_APP_PASSWORD env = Some p
                     ∧ truthy h = true ∧ truthy p = true
                     ∧ FeedRoute.login env h p = Some agent)
       ∧ (FeedRoute.feedTypeOf param ∉ ["timeline"; "popular";
                                         "popular-friends"])
       ∧ inherited (FeedRoute.feedTypeOf param) = false)
  ∧ (∀ h p, FeedRoute.BLUESKY_HANDLE env = Some h →
            FeedRoute.BLUESKY_APP_PASSWORD env = Some p →
            truthy h = true → truthy p = true →
            FeedRoute.login env h p = None →
            FeedRoute.GET inherited env param
            = FeedRoute.Failure 500 "Failed to fetch feed").
Proof.
  split_and!; [done|done| | |].
  - intros status error. unfold FeedRoute.GET.
    destruct (FeedRoute.BLUESKY_HANDLE env) as [h|];
      [|intros [= <- <-]; right; split; [done|by left]].
    destruct (FeedRoute.BLUESKY_APP_PASSWORD env) as [p|];
      [|intros [= <- <-]; right; split; [done|by left]].
    destruct (truthy h && truthy p);
      [|intros [= <- <-]; right; split; [done|by left]].
    destruct (FeedRoute.login env h p) as [agent|] eqn:Hlogin;
      [|intros [= <- <-]; right; split; [done|by right]].
    destruct (if decide _ then _ else _) as [[items|]|]; [done|..];
      intros [= <- <-].
    + right. split; [done|by right].
    + by left.
  - unfold FeedRoute.GET.
    destruct (FeedRoute.BLUESKY_HANDLE env) as [h|];
      [|split; [by intros [? ?]|by intros [(? & ? & ? & ? & _) _]]].
    destruct (FeedRoute.BLUESKY_APP_PASSWORD env) as [p|];
      [|split; [by intros [? ?]|by intros [(? & ? & ? & _ & ? & _) _]]].
    destruct (truthy h) eqn:Hth; simpl;
      [|split; [by intros [? ?]|];
        intros [(h' & p' & ? & [= <-] & _ & Hh' & _) _]; congruence].
    destruct (truthy p) eqn:Htp; simpl;
      [|split; [by intros [? ?]|];
        intros [(h' & p' & ? & _ & [= <-] & _ & Hp' & _) _]; congruence].
    destruct (FeedRoute.login env h p) as [agent|] eqn:Hlogin;
      [|split; [by intros [? ?]|];
        intros [(h' & p' & ? & [= <-] & [= <-] & _ & _ & Hl) _]; congruence].
    destruct (decide (FeedRoute.feedTypeOf param = "timeline")) as [Heq|Hne].
    { split.
      - intros [error Herr]. by destruct (FeedRoute.timelinePage agent 50).
      - intros (_ & Hname & _). rewrite Heq in Hname.
        exfalso. apply Hname. by left. }
    pose proof (feedRoute_unknown inherited _ Hne) as Hunknown.
    destruct (FeedRoute.FEEDS inherited (FeedRoute.feedTypeOf param))
      as [| |uri0|key].
    + split; [|by eexists]. intros _.
      split; [by exists h, p, agent|]. by apply Hunknown.
    + split; [|by eexists]. intros _.
      split; [by exists h, p, agent|]. by apply Hunknown.
    + split.
      * intros [error Herr].
        by destruct (FeedRoute.feedPage agent (FeedRoute.ArgUri uri0) 50).
      * intros [_ Hname]. by apply Hunknown in Hname.
    + split.
      * intros [error Herr].
        by destruct (FeedRoute.feedPage agent (FeedRoute.ArgValue key) 50).
      * intros [_ Hname]. by apply Hunknown in Hname.
  - intros h p Hh Hp Hth Htp Hlogin. unfold FeedRoute.GET.
    by rewrite Hh, Hp, Hth, Htp, Hlogin.
Qed.

(** X21: the two routes normalise an item alike.  On the same item the post
    of the feed route and the post of the digest route have the same [uri],
    author and text; the digest route has the empty string and zero where the
    feed route passes an absent [createdAt] or count on; and the quoted post
    of the digest route is the one of the feed route reduced to handle and
    text, present in the one exactly when in the other. *)
Theorem toPost_agrees_with_extractPost (item : FeedRoute.RawItem) :
  uri (extractPost (FeedRoute.forget item))
  = FeedRoute.fp_uri (FeedRoute.toPost item)
  ∧ author (extractPost (FeedRoute.forget item))
    = FeedRoute.fp_author (FeedRoute.toPost item)
  ∧ text (extractPost (FeedRoute.forget item))
    = FeedRoute.fp_text (FeedRoute.toPost item)
  ∧ createdAt (extractPost (FeedRoute.forget item))
    = or_empty (FeedRoute.fp_createdAt (FeedRoute.toPost item))
  ∧ likeCount (extractPost (FeedRoute.forget item))
    = default 0 (FeedRoute.fp_likeCount (FeedRoute.toPost item))
  ∧ repostCount (extractPost (FeedRoute.forget item))
    = default 0 (FeedRoute.fp_repostCount (FeedRoute.toPost item))
  ∧ replyCount (extractPost (FeedRoute.forget item))
    = default 0 (FeedRoute.fp_replyCount (FeedRoute.toPost item))
  ∧ quotedPost (extractPost (FeedRoute.forget item))
    = FeedRoute.forgetQuoted <$> FeedRoute.fp_quotedPost (FeedRoute.toPost item).
Proof.
  split_and!; try done.
  unfold extractPost, FeedRoute.toPost, FeedRoute.forget. simpl.
  assert (Hq : ∀ r, quoteOf (FeedRoute.forgetRecord <$> r)
                    = FeedRoute.forgetQuoted <$> FeedRoute.quotedOf r).
  { intros [r|]; [|done]. simpl. by destruct (decide _). }
  destruct (FeedRoute.ri_embed item) as [e|]; [|done]. simpl.
  rewrite !Hq.
  destruct (decide (FeedRoute.re_type e = Some "app.bsky.embed.record#view"));
    destruct (decide (FeedRoute.re_type e
                      = Some "app.bsky.embed.recordWithMedia#view"));
    try done;
    by destruct (FeedRoute.quotedOf (FeedRoute.re_record_record e)).
Qed.

End FeedRouteProps.

(** ** Links and relative times *)

Section LinksAndTimes.
Context `{!JsBuiltins}.

Lemma lastSegmentFrom_slashFree (segment s : string) :
  slashFree s = true → lastSegmentFrom segment s = segment ++ s.
Proof.
  revert segment. induction s as [|c s IH]; intros segment Hfree.
  - simpl. by rewrite string_app_empty.
  - simpl in *. apply andb_true_iff in Hfree as [Hc Hfree].
    apply negb_true_iff in Hc. rewrite Hc, IH by done.
    by rewrite string_app_assoc.
Qed.

Lemma lastSegmentFrom_slash (segment before after : string) :
  lastSegmentFrom segment (before ++ "/" ++ after) = lastSegmentFrom "" after.
Proof.
  revert segment. induction before as [|c before IH]; intros segment.
  - done.
  - change (String c before ++ "/" ++ after)
      with (String c (before ++ "/" ++ after)).
    simpl. destruct (Ascii.eqb c "/"); apply IH.
Qed.

Lemma slashFree_app (s1 s2 : string) :
  slashFree (s1 ++ s2) = slashFree s1 && slashFree s2.
Proof.
  induction s1 as [|c s1 IH]; [done|].
  change (String c s1 ++ s2) with (String c (s1 ++ s2)). simpl.
  by rewrite IH, andb_assoc.
Qed.

Lemma lastSegmentFrom_is_slashFree (segment s : string) :
  slashFree segment = true → slashFree (lastSegmentFrom segment s) = true.
Proof.
  revert segment. induction s as [|c s IH]; intros segment Hfree; [done|].
  simpl. destruct (Ascii.eqb c "/") eqn:Hc; [by apply IH|].
  apply IH. rewrite slashFree_app, Hfree. simpl. by rewrite Hc.
Qed.

(** X22: the link of a post in the prompt of the streaming digest ends with
    what follows the last slash of the post's [uri]: the record key of an
    [at://.../app.bsky.feed.post/key] uri, the whole [uri] when it has no
    slash; that last part never holds a slash itself. *)
Theorem postUrl_record_key :
  (∀ before key, slashFree key = true →
                 lastSegment (before ++ "/" ++ key) = key)
  ∧ (∀ s, slashFree s = true → lastSegment s = s)
  ∧ (∀ s, slashFree (lastSegment s) = true)
  ∧ (∀ post before key,
       uri post = before ++ "/" ++ key → slashFree key = true →
       postUrl post
       = "https://bsky.app/profile/" ++ handle (author post) ++ "/post/" ++ key).
Proof.
  assert (Hkey : ∀ before key, slashFree key = true →
                               lastSegment (before ++ "/" ++ key) = key).
  { intros before key Hfree. unfold lastSegment.
    rewrite lastSegmentFrom_slash. by rewrite lastSegmentFrom_slashFree. }
  split_and!; [done| | |].
  - intros s Hfree. unfold lastSegment. by rewrite lastSegmentFrom_slashFree.
  - intros s. by apply lastSegmentFrom_is_slashFree.
  - intros post before key Huri Hfree. unfold postUrl.
    by rewrite Huri, Hkey.
Qed.

(** X23: what the digest page prints for a valid date: minutes up to one
    hour (a date in the future gives a negative number of minutes), hours
    from one hour up to a day, days from one day up to a week, the local date
    from then on; the unit has its plural [s] except for exactly one. *)
Theorem formatRelativeTime_units (toLocaleDateString : Z → string) (now : Z)
    (dateString : string) (date : Z) :
  Date_parse dateString = Some date →
  (now - date < 3600000 →
   formatRelativeTime toLocaleDateString now dateString
   = showNumber ((now - date) / 60000) ++ " minute"
     ++ plural ((now - date) / 60000) ++ " ago"
   ∧ (now - date) / 60000 < 60
   ∧ (now < date → (now - date) / 60000 < 0))
  ∧ (3600000 <= now - date < 86400000 →
     formatRelativeTime toLocaleDateString now dateString
     = showNumber ((now - date) / 3600000) ++ " hour"
       ++ plural ((now - date) / 3600000) ++ " ago"
     ∧ 1 <= (now - date) / 3600000 < 24)
  ∧ (86400000 <= now - date < 604800000 →
     formatRelativeTime toLocaleDateString now dateString
     = showNumber ((now - date) / 86400000) ++ " day"
       ++ plural ((now - date) / 86400000) ++ " ago"
     ∧ 1 <= (now - date) / 86400000 < 7)
  ∧ (604800000 <= now - date →
     formatRelativeTime toLocaleDateString now dateString
     = toLocaleDateString date)
  ∧ (∀ n, plural n = "" ↔ n = 1).
Proof.
  intros Hdate. unfold formatRelativeTime. rewrite Hdate.
  change (1000 * 60 * 60 * 24) with 86400000.
  change (1000 * 60 * 60) with 3600000. change (1000 * 60) with 60000.
  split_and!.
  - intros Hdiff.
    destruct (Z.ltb_spec ((now - date) / 60000) 60) as [Hm|Hm];
      [|Z.div_mod_to_equations; lia].
    split_and!; [done|done|]. intros Hfuture. Z.div_mod_to_equations. lia.
  - intros Hdiff.
    destruct (Z.ltb_spec ((now - date) / 60000) 60) as [Hm|Hm];
      [Z.div_mod_to_equations; lia|].
    destruct (Z.ltb_spec ((now - date) / 3600000) 24) as [Hh|Hh];
      [|Z.div_mod_to_equations; lia].
    split; [done|]. Z.div_mod_to_equations. lia.
  - intros Hdiff.
    destruct (Z.ltb_spec ((now - date) / 60000) 60) as [Hm|Hm];
      [Z.div_mod_to_equations; lia|].
    destruct (Z.ltb_spec ((now - date) / 3600000) 24) as [Hh|Hh];
      [Z.div_mod_to_equations; lia|].
    destruct (Z.ltb_spec ((now - date) / 86400000) 7) as [Hd|Hd];
      [|Z.div_mod_to_equations; lia].
    split; [done|]. Z.div_mod_to_equations. lia.
  - intros Hdiff.
    destruct (Z.ltb_spec ((now - date) / 60000) 60) as [Hm|Hm];
      [Z.div_mod_to_equations; lia|].
    destruct (Z.ltb_spec ((now - date) / 3600000) 24) as [Hh|Hh];
      [Z.div_mod_to_equations; lia|].
    destruct (Z.ltb_spec ((now - date) / 86400000) 7) as [Hd|Hd];
      [Z.div_mod_to_equations; lia|done].
  - intros n. unfold plural. destruct (Z.eqb_spec n 1); split; try done.
Qed.

(** X24: a digest served from the cache is shown as generated minutes or
    hours ago, never days: when [generatedAt] is the ISO form of the moment
    the digest was finished, and the page formats it later on the same UTC
    day, the text counts 0 to 59 minutes or 1 to 23 hours. *)
Theorem cached_digest_age (toLocaleDateString : Z → string) (finished now : Z) :
  Date_parse (JsDate.toISOString finished) = Some finished →
  finished <= now → utcDay finished = utcDay now →
  ∃ n, (0 <= n < 60
        ∧ formatRelativeTime toLocaleDateString now (JsDate.toISOString finished)
          = showNumber n ++ " minute" ++ plural n ++ " ago")
       ∨ (1 <= n < 24
          ∧ formatRelativeTime toLocaleDateString now
              (JsDate.toISOString finished)
            = showNumber n ++ " hour" ++ plural n ++ " ago").
Proof.
  intros Hparse Hle Hday. unfold formatRelativeTime. rewrite Hparse.
  change (1000 * 60 * 60 * 24) with 86400000.
  change (1000 * 60 * 60) with 3600000. change (1000 * 60) with 60000.
  unfold utcDay, JsDate.msPerDay in Hday.
  destruct (Z.ltb_spec ((now - finished) / 60000) 60) as [Hm|Hm].
  - exists ((now - finished) / 60000). left. split; [|done].
    Z.div_mod_to_equations. lia.
  - destruct (Z.ltb_spec ((now - finished) / 3600000) 24) as [Hh|Hh].
    + exists ((now - finished) / 3600000). right. split; [|done].
      Z.div_mod_to_equations. lia.
    + Z.div_mod_to_equations. lia.
Qed.

End LinksAndTimes.

(** ** The further properties at the sample data *)

Section MoreInstances.

Lemma rankPosts_keeps_best_witness :
  Forall safeCounts [Samples.p5; Samples.p3; Samples.p1]
  ∧ ∃ rest,
      (rankPosts [Samples.p5; Samples.p3; Samples.p1] ++ rest)%list
      ≡ₚ [Samples.p5; Samples.p3; Samples.p1]
      ∧ (∀ p q, p ∈ rankPosts [Samples.p5; Samples.p3; Samples.p1] →
                q ∈ rest → scoreGe p q)
      ∧ (∀ p q, p ∈ rankPosts [Samples.p5; Samples.p3; Samples.p1] →
                q ∈ rest → (specScore q <= specScore p + 16)%Q)
      ∧ (Forall exactCounts [Samples.p5; Samples.p3; Samples.p1] →
         ∀ p q, p ∈ rankPosts [Samples.p5; Samples.p3; Samples.p1] →
                q ∈ rest → specScoreGe p q)
      ∧ ((length [Samples.p5; Samples.p3; Samples.p1] ≤ 150)%nat →
         rest = []).
Proof.
  assert (Hsafe : Forall safeCounts [Samples.p5; Samples.p3; Samples.p1]).
  { repeat constructor; simpl; unfold safeInteger; lia. }
  split; [exact Hsafe|].
  pose proof (rankPosts_keeps_best [Samples.p5; Samples.p3; Samples.p1] Hsafe)
    as Hbest.
  exact Hbest.
Defined.

Lemma sort_keeps_order_of_ties_witness :
  Forall safeCounts [Samples.tie2; Samples.p5; Samples.p4; Samples.tie1]
  ∧ List.filter (fun p => Qeq_bool (calculateEngagementScore p) 7)
      (sort byEngagement
         [Samples.tie2; Samples.p5; Samples.p4; Samples.tie1])
    = List.filter (fun p => Qeq_bool (calculateEngagementScore p) 7)
        [Samples.tie2; Samples.p5; Samples.p4; Samples.tie1]
  ∧ (Forall exactCounts
       [Samples.tie2; Samples.p5; Samples.p4; Samples.tie1] →
     List.filter (fun p => Qeq_bool (specScore p) 7)
       (sort byEngagement
          [Samples.tie2; Samples.p5; Samples.p4; Samples.tie1])
     = List.filter (fun p => Qeq_bool (specScore p) 7)
         [Samples.tie2; Samples.p5; Samples.p4; Samples.tie1]).
Proof.
  assert (Hsafe : Forall safeCounts
                    [Samples.tie2; Samples.p5; Samples.p4; Samples.tie1]).
  { repeat constructor; simpl; unfold safeInteger; lia. }
  split; [exact Hsafe|].
  pose proof (sort_keeps_order_of_ties
                [Samples.tie2; Samples.p5; Samples.p4; Samples.tie1] 7 Hsafe)
    as Hties.
  exact Hties.
Defined.

(** The three posts of score 7 come out in the order of the input. *)
Example sort_ties_sample :
  List.filter (fun p => Qeq_bool (calculateEngagementScore p) 7)
    (sort byEngagement [Samples.tie2; Samples.p5; Samples.p4; Samples.tie1])
  = [Samples.tie2; Samples.p4; Samples.tie1].
Proof. vm_compute. reflexivity. Qed.

Lemma quotedExcerpt_cut_witness :
  asciiText "the quoted text"
  ∧ quotedExcerpt "the quoted text" = "the quoted text"
  ∧ asciiText (quotedExcerpt "the quoted text").
Proof.
  assert (Hascii : asciiText "the quoted text").
  { unfold asciiText. simpl. repeat constructor; simpl; lia. }
  split; [exact Hascii|].
  pose proof (quotedExcerpt_cut "the quoted text" Hascii)
    as (_ & Hshort & _ & Hout).
  split; [|exact Hout].
  apply Hshort. simpl. lia.
Defined.

(** A text of 201 letters is cut to 200 and marked. *)
Example quotedExcerpt_sample :
  quotedExcerpt (string_of_list_ascii (replicate 201 "a"%char))
  = string_of_list_ascii (replicate 200 "a"%char) ++ "..."
  ∧ quotedExcerpt (string_of_list_ascii (replicate 200 "a"%char))
    = string_of_list_ascii (replicate 200 "a"%char).
Proof. vm_compute. done. Qed.

Lemma getCacheKey_identifies_witness :
  getCacheKey general 1730545200000 = getCacheKey general 1730505600001
  ↔ general = general ∧ utcDay 1730545200000 = utcDay 1730505600001.
Proof.
  pose proof (getCacheKey_identifies general general 1730545200000
                1730505600001) as Hkey.
  apply Hkey; unfold validTime; lia.
Defined.

Lemma cache_write_scope_witness :
  getCache false (setCache false ∅ 1730505600001 general Samples.record)
    1730505600001 ai
  = getCache false ∅ 1730505600001 ai.
Proof.
  pose proof (cache_write_scope false ∅ general ai 1730505600001
                1730505600001 Samples.record) as Hscope.
  apply Hscope; [unfold validTime; lia..|].
  left. discriminate.
Defined.

Lemma cache_last_write_wins_witness :
  setCache false (setCache false ∅ 1730505600001 general Samples.record)
    1730545200000 general MoreSamples.generatedDigest
  = setCache false ∅ 1730545200000 general MoreSamples.generatedDigest
  ∧ getCache false
      (setCache false (setCache false ∅ 1730505600001 general Samples.record)
         1730545200000 general MoreSamples.generatedDigest)
      1730588400000 general
    = Some {| digest := MoreSamples.generatedDigest;
              date := JsDate.today 1730545200000 |}.
Proof.
  pose proof (cache_last_write_wins ∅ general Samples.record
                MoreSamples.generatedDigest 1730505600001 1730545200000
                1730588400000) as Hwins.
  apply Hwins; reflexivity.
Defined.

Lemma sample_generated :
  GET (H := Samples.builtins) Samples.world ∅ Samples.plain
  = Some (MoreSamples.generatedResponse, MoreSamples.generatedStore).
Proof. vm_compute. reflexivity. Qed.

Lemma sample_fresh :
  freshBody MoreSamples.generatedResponse MoreSamples.generatedDigest.
Proof. vm_compute. reflexivity. Qed.

Lemma GET_then_cached_witness :
  GET (H := Samples.builtins) MoreSamples.later MoreSamples.generatedStore
    Samples.plain
  = Some ({| status := 200;
             body := DigestBody MoreSamples.generatedDigest
                       (Some (digestTypeOf Samples.plain)) true;
             deletesSession := false |}, MoreSamples.generatedStore).
Proof.
  pose proof (@GET_then_cached Samples.builtins Samples.world
                MoreSamples.later ∅ MoreSamples.generatedStore Samples.plain
                Samples.plain MoreSamples.generatedResponse
                MoreSamples.generatedDigest sample_generated sample_fresh)
    as Hcached.
  apply Hcached; reflexivity.
Defined.

Lemma GET_digest_figures_witness :
  digestType (meta MoreSamples.generatedDigest) = digestTypeOf Samples.plain
  ∧ (postsAnalyzed (meta MoreSamples.generatedDigest) ≤ 150)%nat.
Proof.
  pose proof (@GET_digest_figures Samples.builtins Samples.world ∅
                MoreSamples.generatedStore Samples.plain
                MoreSamples.generatedResponse MoreSamples.generatedDigest
                sample_generated sample_fresh) as (Htype & Hcount & _).
  split; [exact Htype|exact Hcount].
Defined.

Lemma GET_notable_provenance_witness :
  Forall (fun e => ∃ p, entry_post e = Some (notableOf p)
                        ∧ recent (H := Samples.builtins)
                            (cutoffOf Samples.world) p
                        ∧ (servedByTimeline Samples.mixed p
                           ∨ (digestTypeOf Samples.plain = ai
                              ∧ servedByFeed Samples.mixed p)))
    (notablePosts MoreSamples.generatedDigest).
Proof.
  pose proof (@GET_notable_provenance Samples.builtins Samples.world ∅
                MoreSamples.generatedStore Samples.plain
                MoreSamples.generatedResponse MoreSamples.generatedDigest
                Samples.mixed sample_generated sample_fresh) as Hfrom.
  apply Hfrom. exists "did:plc:alice". split; reflexivity.
Defined.

Lemma prompt_numbers_match_mapping_witness :
  promptBlocks Samples.ranked5 !! 2%nat = Some (promptBlock 2 Samples.p3)
  ∧ startsWith ("[" ++ showNumber (Z.of_nat 2 + 1) ++ "] @"
                ++ handle (author Samples.p3)) (promptBlock 2 Samples.p3)
    = true
  ∧ notableEntry Samples.ranked5
      {| postIndex := Z.of_nat 2 + 1; reason := "first mention" |}
    = {| entry_post := Some (notableOf Samples.p3);
         entry_reason := "first mention" |}
  ∧ length (promptBlocks Samples.ranked5) = length Samples.ranked5.
Proof.
  pose proof (prompt_numbers_match_mapping Samples.ranked5 2 Samples.p3
                "first mention") as Hblock.
  apply Hblock. reflexivity.
Defined.

Lemma formatRelativeTime_units_witness :
  formatRelativeTime (H := Samples.builtins) (fun _ => "2.11.2024")
    1730545200000 "2024-11-02T10:00:00.000Z"
  = showNumber ((1730545200000 - 1730541600000) / 3600000) ++ " hour"
    ++ plural ((1730545200000 - 1730541600000) / 3600000) ++ " ago"
  ∧ 1 <= (1730545200000 - 1730541600000) / 3600000 < 24.
Proof.
  pose proof (@formatRelativeTime_units Samples.builtins
                (fun _ => "2.11.2024") 1730545200000
                "2024-11-02T10:00:00.000Z" 1730541600000 eq_refl)
    as (_ & Hhour & _).
  apply Hhour. lia.
Defined.

Lemma cached_digest_age_witness :
  ∃ n, (0 <= n < 60
        ∧ formatRelativeTime (H := Samples.builtins) (fun _ => "2.11.2024")
            1730588400000 (JsDate.toISOString 1730545205000)
          = showNumber n ++ " minute" ++ plural n ++ " ago")
       ∨ (1 <= n < 24
          ∧ formatRelativeTime (H := Samples.builtins) (fun _ => "2.11.2024")
              1730588400000 (JsDate.toISOString 1730545205000)
            = showNumber n ++ " hour" ++ plural n ++ " ago").
Proof.
  pose proof (@cached_digest_age Samples.builtins (fun _ => "2.11.2024")
                1730545205000 1730588400000) as Hage.
  apply Hage; [reflexivity|lia|reflexivity].
Defined.

(** The sample digest, generated at 11:00:05, shown at 23:00. *)
Example formatRelativeTime_sample :
  formatRelativeTime (H := Samples.builtins) (fun _ => "2.11.2024")
    1730588400000 (generatedAt (meta MoreSamples.generatedDigest))
  = "11 hours ago"
  ∧ formatRelativeTime (H := Samples.builtins) (fun _ => "2.11.2024")
      1730545200000 "2024-11-02T10:59:00.000Z" = "1 minute ago"
  ∧ formatRelativeTime (H := Samples.builtins) (fun _ => "2.11.2024")
      1730545200000 "2024-11-02T11:05:00.000Z" = "-5 minutes ago"
  ∧ formatRelativeTime (H := Samples.builtins) (fun _ => "2.11.2024")
      1730545200000 "" = "Invalid Date".
Proof. vm_compute. done. Qed.

(** The feed route on the sample environment: an unknown name, an inherited
    name, which goes to the upstream and fails there, and the timeline. *)
Example feedRoute_sample :
  FeedRoute.GET MoreSamples.inherits MoreSamples.feedEnv (Some "nope")
  = FeedRoute.Failure 400 "Unknown feed"
  ∧ FeedRoute.GET MoreSamples.inherits MoreSamples.feedEnv
      (Some "constructor")
    = FeedRoute.Failure 500 "Failed to fetch feed"
  ∧ FeedRoute.GET MoreSamples.inherits MoreSamples.feedEnv (Some "popular")
    = FeedRoute.Posts []
  ∧ FeedRoute.GET MoreSamples.inherits MoreSamples.feedEnv None
    = FeedRoute.Posts [FeedRoute.toPost MoreSamples.rawItem]
  ∧ FeedRoute.fp_quotedPost (FeedRoute.toPost MoreSamples.rawItem)
    = Some {| FeedRoute.q_uri :=
                Some "at://did:plc:bob/app.bsky.feed.post/3kxyz";
              FeedRoute.q_handle := Some "bob.test";
              FeedRoute.q_displayName := None;
              FeedRoute.q_avatar := None;
              FeedRoute.q_text := "the quoted text" |}.
Proof. vm_compute. done. Qed.

Example postUrl_sample :
  postUrl Samples.p1 = "https://bsky.app/profile/alice.test/post/1"
  ∧ lastSegment "no-slash" = "no-slash"
  ∧ lastSegment "ends/with/" = "".
Proof. vm_compute. done. Qed.

(** The fences around a small answer. *)
Example stripFences_sample :
  stripFences ("```json" ++ newline ++ "{}" ++ newline ++ "```") = "{}"
  ∧ stripFences "```{}```" = "{}"
  ∧ stripFences "{}" = "{}".
Proof. vm_compute. done. Qed.

End MoreInstances.
